(** * BATMAN API testing framework: contract-to-test pipeline

    A shallow embedding of the Python sources
    [api_testing_framework/parser.py], [templates.py], [generator.py],
    [executor.py], [config.py] and [validation.py], followed by the
    properties the specification states about them and by further
    properties of the same code.

    Conventions of the embedding.
    - Python [str] is [string], the bytes of the text in UTF-8.  The
      comparisons, prefixes, suffixes, splits and regular expressions of the
      sources give on these bytes what they give on the text.  The case
      conversions, [int] and [repr] are embedded for ASCII text ([is_ascii]);
      on other text they follow the interpreter's Unicode tables, which the
      embedding does not have, and a property that holds of them on ASCII
      text only is stated for ASCII text.
    - A Python [dict] is an association list in insertion order; a well-formed
      dictionary has no repeated key ([dict_wf]).
    - A raised exception is the [Raise] branch of [result]; the exception
      classes are the ones the sources raise or let escape.
    - What the program obtains from outside (sub-processes, the clock, the git
      and URL libraries, the directory tree) is an explicit argument. *)

From Stdlib Require Import ZArith String Ascii List Bool Lia PrimFloat DecimalString Sorted.
From stdpp Require Import base list strings.

Set Warnings "-register-all".
Local Open Scope Z_scope.
Local Open Scope string_scope.

(** ** Python run-time values and primitives *)
Module Py.

Inductive exn : Type :=
| KeyError (key : string)
| TypeError
| AttributeError
| ValueError (msg : string)
| FileNotFoundError (msg : string)
| YAMLError (msg : string)
| OtherError (text : string).

Inductive result (A : Type) : Type :=
| Ok (a : A)
| Raise (e : exn).
Arguments Ok {A} a.
Arguments Raise {A} e.

Definition bind {A B : Type} (m : result A) (k : A -> result B) : result B :=
  match m with
  | Ok a => k a
  | Raise e => Raise e
  end.

(** Values that [json.loads] and [yaml.safe_load] build (string keys). *)
Inductive json : Type :=
| JNone
| JBool (b : bool)
| JInt (n : Z)
| JFloat (f : float)
| JStr (s : string)
| JList (items : list json)
| JDict (entries : list (string * json)).

(** [bool(v)]: the truth value tested by [if v:] and [if not v:]. *)
Definition truthy (v : json) : bool :=
  match v with
  | JNone => false
  | JBool b => b
  | JInt n => negb (n =? 0)%Z
  | JFloat f => negb (PrimFloat.eqb f 0%float)
  | JStr s => negb (String.eqb s "")
  | JList items => match items with [] => false | _ => true end
  | JDict entries => match entries with [] => false | _ => true end
  end.

(** *** Dictionaries *)
Abbreviation dict V := (list (string * V)).

Definition dict_wf {V : Type} (d : dict V) : Prop := NoDup (map fst d).

(** [d.get(k)] with [None] as an [option]. *)
Fixpoint dict_lookup {V : Type} (k : string) (d : dict V) : option V :=
  match d with
  | [] => None
  | (k', v) :: rest => if String.eqb k' k then Some v else dict_lookup k rest
  end.

(** [d[k] = v]: an existing key keeps its position, a new key goes last. *)
Fixpoint dict_set {V : Type} (k : string) (v : V) (d : dict V) : dict V :=
  match d with
  | [] => [(k, v)]
  | (k', v') :: rest =>
      if String.eqb k' k then (k, v) :: rest else (k', v') :: dict_set k v rest
  end.

(** [v.get(k, default)] on a value of unknown type: only a dict has [get]. *)
Definition get (v : json) (k : string) (default : json) : result json :=
  match v with
  | JDict entries =>
      Ok (match dict_lookup k entries with Some x => x | None => default end)
  | _ => Raise AttributeError
  end.

(** [v[k]] with a string subscript, as [resolve_refs] uses it. *)
Definition getitem (v : json) (k : string) : result json :=
  match v with
  | JDict entries =>
      match dict_lookup k entries with
      | Some x => Ok x
      | None => Raise (KeyError k)
      end
  | _ => Raise TypeError
  end.

(** *** Strings *)
Definition startswith (s p : string) : bool := String.prefix p s.

Fixpoint endswith_aux (rs rp : list ascii) : bool :=
  match rp, rs with
  | [], _ => true
  | _ :: _, [] => false
  | c :: rp', d :: rs' => if Ascii.eqb c d then endswith_aux rs' rp' else false
  end.

Definition endswith (s p : string) : bool :=
  endswith_aux (rev (list_ascii_of_string s)) (rev (list_ascii_of_string p)).

Definition is_upper (c : ascii) : bool :=
  let n := nat_of_ascii c in (65 <=? n)%nat && (n <=? 90)%nat.
Definition is_lower (c : ascii) : bool :=
  let n := nat_of_ascii c in (97 <=? n)%nat && (n <=? 122)%nat.
Definition is_digit (c : ascii) : bool :=
  let n := nat_of_ascii c in (48 <=? n)%nat && (n <=? 57)%nat.
(** The white space [int] skips around an ASCII literal: tab to carriage
    return, and the space. *)
Definition is_space (c : ascii) : bool :=
  let n := nat_of_ascii c in
  ((9 <=? n)%nat && (n <=? 13)%nat) || (n =? 32)%nat.

(** Text without a character outside ASCII. *)
Definition is_ascii (s : string) : bool :=
  forallb (fun c => (nat_of_ascii c <? 128)%nat) (list_ascii_of_string s).

Definition to_lower (c : ascii) : ascii :=
  if is_upper c then ascii_of_nat (nat_of_ascii c + 32) else c.
Definition to_upper (c : ascii) : ascii :=
  if is_lower c then ascii_of_nat (nat_of_ascii c - 32) else c.

(** [s.lower()] of ASCII text: the letters A to Z are lowered.  The
    interpreter also lowers the capitals outside ASCII, which are left as
    they are here. *)
Fixpoint lower (s : string) : string :=
  match s with
  | EmptyString => EmptyString
  | String c rest => String (to_lower c) (lower rest)
  end.

(** [s.title()] of ASCII text: a letter that follows a letter is lowered,
    any other letter is raised. *)
Fixpoint title_aux (prev_cased : bool) (s : string) : string :=
  match s with
  | EmptyString => EmptyString
  | String c rest =>
      let cased := is_upper c || is_lower c in
      String (if prev_cased then to_lower c else to_upper c) (title_aux cased rest)
  end.
Definition title (s : string) : string := title_aux false s.

(** [s[n:]]. *)
Fixpoint drop_chars (n : nat) (s : string) : string :=
  match n, s with
  | O, _ => s
  | S _, EmptyString => EmptyString
  | S n', String _ rest => drop_chars n' rest
  end.

(** [s.split(sep)] for a one-character separator: never an empty list. *)
Fixpoint split_aux (sep : ascii) (cur : string) (s : string) : list string :=
  match s with
  | EmptyString => [cur]
  | String c rest =>
      if Ascii.eqb c sep then cur :: split_aux sep EmptyString rest
      else split_aux sep (cur +:+ String c EmptyString) rest
  end.
Definition split (s : string) (sep : ascii) : list string :=
  split_aux sep EmptyString s.

(** [str(n)] for an integer. *)
Definition str_of_Z (n : Z) : string := NilZero.string_of_int (Z.to_int n).

(** *** [repr(s)] of an ASCII string
    The text between single quotes, or between double quotes when it has a
    single quote and no double quote; the quote in use and the backslash are
    escaped, tab, line feed and carriage return are written with their
    letter and the other control characters in hexadecimal. *)
Definition double_quote : ascii := ascii_of_nat 34.

Definition hex_digit (n : nat) : ascii :=
  ascii_of_nat (if (n <? 10)%nat then 48 + n else 87 + n).

Definition repr_char (quote c : ascii) : string :=
  let n := nat_of_ascii c in
  if Ascii.eqb c quote || Ascii.eqb c "\" then String "\" (String c "")
  else if (n =? 9)%nat then "\t"
  else if (n =? 10)%nat then "\n"
  else if (n =? 13)%nat then "\r"
  else if (n <? 32)%nat || (n =? 127)%nat then
    String "\" (String "x" (String (hex_digit (n / 16)) (String (hex_digit (n mod 16)) "")))
  else String c "".

Definition repr (s : string) : string :=
  let chars := list_ascii_of_string s in
  let quote :=
    if existsb (Ascii.eqb "'") chars && negb (existsb (Ascii.eqb double_quote) chars)
    then double_quote else "'"%char in
  String quote (String.concat "" (map (repr_char quote) chars)) +:+ String quote "".

(** [s[:n]]. *)
Fixpoint take_chars (n : nat) (s : string) : string :=
  match n, s with
  | O, _ => EmptyString
  | S _, EmptyString => EmptyString
  | S n', String c rest => String c (take_chars n' rest)
  end.

(** *** [int(s)] in base 10
    White space before the literal is skipped and one sign is allowed.  The
    literal is the longest run of digits and underscores that follows: it
    is refused when it is empty or has an underscore that is not between
    two digits; a literal of more digits than the interpreter's limit
    ([sys.int_info.default_max_str_digits], which the sources do not
    change) is refused next; and after the literal only white space may
    follow.  Each refusal is a [ValueError].  White space and digits are
    the ASCII ones; the interpreter also takes those outside ASCII, which
    are refused here. *)
Fixpoint lstrip (l : list ascii) : list ascii :=
  match l with
  | c :: rest => if is_space c then lstrip rest else l
  | [] => []
  end.

Definition digit_val (c : ascii) : Z := Z.of_nat (nat_of_ascii c) - 48.

(** [after_digit] tells whether the previous character was a digit, which is
    where an underscore may stand. *)
Fixpoint int_digits (after_digit : bool) (acc : Z) (l : list ascii) : option Z :=
  match l with
  | [] => if after_digit then Some acc else None
  | c :: rest =>
      if is_digit c then int_digits true (10 * acc + digit_val c) rest
      else if Ascii.eqb c "_" && after_digit then
        match rest with
        | d :: _ => if is_digit d then int_digits false acc rest else None
        | [] => None
        end
      else None
  end.

(** The longest run of digits and underscores at the start, and what
    follows it. *)
Fixpoint digit_run (l : list ascii) : list ascii * list ascii :=
  match l with
  | c :: rest =>
      if is_digit c || Ascii.eqb c "_" then
        let '(run, tail) := digit_run rest in (c :: run, tail)
      else ([], l)
  | [] => ([], [])
  end.

Definition max_str_digits : Z := 4300.

Definition invalid_literal (s : string) : exn :=
  ValueError ("invalid literal for int() with base 10: " +:+ take_chars 200 (repr s)).

Definition too_many_digits (digits : Z) : exn :=
  ValueError ("Exceeds the limit (" +:+ str_of_Z max_str_digits
              +:+ " digits) for integer string conversion: value has "
              +:+ str_of_Z digits
              +:+ " digits; use sys.set_int_max_str_digits() to increase the limit").

Definition int (s : string) : result Z :=
  let l := lstrip (list_ascii_of_string s) in
  let '(negative, unsigned) :=
    match l with
    | c :: rest =>
        if Ascii.eqb c "-" then (true, rest)
        else if Ascii.eqb c "+" then (false, rest)
        else (false, l)
    | [] => (false, [])
    end in
  let '(run, tail) := digit_run unsigned in
  match int_digits false 0 run with
  | None => Raise (invalid_literal s)
  | Some n =>
      let digits := Z.of_nat (length (List.filter is_digit run)) in
      if (max_str_digits <? digits)%Z then Raise (too_many_digits digits)
      else
        match lstrip tail with
        | [] => Ok (if negative then - n else n)
        | _ :: _ => Raise (invalid_literal s)
        end
  end.

(** *** Comprehensions
    [[f(x) for x in l]] and [{k: f(v) for k, v in d.items()}]: the elements
    are computed in order and the first exception ends the comprehension. *)
Definition map_result {A B : Type} (f : A -> result B) : list A -> result (list B) :=
  fix each (l : list A) : result (list B) :=
    match l with
    | [] => Ok []
    | x :: rest =>
        match f x with
        | Ok y => match each rest with Ok ys => Ok (y :: ys) | Raise e => Raise e end
        | Raise e => Raise e
        end
    end.

Definition map_values {V W : Type} (f : V -> result W) : dict V -> result (dict W) :=
  map_result (fun entry => match f (snd entry) with
                           | Ok w => Ok (fst entry, w)
                           | Raise e => Raise e
                           end).

(** An f-string before rendering: literal text and interpolated values.
    Rendering applies [str] to every value and cannot fail. *)
Inductive fpart : Type :=
| FText (s : string)
| FValue (v : json).
Definition fstring : Type := list fpart.

(** *** More of the string methods *)

(** [s.upper()]. *)
Fixpoint upper (s : string) : string :=
  match s with
  | EmptyString => EmptyString
  | String c rest => String (to_upper c) (upper rest)
  end.

(** [needle in s] for two strings. *)
Fixpoint is_substring (needle s : string) : bool :=
  String.prefix needle s
  || match s with
     | EmptyString => false
     | String _ rest => is_substring needle rest
     end.

(** [needle in v] for a string [needle]: a key of a dict, an item of a list,
    a part of a string; the other values are not containers. *)
Definition contains (v : json) (needle : string) : result bool :=
  match v with
  | JDict entries =>
      Ok (match dict_lookup needle entries with Some _ => true | None => false end)
  | JList items =>
      Ok (existsb (fun item => match item with
                               | JStr s => String.eqb s needle
                               | _ => false
                               end) items)
  | JStr s => Ok (is_substring needle s)
  | _ => Raise TypeError
  end.

(** [v.items()]: only a dict has it. *)
Definition items (v : json) : result (list (string * json)) :=
  match v with
  | JDict entries => Ok entries
  | _ => Raise AttributeError
  end.

(** [s[:-n]]. *)
Definition drop_last_chars (n : nat) (s : string) : string :=
  string_of_list_ascii (rev (skipn n (rev (list_ascii_of_string s)))).

End Py.

Notation "x <- m ;; k" := (Py.bind m (fun x => k))
(at level 100, m at next level, right associativity).

(** ** parser.py *)
Module TestCase.
(** The dictionary literal that [get_endpoint_test_cases] builds, as a record
    of its six keys; an absent schema is [None]. *)
Record t : Type := {
  name : Py.fstring;
  method : string;
  path : string;
  expected_status : Z;
  response_schema : Py.json;
  test_type : string
}.
End TestCase.

Module GitConfig.
(** The [spec_git] dictionary, with the keys and types that the configuration
    schema of [config.py] gives it: [repo] and [path] required strings,
    [branch] and [token] optional strings. *)
Record t : Type := {
  repo : string;
  path : string;
  branch : option string;
  token : option string
}.
End GitConfig.

Module Parser.
Import Py.

(** [@dataclass class Endpoint], with the field types of its annotations. *)
Record Endpoint : Type := {
  path : string;
  method : string;
  operation_id : option string;
  summary : option string;
  description : option string;
  parameters : list json;
  request_body : option json;
  responses : dict (dict json);
  tags : list string;
  security : list json
}.

(** *** [OpenAPIParser.get_endpoint_test_cases] *)

(** [response_def.get('content', {}).get('application/json', {}).get('schema')] *)
Definition response_schema_of (response_def : dict json) : result json :=
  content <- get (JDict response_def) "content" (JDict []) ;;
  media <- get content "application/json" (JDict []) ;;
  get media "schema" JNone.

(** The first loop: it stops at the first key that starts with "2" and leaves
    [status_code] and [success_response] bound to that entry; without such a
    key [success_response] stays [None]. *)
Fixpoint find_success (items : dict (dict json)) : option (string * dict json) :=
  match items with
  | [] => None
  | (status_code, response_def) :: rest =>
      if startswith status_code "2" then Some (status_code, response_def)
      else find_success rest
  end.

Definition success_case (endpoint : Endpoint) (status_code : string)
    (success_response : dict json) : result TestCase.t :=
  let descr :=
    match dict_lookup "description" success_response with
    | Some d => d
    | None => JStr "success"
    end in
  expected <- int status_code ;;
  schema <- response_schema_of success_response ;;
  Ok {| TestCase.name :=
          [FText (method endpoint); FText " "; FText (path endpoint);
           FText " returns "; FValue descr];
        TestCase.method := method endpoint;
        TestCase.path := path endpoint;
        TestCase.expected_status := expected;
        TestCase.response_schema := schema;
        TestCase.test_type := "success" |}.

Definition error_case (endpoint : Endpoint) (status_code : string)
    (response_def : dict json) : result TestCase.t :=
  expected <- int status_code ;;
  schema <- response_schema_of response_def ;;
  Ok {| TestCase.name :=
          [FText (method endpoint); FText " "; FText (path endpoint);
           FText " returns "; FText status_code];
        TestCase.method := method endpoint;
        TestCase.path := path endpoint;
        TestCase.expected_status := expected;
        TestCase.response_schema := schema;
        TestCase.test_type := "error" |}.

Definition is_error_code (status_code : string) : bool :=
  startswith status_code "4" || startswith status_code "5".

(** The second loop, appending to [test_cases]. *)
Fixpoint error_loop (endpoint : Endpoint) (items : dict (dict json))
    (test_cases : list TestCase.t) : result (list TestCase.t) :=
  match items with
  | [] => Ok test_cases
  | (status_code, response_def) :: rest =>
      if is_error_code status_code then
        test_case <- error_case endpoint status_code response_def ;;
        error_loop endpoint rest (test_cases ++ [test_case])%list
      else error_loop endpoint rest test_cases
  end.

Definition get_endpoint_test_cases (endpoint : Endpoint) : result (list TestCase.t) :=
  test_cases <-
    match find_success (responses endpoint) with
    | Some (status_code, success_response) =>
        if truthy (JDict success_response) then
          test_case <- success_case endpoint status_code success_response ;;
          Ok [test_case]
        else Ok []
    | None => Ok []
    end ;;
  error_loop endpoint (responses endpoint) test_cases.

(** *** [OpenAPIParser.resolve_refs] *)

(** [for part in path_parts: resolved = resolved[part]] *)
Fixpoint walk (path_parts : list string) (resolved : json) : result json :=
  match path_parts with
  | [] => Ok resolved
  | part :: rest => next <- getitem resolved part ;; walk rest next
  end.

(** What [resolve_ref] does with a dictionary that has a ["$ref"] key. *)
Definition follow_ref (obj ref_path spec_root : json) : result json :=
  match ref_path with
  | JStr ref_path =>
      if startswith ref_path "#" then
        walk (split (drop_chars 2 ref_path) "/") spec_root
      else Ok obj
  | _ => Raise AttributeError
  end.

Fixpoint resolve_ref (obj spec_root : json) : result json :=
  match obj with
  | JDict entries =>
      match dict_lookup "$ref" entries with
      | Some ref_path => follow_ref obj ref_path spec_root
      | None =>
          resolved <- map_values (fun v => resolve_ref v spec_root) entries ;;
          Ok (JDict resolved)
      end
  | JList items =>
      resolved <- map_result (fun item => resolve_ref item spec_root) items ;;
      Ok (JList resolved)
  | _ => Ok obj
  end.

Definition resolve_refs (spec : json) : result json := resolve_ref spec spec.

(** *** [OpenAPIParser._fetch_from_git] *)







(** *** [OpenAPIParser.validate_spec] *)

(** [for field in required_fields: if field not in spec: raise ValueError] *)
Fixpoint check_required (required_fields : list string) (spec : dict json)
    : result unit :=
  match required_fields with
  | [] => Ok tt
  | field :: rest =>
      match dict_lookup field spec with
      | None => Raise (ValueError ("Missing required field: " +:+ field))
      | Some _ => check_required rest spec
      end
  end.

Definition validate_spec (spec : dict json) : result bool :=
  _ <- check_required ["openapi"; "info"; "paths"] spec ;;
  openapi_version <- get (JDict spec) "openapi" (JStr "") ;;
  match openapi_version with
  | JStr version =>
      if negb (startswith version "3.") then
        Raise (ValueError ("Unsupported OpenAPI version: " +:+ version))
      else
        info <- get (JDict spec) "info" (JDict []) ;;
        has_title <- contains info "title" ;;
        if negb has_title then
          Raise (ValueError "Missing required 'title' in info section")
        else Ok true
  | _ => Raise AttributeError
  end.

End Parser.

(** ** parser.py, continued: [OpenAPIParser.parse_endpoints] *)
Module RawEndpoint.
(** An [Endpoint] as [parse_endpoints] builds it: [path] and [method] are
    strings, the other fields hold whatever the operation has under the key,
    [None] or the default of the [get] when it has nothing. *)
Record t : Type := {
  path : string;
  method : string;
  operation_id : Py.json;
  summary : Py.json;
  description : Py.json;
  parameters : Py.json;
  request_body : Py.json;
  responses : Py.json;
  tags : Py.json;
  security : Py.json
}.
End RawEndpoint.

Module Parsing.
Import Py.

Definition http_verbs : list string :=
  ["get"; "post"; "put"; "patch"; "delete"; "head"; "options"].

(** [method.lower() in ['get', ...]] *)
Definition is_http_verb (method : string) : bool :=
  existsb (String.eqb (lower method)) http_verbs.

(** [Endpoint(path=path, method=method.upper(), ...)] *)
Definition make_endpoint (path method : string) (operation : json)
    : result RawEndpoint.t :=
  operation_id <- get operation "operationId" JNone ;;
  summary <- get operation "summary" JNone ;;
  description <- get operation "description" JNone ;;
  parameters <- get operation "parameters" (JList []) ;;
  request_body <- get operation "requestBody" JNone ;;
  responses <- get operation "responses" (JDict []) ;;
  tags <- get operation "tags" (JList []) ;;
  security <- get operation "security" (JList []) ;;
  Ok {| RawEndpoint.path := path;
        RawEndpoint.method := upper method;
        RawEndpoint.operation_id := operation_id;
        RawEndpoint.summary := summary;
        RawEndpoint.description := description;
        RawEndpoint.parameters := parameters;
        RawEndpoint.request_body := request_body;
        RawEndpoint.responses := responses;
        RawEndpoint.tags := tags;
        RawEndpoint.security := security |}.

(** [for method, operation in path_item.items()] *)
Fixpoint operations_loop (path : string) (operations : list (string * json))
    (endpoints : list RawEndpoint.t) : result (list RawEndpoint.t) :=
  match operations with
  | [] => Ok endpoints
  | (method, operation) :: rest =>
      if is_http_verb method then
        endpoint <- make_endpoint path method operation ;;
        operations_loop path rest (endpoints ++ [endpoint])%list
      else operations_loop path rest endpoints
  end.

(** [for path, path_item in paths.items()] *)
Fixpoint paths_loop (paths : list (string * json)) (endpoints : list RawEndpoint.t)
    : result (list RawEndpoint.t) :=
  match paths with
  | [] => Ok endpoints
  | (path, path_item) :: rest =>
      operations <- items path_item ;;
      endpoints' <- operations_loop path operations endpoints ;;
      paths_loop rest endpoints'
  end.

Definition parse_endpoints (spec : dict json) : result (list RawEndpoint.t) :=
  paths <- get (JDict spec) "paths" (JDict []) ;;
  entries <- items paths ;;
  paths_loop entries [].
End Parsing.

(** ** templates.py *)
Module Templates.
Import Py.

(** [v == s] for a string literal [s]. *)
Definition is_str (v : json) (s : string) : bool :=
  match v with
  | JStr t => String.eqb t s
  | _ => false
  end.

(** [field_name.lower() in names] *)
Definition lower_in (field_name : string) (names : list string) : bool :=
  existsb (String.eqb (lower field_name)) names.

(** The literal chosen for a field of type ["string"]. *)
Definition string_default (field_name : string) : json :=
  if lower_in field_name ["email"; "e-mail"] then JStr "test@example.com"
  else if lower_in field_name ["name"; "title"] then JStr ("Test " +:+ title field_name)
  else if lower_in field_name ["id"; "uuid"] then JStr "test-id-123"
  else JStr ("test_" +:+ field_name).

(** The [for field_name, field_schema in properties.items()] loop;
    [recurse] is [self._generate_test_data]. *)
Definition fields_loop (recurse : json -> result (dict json))
    : list (string * json) -> dict json -> result (dict json) :=
  fix loop (fields : list (string * json)) (test_data : dict json) :=
    match fields with
    | [] => Ok test_data
    | (field_name, field_schema) :: rest =>
        field_type <- get field_schema "type" (JStr "string") ;;
        if is_str field_type "string" then
          loop rest (dict_set field_name (string_default field_name) test_data)
        else if is_str field_type "integer" then
          loop rest (dict_set field_name (JInt 42) test_data)
        else if is_str field_type "number" then
          loop rest (dict_set field_name (JFloat 42%float) test_data)
        else if is_str field_type "boolean" then
          loop rest (dict_set field_name (JBool true) test_data)
        else if is_str field_type "array" then
          loop rest (dict_set field_name (JList [JStr "item1"; JStr "item2"]) test_data)
        else if is_str field_type "object" then
          nested <- recurse field_schema ;;
          loop rest (dict_set field_name (JDict nested) test_data)
        else loop rest test_data
    end.

(** [TemplateEngine._generate_test_data].  The recursion is on the schema:
    [schema.get('properties', {})] is searched in place so that the call on
    a field's schema is a call on a part of the argument.  The unused
    [required_fields = schema.get('required', [])] cannot fail and is left
    out. *)
Fixpoint _generate_test_data (schema : json) : result (dict json) :=
  if negb (truthy schema) then Ok []
  else
    match schema with
    | JDict entries =>
        (fix properties_of (items : list (string * json)) : result (dict json) :=
           match items with
           | [] => fields_loop _generate_test_data [] []
           | (k, properties) :: rest =>
               if String.eqb k "properties" then
                 match properties with
                 | JDict fields => fields_loop _generate_test_data fields []
                 | _ => Raise AttributeError
                 end
               else properties_of rest
           end) entries
    | _ => Raise AttributeError
    end.

(** *** [TemplateEngine._to_camel_case] *)
Definition _to_camel_case (text : string) : string :=
  match split text "_" with
  | [] => ""
  | first :: others => first +:+ String.concat "" (map title others)
  end.

(** *** [TemplateEngine._extract_path_params]
    [re.findall(r'\{([^}]+)\}', path)], read from left to right: after a "{"
    the characters up to the next "}" are the parameter, which is kept when
    it is not empty; an opening brace inside a parameter is part of it, and a
    "{" that no "}" follows gives nothing.  [inside] holds the characters
    read since the "{". *)
Fixpoint scan_params (inside : option string) (path : string) : list string :=
  match path with
  | EmptyString => []
  | String c rest =>
      match inside with
      | None =>
          if Ascii.eqb c "{" then scan_params (Some "") rest
          else scan_params None rest
      | Some name =>
          if Ascii.eqb c "}" then
            if String.eqb name "" then scan_params None rest
            else name :: scan_params None rest
          else scan_params (Some (name +:+ String c "")) rest
      end
  end.

Definition _extract_path_params (path : string) : list string :=
  scan_params None path.

(** *** [TemplateEngine._to_snake_case] *)

(** [re.sub('(.)([A-Z][a-z]+)', r'\1_\2', text)]: a character other than a
    newline, followed by a capital and at least one small letter, gets a "_"
    after it; the small letters that follow belong to the same match, and the
    search goes on after them.  [in_run] tells that the small letters of a
    match are being read. *)
Fixpoint sub_word_start (in_run : bool) (text : string) : string :=
  match text with
  | EmptyString => EmptyString
  | String c rest =>
      if in_run && is_lower c then String c (sub_word_start true rest)
      else
        match rest with
        | String u (String l rest') =>
            if negb (Ascii.eqb c "010") && is_upper u && is_lower l then
              String c (String "_" (String u (String l (sub_word_start true rest'))))
            else String c (sub_word_start false rest)
        | _ => String c (sub_word_start false rest)
        end
  end.

(** [re.sub('([a-z0-9])([A-Z])', r'\1_\2', s1)]: a small letter or a digit
    followed by a capital gets a "_" after it; the search goes on after the
    capital. *)
Fixpoint sub_case_change (text : string) : string :=
  match text with
  | EmptyString => EmptyString
  | String c rest =>
      match rest with
      | String u rest' =>
          if (is_lower c || is_digit c) && is_upper u then
            String c (String "_" (String u (sub_case_change rest')))
          else String c (sub_case_change rest)
      | EmptyString => String c EmptyString
      end
  end.

(** The two substitutions look for the letters A to Z and a to z only;
    the final [lower] is the one of ASCII text. *)
Definition _to_snake_case (text : string) : string :=
  lower (sub_case_change (sub_word_start false text)).

(** *** [TemplateEngine.create_endpoint_context] *)

(** The dictionary the function returns, as a record of its eight keys. *)
Record endpoint_context : Type := {
  endpoint : Parser.Endpoint;
  api : json;
  target_api : json;
  path_params : list string;
  has_request_body : bool;
  has_parameters : bool;
  success_responses : dict (dict json);
  error_responses : dict (dict json)
}.

Definition create_endpoint_context (ep : Parser.Endpoint) (api_config : dict json)
    : endpoint_context :=
  {| endpoint := ep;
     api := match dict_lookup "api" api_config with Some v => v | None => JDict [] end;
     target_api :=
       match dict_lookup "target_api" api_config with Some v => v | None => JDict [] end;
     path_params := _extract_path_params (Parser.path ep);
     has_request_body :=
       match Parser.request_body ep with Some _ => true | None => false end;
     has_parameters := (0 <? Z.of_nat (length (Parser.parameters ep)))%Z;
     success_responses :=
       List.filter (fun entry => startswith (fst entry) "2") (Parser.responses ep);
     error_responses :=
       List.filter (fun entry => startswith (fst entry) "4" || startswith (fst entry) "5")
         (Parser.responses ep) |}.

End Templates.

(** ** generator.py *)
Module Generator.
Import Py Parser.

(** [ep.path in paths] *)
Definition path_in (paths : list string) (ep : Endpoint) : bool :=
  existsb (String.eqb (path ep)) paths.

(** [TestGenerator._filter_endpoints] *)
Definition _filter_endpoints (endpoints : list Endpoint)
    (exclude include_only : list string) : list Endpoint :=
  match include_only with
  | _ :: _ => List.filter (path_in include_only) endpoints
  | [] =>
      match exclude with
      | _ :: _ => List.filter (fun ep => negb (path_in exclude ep)) endpoints
      | [] => endpoints
      end
  end.

(** *** The grouping of [TestGenerator._generate_template_tests] *)

(** [endpoint.tags or ['default']] *)
Definition tags_or_default (ep : Endpoint) : list string :=
  match tags ep with
  | [] => ["default"]
  | _ => tags ep
  end.

(** [if tag not in endpoints_by_tag: endpoints_by_tag[tag] = []] and then
    [endpoints_by_tag[tag].append(endpoint)] *)
Definition add_to_group (tag : string) (ep : Endpoint)
    (endpoints_by_tag : dict (list Endpoint)) : dict (list Endpoint) :=
  match dict_lookup tag endpoints_by_tag with
  | None => dict_set tag [ep] endpoints_by_tag
  | Some group => dict_set tag (group ++ [ep])%list endpoints_by_tag
  end.

(** [for tag in endpoint.tags or ['default']] *)
Fixpoint tags_loop (ep : Endpoint) (tags : list string)
    (endpoints_by_tag : dict (list Endpoint)) : dict (list Endpoint) :=
  match tags with
  | [] => endpoints_by_tag
  | tag :: rest => tags_loop ep rest (add_to_group tag ep endpoints_by_tag)
  end.

(** [for endpoint in endpoints] *)
Fixpoint group_loop (endpoints : list Endpoint)
    (endpoints_by_tag : dict (list Endpoint)) : dict (list Endpoint) :=
  match endpoints with
  | [] => endpoints_by_tag
  | ep :: rest => group_loop rest (tags_loop ep (tags_or_default ep) endpoints_by_tag)
  end.

Definition group_by_tag (endpoints : list Endpoint) : dict (list Endpoint) :=
  group_loop endpoints [].

(** [f"{template_name}_{self.template_engine._to_snake_case(tag)}.bats"] *)
Definition test_file_name (template_name tag : string) : string :=
  template_name +:+ "_" +:+ Templates._to_snake_case tag +:+ ".bats".

(** The names of the files one template gives, in the order they are
    written: one per group. *)
Definition template_test_files (template_name : string) (endpoints : list Endpoint)
    : list string :=
  map (fun group => test_file_name template_name (fst group)) (group_by_tag endpoints).

End Generator.

(** ** executor.py *)
Module TestResult.
(** [@dataclass class TestResult] *)
Record t : Type := {
  test_file : string;
  success : bool;
  output : string;
  duration : float;
  exit_code : Z;
  error_message : option string
}.
End TestResult.

Module ExecutionResults.
(** [@dataclass class ExecutionResults] *)
Record t : Type := {
  total_tests : Z;
  passed_tests : Z;
  failed_tests : Z;
  total_duration : float;
  results : list TestResult.t;
  success : bool
}.
End ExecutionResults.

Module Executor.
Import Py.

(** *** Paths and the directory tree *)

(** A [pathlib.Path] by its parts. *)
Abbreviation Path := (list string).

(** [str(p)]: the parts joined by "/", after the root when there is one; the
    path without parts is the current directory, ".". *)
Definition path_str (p : Path) : string :=
  match p with
  | [] => "."
  | "/" :: rest => "/" +:+ String.concat "/" rest
  | _ => String.concat "/" p
  end.

(** [p.parent]: the root is its own parent. *)
Definition parent (p : Path) : Path :=
  match p with
  | ["/"] => p
  | _ => removelast p
  end.

(** What is on disk at a path: a file, or a directory with its entries in
    the order the system lists them. *)
Inductive fsnode : Type :=
| File
| Dir (children : list (string * fsnode)).

(** The names in one directory that match ["*.bats"]. *)
Definition bats_names (children : list (string * fsnode)) : list string :=
  map fst (List.filter (fun entry => endswith (fst entry) ".bats") children).

(** [output_dir.glob('*.bats')]: the matching entries of the directory itself. *)
Definition glob_star (output_dir : Path) (node : fsnode) : list Path :=
  match node with
  | File => []
  | Dir children => map (fun n => (output_dir ++ [n])%list) (bats_names children)
  end.

(** [output_dir.glob('**/*.bats')]: ["**"] stands for the directory itself
    and every directory below it, and in each of them ["*.bats"] is matched. *)
Fixpoint glob_rec (dir : Path) (node : fsnode) : list Path :=
  match node with
  | File => []
  | Dir children =>
      (map (fun n => (dir ++ [n])%list) (bats_names children)
      ++ (fix below (entries : list (string * fsnode)) : list Path :=
            match entries with
            | [] => []
            | (n, sub) :: rest => (glob_rec (dir ++ [n]) sub ++ below rest)%list
            end) children)%list
  end.

(** The order of paths: the lists of parts compared part by part. *)
Fixpoint path_compare (p q : Path) : comparison :=
  match p, q with
  | [], [] => Eq
  | [], _ :: _ => Lt
  | _ :: _, [] => Gt
  | a :: p', b :: q' =>
      match String.compare a b with
      | Eq => path_compare p' q'
      | c => c
      end
  end.

Definition path_leb (p q : Path) : bool :=
  match path_compare p q with Gt => false | _ => true end.

(** [sorted]: a stable sort. *)
Fixpoint insert_path (p : Path) (l : list Path) : list Path :=
  match l with
  | [] => [p]
  | q :: rest => if path_leb p q then p :: l else q :: insert_path p rest
  end.

Definition sorted (l : list Path) : list Path := foldr insert_path [] l.

(** [TestExecutor._find_test_files]; [tree] is what the disk has at
    [output_dir], [None] when nothing exists there. *)
Definition _find_test_files (output_dir : Path) (tree : option fsnode) : list Path :=
  let test_files :=
    match tree with
    | Some node => ([] ++ glob_star output_dir node ++ glob_rec output_dir node)%list
    | None => []
    end in
  sorted test_files.

(** *** Running one artifact *)

(** The exceptions a sub-process call or a worker can end with, each with the
    text [str(e)] gives. *)
Inductive exc : Type :=
| TimeoutExpired (text : string)
| FileNotFound (text : string)
| CalledProcessError (text : string)
| RuntimeError (text : string)
| OtherException (text : string).

Definition exc_text (e : exc) : string :=
  match e with
  | TimeoutExpired t | FileNotFound t | CalledProcessError t
  | RuntimeError t | OtherException t => t
  end.

(** How a [subprocess.run] call ends. *)
Inductive proc_outcome : Type :=
| Completed (returncode : Z) (stdout stderr : string)
| Failed (e : exc).

(** What the outside does while one artifact is handled: the outcome of
    [bats --version], the outcome of [bats <file>] under the timeout, the
    two readings of the clock, and the exception in which
    [_print_test_result] ends on the result of the run when the caller
    prints it and the console refuses the line (the line starts with a
    check mark or a cross, which a console whose encoding has neither
    refuses with a [UnicodeEncodeError]); [None] when the line is
    written. *)
Record run_env : Type := {
  bats_version : proc_outcome;
  bats_run : proc_outcome;
  time_start : float;
  time_end : float;
  print_fault : option exc
}.

(** What a run does that can be observed besides its result: the
    sub-processes it starts and what it prints.  Printing a command line
    is taken to succeed. *)
Inductive event : Type :=
| Spawn (cmd : list string) (timeout : option Z) (cwd : option (list string))
| Print (text : string)
| PrintResult (r : TestResult.t).

(** [TestExecutor._check_bats_available] *)
Definition _check_bats_available (env : run_env) : (exc + bool) * list event :=
  (match bats_version env with
   | Completed returncode _ _ => inr (returncode =? 0)%Z
   | Failed (CalledProcessError _) | Failed (FileNotFound _) => inr false
   | Failed e => inl e
   end,
   [Spawn ["bats"; "--version"] None None]).

(** The body of the [try] in [_run_single_test]. *)
Definition run_body (test_file : Path) (timeout : Z) (verbose : bool)
    (env : run_env) : (exc + TestResult.t) * list event :=
  let '(available, checked) := _check_bats_available env in
  match available with
  | inl e => (inl e, checked)
  | inr false =>
      (inl (RuntimeError "BATS is not installed or not available in PATH"), checked)
  | inr true =>
      let cmd := ["bats"; path_str test_file] in
      let events :=
        (checked
         ++ (if verbose then [Print ("Running: " +:+ String.concat " " cmd)] else [])
         ++ [Spawn cmd (Some timeout) (Some (parent test_file))])%list in
      match bats_run env with
      | Completed returncode stdout stderr =>
          (inr {| TestResult.test_file := path_str test_file;
                  TestResult.success := (returncode =? 0)%Z;
                  TestResult.output := stdout;
                  TestResult.duration := PrimFloat.sub (time_end env) (time_start env);
                  TestResult.exit_code := returncode;
                  TestResult.error_message :=
                    if (returncode =? 0)%Z then None else Some stderr |},
           events)
      | Failed e => (inl e, events)
      end
  end.

(** [TestExecutor._run_single_test] *)
Definition _run_single_test (test_file : Path) (timeout : Z) (verbose : bool)
    (env : run_env) : TestResult.t * list event :=
  let '(body, events) := run_body test_file timeout verbose env in
  (match body with
   | inr result => result
   | inl (TimeoutExpired _) =>
       {| TestResult.test_file := path_str test_file;
          TestResult.success := false;
          TestResult.output := "";
          TestResult.duration := PrimFloat.sub (time_end env) (time_start env);
          TestResult.exit_code := 1;
          TestResult.error_message :=
            Some ("Test timed out after " +:+ str_of_Z timeout +:+ " seconds") |}
   | inl e =>
       {| TestResult.test_file := path_str test_file;
          TestResult.success := false;
          TestResult.output := "";
          TestResult.duration := PrimFloat.sub (time_end env) (time_start env);
          TestResult.exit_code := 1;
          TestResult.error_message := Some (exc_text e) |}
   end,
   events).

(** *** Sequential mode *)

(** The loop of [_run_sequential_tests]; [envs i] is the outside while the
    artifact at position [i] is handled.  An exception of
    [_print_test_result] is not handled here: it ends the loop, and the
    function, before the remaining artifacts are run. *)
Fixpoint sequential_loop (envs : nat -> run_env) (i : nat) (test_files : list Path)
    (timeout : Z) (verbose : bool) (results : list TestResult.t)
    (events : list event) : exc + (list TestResult.t * list event) :=
  match test_files with
  | [] => inr (results, events)
  | test_file :: rest =>
      let '(result, ran) := _run_single_test test_file timeout verbose (envs i) in
      if verbose then
        match print_fault (envs i) with
        | Some e => inl e
        | None =>
            sequential_loop envs (S i) rest timeout verbose (results ++ [result])%list
              (events ++ ran ++ [PrintResult result])%list
        end
      else
        sequential_loop envs (S i) rest timeout verbose (results ++ [result])%list
          (events ++ ran)%list
  end.

(** [TestExecutor._run_sequential_tests] *)
Definition _run_sequential_tests (envs : nat -> run_env) (test_files : list Path)
    (timeout : Z) (verbose : bool) : exc + (list TestResult.t * list event) :=
  sequential_loop envs 0 test_files timeout verbose [] [].

(** *** Bounded-parallel mode *)

(** What [future.result()] gives: the value the worker returned or the
    exception it ended with. *)
Inductive future_outcome : Type :=
| Returned (r : TestResult.t)
| Raised (e : exc).

(** The outside during one unit of work: the run itself, and an exception
    that ends the unit outside the handlers of [_run_single_test], when there
    is one. *)
Record worker_env : Type := {
  run : run_env;
  fault : option exc
}.

(** [executor.submit(self._run_single_test, test_file, timeout, verbose)] *)
Definition submit (test_file : Path) (timeout : Z) (verbose : bool)
    (w : worker_env) : future_outcome :=
  match fault w with
  | Some e => Raised e
  | None => Returned (fst (_run_single_test test_file timeout verbose (run w)))
  end.

(** [future_to_test]: one future per submitted file, each with its file. *)
Definition submit_all (workers : nat -> worker_env) (test_files : list Path)
    (timeout : Z) (verbose : bool) : list (future_outcome * Path) :=
  imap (fun i test_file => (submit test_file timeout verbose (workers i), test_file))
    test_files.

(** The [TestResult] built in the [except Exception as e] of the loop. *)
Definition error_result (test_file : Path) (e : exc) : TestResult.t :=
  {| TestResult.test_file := path_str test_file;
     TestResult.success := false;
     TestResult.output := "";
     TestResult.duration := 0%float;
     TestResult.exit_code := 1;
     TestResult.error_message := Some (exc_text e) |}.

(** The body of [for future in as_completed(future_to_test)].  The [try]
    holds [future.result()], [results.append(result)] and, in verbose mode,
    [_print_test_result(result)], in this order: when the print raises, the
    result is in the list already and the handler appends an error result
    for the same file. *)
Definition collect (future : future_outcome * Path) (printed : option exc)
    (verbose : bool) (results : list TestResult.t) (events : list event)
    : list TestResult.t * list event :=
  match fst future with
  | Returned result =>
      if verbose then
        match printed with
        | None => ((results ++ [result])%list, (events ++ [PrintResult result])%list)
        | Some e =>
            ((results ++ [result; error_result (snd future) e])%list, events)
        end
      else ((results ++ [result])%list, events)
  | Raised e => ((results ++ [error_result (snd future) e])%list, events)
  end.

(** [as_completed] hands out the futures in the order [completion], given as
    positions in the submission order. *)
Fixpoint collect_loop (workers : nat -> worker_env)
    (futures : list (future_outcome * Path)) (completion : list nat)
    (verbose : bool) (results : list TestResult.t) (events : list event)
    : list TestResult.t * list event :=
  match completion with
  | [] => (results, events)
  | i :: rest =>
      match futures !! i with
      | Some future =>
          let '(results', events') :=
            collect future (print_fault (run (workers i))) verbose results events in
          collect_loop workers futures rest verbose results' events'
      | None => collect_loop workers futures rest verbose results events
      end
  end.

(** [TestExecutor._run_parallel_tests]; the pool refuses a bound below 1. *)
Definition _run_parallel_tests (workers : nat -> worker_env) (completion : list nat)
    (test_files : list Path) (max_parallel : Z) (timeout : Z) (verbose : bool)
    : result (list TestResult.t * list event) :=
  if (max_parallel <=? 0)%Z then
    Raise (ValueError "max_workers must be greater than 0")
  else
    Ok (collect_loop workers (submit_all workers test_files timeout verbose) completion
          verbose [] []).

(** *** The summary of [run_tests] *)

(** [sum(1 for r in results if r.success)] *)
Fixpoint count_passed (results : list TestResult.t) : Z :=
  match results with
  | [] => 0
  | r :: rest =>
      if TestResult.success r then 1 + count_passed rest else count_passed rest
  end.

(** The end of [TestExecutor.run_tests]: from the results of the selected
    mode and the elapsed time to the [ExecutionResults]. *)
Definition run_tests_summary (results : list TestResult.t)
    (total_duration : float) : ExecutionResults.t :=
  let passed_tests := count_passed results in
  let failed_tests := Z.of_nat (length results) - passed_tests in
  {| ExecutionResults.total_tests := Z.of_nat (length results);
     ExecutionResults.passed_tests := passed_tests;
     ExecutionResults.failed_tests := failed_tests;
     ExecutionResults.total_duration := total_duration;
     ExecutionResults.results := results;
     ExecutionResults.success := (failed_tests =? 0)%Z |}.

(** *** [TestExecutor._setup_environment] *)

Module AuthConfig.
(** The [auth] dictionary of [target_api], with the keys the function reads;
    an absent key is [None]. *)
Record t : Type := {
  type : option string;
  token : option string;
  username : option string;
  password : option string;
  api_key : option string;
  api_key_header : option string
}.
End AuthConfig.

Module TargetApi.
(** The [target_api] dictionary, with the keys the function reads and the
    types the configuration schema gives them; the empty dictionary is the
    record of [None]s. *)
Record t : Type := {
  base_url : option string;
  auth : option AuthConfig.t;
  timeout : option Z;
  retries : option Z
}.
End TargetApi.

(** [os.environ[name] = value] for a name of the sources: the value is
    refused when it holds a NUL character. *)
Definition has_nul (s : string) : bool :=
  existsb (Ascii.eqb "000") (list_ascii_of_string s).

Definition setenv (name value : string) (environ : dict string)
    : result (dict string) :=
  if has_nul value then Raise (ValueError "embedded null byte")
  else Ok (dict_set name value environ).

(** [if value: os.environ[name] = value], [value] being [d.get(key)]. *)
Definition export_if_set (name : string) (value : option string)
    (environ : dict string) : result (dict string) :=
  match value with
  | Some v => if truthy (JStr v) then setenv name v environ else Ok environ
  | None => Ok environ
  end.

(** The [if auth:] block; an [auth] without keys sets nothing either way. *)
Definition export_auth (auth : AuthConfig.t) (environ : dict string)
    : result (dict string) :=
  let is_type (name : string) :=
    match AuthConfig.type auth with Some t => String.eqb t name | None => false end in
  let has_token :=
    match AuthConfig.token auth with Some t => truthy (JStr t) | None => false end in
  if is_type "bearer" && has_token then
    export_if_set "AUTH_TOKEN" (AuthConfig.token auth) environ
  else if is_type "basic" then
    with_username <- export_if_set "AUTH_USERNAME" (AuthConfig.username auth) environ ;;
    export_if_set "AUTH_PASSWORD" (AuthConfig.password auth) with_username
  else if is_type "api_key" then
    with_key <- export_if_set "API_KEY" (AuthConfig.api_key auth) environ ;;
    export_if_set "API_KEY_HEADER" (AuthConfig.api_key_header auth) with_key
  else Ok environ.

(** [environ] is [os.environ] before the call, the result [os.environ] after
    it.  When an assignment raises, the function ends there. *)
Definition _setup_environment (target_api : TargetApi.t) (environ : dict string)
    : result (dict string) :=
  with_url <-
    setenv "API_BASE_URL"
      (match TargetApi.base_url target_api with Some u => u | None => "" end)
      environ ;;
  with_auth <-
    match TargetApi.auth target_api with
    | Some auth => export_auth auth with_url
    | None => Ok with_url
    end ;;
  with_timeout <-
    setenv "TIMEOUT"
      (str_of_Z (match TargetApi.timeout target_api with Some t => t | None => 30 end))
      with_auth ;;
  setenv "MAX_RETRIES"
    (str_of_Z (match TargetApi.retries target_api with Some r => r | None => 3 end))
    with_timeout.

(** *** [TestExecutor._run_docker_tests] *)

(** The [docker] dictionary: [enabled] and [compose_file]. *)
Record docker_config : Type := {
  enabled : option bool;
  compose_file : option string
}.

(** What the outside does during the call: whether the compose file is
    there, how its generation ends when it is not, and how the
    [docker-compose] process ends. *)
Record docker_env : Type := {
  compose_exists : bool;
  generate_compose : result unit;
  compose_run : proc_outcome
}.

Definition docker_result (success : bool) (output : string) (exit_code : Z)
    (error_message : option string) : TestResult.t :=
  {| TestResult.test_file := "docker-compose";
     TestResult.success := success;
     TestResult.output := output;
     TestResult.duration := 0%float;
     TestResult.exit_code := exit_code;
     TestResult.error_message := error_message |}.

Definition _run_docker_tests (env : docker_env) (docker : docker_config)
    (timeout : Z) (test_files : list Path) (verbose : bool)
    : result (list TestResult.t * list event) :=
  if negb (match enabled docker with Some b => b | None => false end) then
    Raise (ValueError "Docker is not enabled in configuration")
  else
    let compose :=
      match compose_file docker with Some f => f | None => "docker-compose.yml" end in
    _ <- (if compose_exists env then Ok tt else generate_compose env) ;;
    let cmd :=
      ["docker-compose"; "-f"; compose; "up"; "--build"; "--abort-on-container-exit"] in
    let events :=
      ((if verbose
        then [Print ("Running Docker command: " +:+ String.concat " " cmd)]
        else [])
       ++ [Spawn cmd (Some timeout) None])%list in
    Ok (match compose_run env with
        | Completed returncode stdout stderr =>
            [docker_result (returncode =? 0)%Z stdout returncode
               (if (returncode =? 0)%Z then None else Some stderr)]
        | Failed (TimeoutExpired _) =>
            [docker_result false "" 1 (Some "Docker execution timed out")]
        | Failed e => [docker_result false "" 1 (Some (exc_text e))]
        end,
        events).

(** *** [TestExecutor.run_tests] *)

(** The parts of the configuration [run_tests] reads: [output_dir] of
    [test_generation], already a path, [max_parallel] and [timeout] of
    [execution], the [target_api] and [docker] dictionaries. *)
Record run_config : Type := {
  output_dir : option (list string);
  max_parallel : option Z;
  execution_timeout : option Z;
  target_api : TargetApi.t;
  docker : docker_config
}.

(** The outside during one call of [run_tests]. *)
Record world : Type := {
  tree : option fsnode;
  environ : dict string;
  runs : nat -> run_env;
  faults : nat -> option exc;
  completion : list nat;
  containers : docker_env;
  clock_start : float;
  clock_end : float
}.

(** What [run_tests] leaves behind besides its value. *)
Record effects : Type := {
  environ_after : dict string;
  events : list event
}.

(** An exception of a sub-process call or of the console that leaves
    [run_tests]. *)
Definition escaped (e : exc) : exn :=
  match e with
  | FileNotFound text => FileNotFoundError text
  | _ => OtherError (exc_text e)
  end.

Definition run_tests (w : world) (config : run_config)
    (docker_mode parallel verbose : bool) : result (ExecutionResults.t * effects) :=
  let dir :=
    match output_dir config with Some d => d | None => ["generated"; "tests"] end in
  let workers_limit := match max_parallel config with Some n => n | None => 4 end in
  let timeout := match execution_timeout config with Some t => t | None => 300 end in
  let test_files := _find_test_files dir (tree w) in
  match test_files with
  | [] => Raise (ValueError ("No test files found in " +:+ path_str dir))
  | _ :: _ =>
      environ' <- _setup_environment (target_api config) (environ w) ;;
      ran <-
        (if docker_mode then
           _run_docker_tests (containers w) (docker config) timeout test_files verbose
         else if parallel then
           _run_parallel_tests
             (fun i => {| run := runs w i; fault := faults w i |})
             (completion w) test_files workers_limit timeout verbose
         else
           match _run_sequential_tests (runs w) test_files timeout verbose with
           | inr ran => Ok ran
           | inl e => Raise (escaped e)
           end) ;;
      Ok (run_tests_summary (fst ran) (PrimFloat.sub (clock_end w) (clock_start w)),
          {| environ_after := environ'; events := snd ran |})
  end.

End Executor.

(** ** config.py *)
Module Config.
Import Py.

(** [ConfigManager._merge_configs]: [merged] starts as a copy of the base
    and takes the entries of the environment one by one; two mappings under
    the same key are merged in turn.  The recursion is on the environment
    configuration, held as a value so that the mapping under a key is a part
    of it. *)
Fixpoint merge_into (base_config : dict json) (env_config : json) {struct env_config}
    : dict json :=
  match env_config with
  | JDict entries =>
      (fix loop (entries : list (string * json)) (merged : dict json) : dict json :=
         match entries with
         | [] => merged
         | (key, value) :: rest =>
             match dict_lookup key merged, value with
             | Some (JDict under), JDict _ =>
                 loop rest (dict_set key (JDict (merge_into under value)) merged)
             | _, _ => loop rest (dict_set key value merged)
             end
         end) entries base_config
  | _ => base_config
  end.

Definition _merge_configs (base_config env_config : dict json) : dict json :=
  merge_into base_config (JDict env_config).

(** [process_value] of [ConfigManager._process_env_variables]; [getenv] is
    [os.getenv] without a default. *)
Fixpoint process_value (getenv : string -> option string) (value : json) : json :=
  match value with
  | JStr s =>
      if startswith s "${" && endswith s "}" then
        match getenv (drop_last_chars 1 (drop_chars 2 s)) with
        | Some v => JStr v
        | None => value
        end
      else value
  | JDict entries =>
      JDict (map (fun entry => (fst entry, process_value getenv (snd entry))) entries)
  | JList items => JList (map (process_value getenv) items)
  | _ => value
  end.

Definition _process_env_variables (getenv : string -> option string)
    (config : dict json) : json :=
  process_value getenv (JDict config).

End Config.

(** ** validation.py *)
Module Validation.
Import Py.

(** The loop of [SchemaValidator._resolve_schema_ref]:
    [if part not in schema: raise ValueError(...)] and then
    [schema = schema[part]]. *)
Fixpoint navigate (schema_ref : string) (path_parts : list string) (schema : json)
    : result json :=
  match path_parts with
  | [] => Ok schema
  | part :: rest =>
      present <- contains schema part ;;
      if negb present then
        Raise (ValueError ("Schema reference not found: " +:+ schema_ref))
      else
        next <- getitem schema part ;;
        navigate schema_ref rest next
  end.

(** [SchemaValidator._resolve_schema_ref] *)
Definition _resolve_schema_ref (schema_ref : string) (openapi_spec : json)
    : result json :=
  if negb (startswith schema_ref "#/") then
    Raise (ValueError ("Invalid schema reference: " +:+ schema_ref))
  else navigate schema_ref (split (drop_chars 2 schema_ref) "/") openapi_spec.

(** [ContractValidator._endpoint_exists_in_spec] *)
Definition _endpoint_exists_in_spec (path method : string) (spec : json)
    : result bool :=
  paths <- get spec "paths" (JDict []) ;;
  present <- contains paths path ;;
  if negb present then Ok false
  else
    path_item <- getitem paths path ;;
    contains path_item (lower method).

End Validation.

(** * What the specification states, in the terms of the embedding *)
Module Spec.
Import Py.

(** ** Test-case derivation *)




(** The keys from which a case is derived. *)
Definition is_success_code (status_code : string) : bool := startswith status_code "2".


(** The first entry, in iteration order, whose key starts with "2". *)
Definition first_2xx (responses : dict (dict json)) : option (string * dict json) :=
  head (filter (λ entry, is_success_code entry.1 = true) responses).

(** The entries whose key starts with "4" or "5", in iteration order. *)
Definition error_entries (responses : dict (dict json)) : dict (dict json) :=
  filter (λ entry, Parser.is_error_code entry.1 = true) responses.

Definition success_cases (cases : list TestCase.t) : list TestCase.t :=
  filter (λ c, TestCase.test_type c = "success") cases.

Definition error_cases (cases : list TestCase.t) : list TestCase.t :=
  filter (λ c, TestCase.test_type c = "error") cases.










(** ** Test-data synthesis *)

(** The default of a string field goes by the field's name. *)
Definition name_hint (field_name : string) (v : json) : Prop :=
  (lower field_name ∈ ["email"; "e-mail"] -> v = JStr "test@example.com")
  /\ (lower field_name ∈ ["name"; "title"] -> v = JStr ("Test " +:+ title field_name))
  /\ (lower field_name ∈ ["id"; "uuid"] -> v = JStr "test-id-123")
  /\ (lower field_name ∉ ["email"; "e-mail"; "name"; "title"; "id"; "uuid"] ->
      v = JStr ("test_" +:+ field_name)).

(** The literal for a field by its type; [found] is what the instance has
    under the field's name and [synthesize] the synthesis of a nested
    object. *)
Definition literal_for (synthesize : json -> result (dict json))
    (field_name : string) (field_schema field_type : json) (found : option json) : Prop :=
  (field_type = JStr "string" -> ∃ v, found = Some v /\ name_hint field_name v)
  /\ (field_type = JStr "integer" -> found = Some (JInt 42))
  /\ (field_type = JStr "number" -> found = Some (JFloat 42%float))
  /\ (field_type = JStr "boolean" -> found = Some (JBool true))
  /\ (field_type = JStr "array" -> found = Some (JList [JStr "item1"; JStr "item2"]))
  /\ (field_type = JStr "object" ->
      ∃ nested, synthesize field_schema = Ok nested /\ found = Some (JDict nested)).

(** A schema on which the synthesis meets no value of the wrong kind: it is
    empty or [None]; or it is a mapping without [properties]; or its
    [properties] are a mapping of names to mappings, those of type "object"
    being such schemas themselves. *)
Inductive well_formed : json -> Prop :=
| well_formed_falsy schema :
    truthy schema = false -> well_formed schema
| well_formed_plain entries :
    entries ≠ [] -> dict_lookup "properties" entries = None ->
    well_formed (JDict entries)
| well_formed_properties entries fields :
    dict_lookup "properties" entries = Some (JDict fields) ->
    (∀ n fs, (n, fs) ∈ fields -> ∃ field_entries, fs = JDict field_entries) ->
    (∀ n fs, (n, fs) ∈ fields ->
       get fs "type" (JStr "string") = Ok (JStr "object") -> well_formed fs) ->
    well_formed (JDict entries).

(** ** Reference resolution *)

(** A pointer followed from the document root through mappings; [None] as
    soon as a segment is absent. *)
Fixpoint pointer_lookup (segments : list string) (at_ : json) : option json :=
  match segments with
  | [] => Some at_
  | segment :: rest =>
      match at_ with
      | JDict entries =>
          match dict_lookup segment entries with
          | Some next => pointer_lookup rest next
          | None => None
          end
      | _ => None
      end
  end.

(** The objects the traversal of [resolve_ref] reaches inside a document:
    the document, the values of a mapping that is not itself a reference,
    and the items of a sequence. *)
Inductive reached (doc : json) : json -> Prop :=
| reached_here : reached doc doc
| reached_value entries k v :
    reached doc (JDict entries) -> dict_lookup "$ref" entries = None ->
    (k, v) ∈ entries -> reached doc v
| reached_item items v :
    reached doc (JList items) -> v ∈ items -> reached doc v.

(** ** Repository fetch *)



(** ** Execution *)

(** The result recorded for an artifact whose run timed out. *)
Definition timed_out_result (test_file : Executor.Path) (timeout : Z)
    (elapsed : float) : TestResult.t :=
  {| TestResult.test_file := Executor.path_str test_file;
     TestResult.success := false;
     TestResult.output := "";
     TestResult.duration := elapsed;
     TestResult.exit_code := 1;
     TestResult.error_message :=
       Some ("Test timed out after " +:+ str_of_Z timeout +:+ " seconds") |}.

(** The result that stands for a unit of work whose outcome could not be
    retrieved. *)
Definition errored_result (test_file : Executor.Path) (text : string) : TestResult.t :=
  {| TestResult.test_file := Executor.path_str test_file;
     TestResult.success := false;
     TestResult.output := "";
     TestResult.duration := 0%float;
     TestResult.exit_code := 1;
     TestResult.error_message := Some text |}.

(** The result a unit of work contributes once its future is complete. *)
Definition outcome_result (future : Executor.future_outcome * Executor.Path)
    : TestResult.t :=
  match future.1 with
  | Executor.Returned r => r
  | Executor.Raised e => errored_result future.2 (Executor.exc_text e)
  end.

(** Every result that is printed is written: in verbose mode, for the
    first [n] positions, [_print_test_result] ends without an exception. *)
Definition prints_succeed (verbose : bool) (envs : nat -> Executor.run_env)
    (n : nat) : Prop :=
  verbose = true -> ∀ i, (i < n)%nat -> Executor.print_fault (envs i) = None.

(** What a unit of work adds to the results of the parallel mode: its
    result, followed by an error result for the same file when the result
    was printed and the print raised. *)
Definition contribution (verbose : bool) (printed : option Executor.exc)
    (future : Executor.future_outcome * Executor.Path) : list TestResult.t :=
  match future.1, verbose, printed with
  | Executor.Returned r, true, Some e =>
      [r; errored_result future.2 (Executor.exc_text e)]
  | _, _, _ => [outcome_result future]
  end.

(** The sub-process calls among the events of a run. *)
Definition spawns (events : list Executor.event) : list (list string) :=
  omap (λ ev, match ev with Executor.Spawn cmd _ _ => Some cmd | _ => None end) events.

(** ** Endpoint extraction *)

(** [spec.get('paths', {})] *)
Definition paths_of (spec : dict json) : json :=
  match dict_lookup "paths" spec with
  | Some paths => paths
  | None => JDict []
  end.

(** An endpoint by its path and method. *)
Definition keyed (ep : RawEndpoint.t) : string * string :=
  (RawEndpoint.path ep, RawEndpoint.method ep).

(** The operations a [paths] mapping declares: for every path, in order, its
    keys that are HTTP verbs in any letter case, in order, in capitals. *)
Definition operations_of (paths : list (string * json)) : list (string * string) :=
  concat
    (map (λ entry,
            match entry.2 with
            | JDict operations =>
                map (λ operation, (entry.1, upper operation.1))
                  (filter (λ operation, Parsing.is_http_verb operation.1 = true)
                     operations)
            | _ => []
            end) paths).

(** A [paths] mapping [parse_endpoints] can read: every path item is a
    mapping, and so is what it holds under a key that is an HTTP verb. *)
Definition readable_paths (paths : list (string * json)) : Prop :=
  ∀ path path_item,
    (path, path_item) ∈ paths ->
    ∃ operations,
      path_item = JDict operations
      /\ ∀ method operation,
           (method, operation) ∈ operations -> Parsing.is_http_verb method = true ->
           ∃ fields, operation = JDict fields.

(** ** References *)

(** A ["$ref"] key somewhere in a value. *)
Fixpoint has_ref (v : json) : bool :=
  match v with
  | JDict entries =>
      match dict_lookup "$ref" entries with
      | Some _ => true
      | None => existsb (fun entry => has_ref (snd entry)) entries
      end
  | JList items => existsb has_ref items
  | _ => false
  end.

(** ** Strings *)

(** The character [c] occurs in [s]. *)
Fixpoint has_char (c : ascii) (s : string) : bool :=
  match s with
  | EmptyString => false
  | String d rest => Ascii.eqb d c || has_char c rest
  end.

(** A capital letter occurs in [s]. *)
Fixpoint has_upper (s : string) : bool :=
  match s with
  | EmptyString => false
  | String c rest => is_upper c || has_upper rest
  end.

(** ** Synthesis *)

(** The types for which the synthesis has a literal. *)
Definition has_literal (field_type : json) : bool :=
  Templates.is_str field_type "string" || Templates.is_str field_type "integer"
  || Templates.is_str field_type "number" || Templates.is_str field_type "boolean"
  || Templates.is_str field_type "array" || Templates.is_str field_type "object".

(** ** Grouping *)

(** The endpoints that carry a tag, in order, each once per occurrence of
    the tag in its list of tags. *)
Definition tagged (tag : string) (endpoints : list Parser.Endpoint)
    : list Parser.Endpoint :=
  concat
    (map (λ ep, replicate (length (filter (λ t, t = tag) (Generator.tags_or_default ep)))
                  ep)
       endpoints).

(** A group after more endpoints have been put into it. *)
Definition extended (group : option (list Parser.Endpoint))
    (more : list Parser.Endpoint) : option (list Parser.Endpoint) :=
  match more with
  | [] => group
  | _ :: _ => Some (match group with Some l => l | None => [] end ++ more)%list
  end.

(** ** Discovery *)

(** [holds_bats node rel]: in the directory [node], the relative path [rel]
    leads through directories to an entry whose name ends in ".bats". *)
Inductive holds_bats : Executor.fsnode -> list string -> Prop :=
| holds_here (children : list (string * Executor.fsnode)) (n : string)
    (sub : Executor.fsnode) :
    (n, sub) ∈ children -> endswith n ".bats" = true ->
    holds_bats (Executor.Dir children) [n]
| holds_below (children : list (string * Executor.fsnode)) (d : string)
    (sub : Executor.fsnode) (rel : list string) :
    (d, sub) ∈ children -> holds_bats sub rel ->
    holds_bats (Executor.Dir children) (d :: rel).

(** ** The environment of the runs *)







(** ** The run as a whole *)


(** The output directory [run_tests] reads from the configuration. *)
Definition configured_dir (config : Executor.run_config) : Executor.Path :=
  match Executor.output_dir config with
  | Some d => d
  | None => ["generated"; "tests"]
  end.

End Spec.

(** * Concrete inputs *)
Module Examples.
Import Py.

Definition endpoint_with (responses : dict (dict json)) : Parser.Endpoint :=
  {| Parser.path := "/pets"; Parser.method := "GET"; Parser.operation_id := None;
     Parser.summary := None; Parser.description := None; Parser.parameters := [];
     Parser.request_body := None; Parser.responses := responses;
     Parser.tags := []; Parser.security := [] |}.

(** One 2xx and one 4xx response. *)
Definition pets_ok : Parser.Endpoint :=
  endpoint_with [("200", [("description", JStr "a list of pets")]);
                 ("404", [("description", JStr "no such pet")])].






(** A 2xx response with an empty definition. *)
Definition pets_empty_definition : Parser.Endpoint :=
  endpoint_with [("200", [])].

(** A document with one schema, a reference to it, a reference to a schema
    that is not there, and a reference to another document. *)
Definition petstore : json :=
  JDict [("components",
          JDict [("schemas",
                  JDict [("Pet", JDict [("type", JStr "object")])])])].

Definition ref_to (target : string) : list (string * json) := [("$ref", JStr target)].

Definition petstore_dangling : json :=
  JDict [("paths", JList [JDict (ref_to "#/components/schemas/Missing")]);
         ("components", JDict [("schemas", JDict [])])].

(** [{"type":"object","properties":{"email":{"type":"string"}}}] *)
Definition email_schema : json :=
  JDict [("type", JStr "object");
         ("properties", JDict [("email", JDict [("type", JStr "string")])])].

(** The properties of a schema with a field of every type, one without a
    type, one of a type that has no literal, and a nested object. *)
Definition account_fields : list (string * json) :=
  [("id", JDict [("type", JStr "string")]);
   ("Title", JDict []);
   ("nickname", JDict [("type", JStr "string")]);
   ("age", JDict [("type", JStr "integer")]);
   ("score", JDict [("type", JStr "number")]);
   ("active", JDict [("type", JStr "boolean")]);
   ("labels", JDict [("type", JStr "array")]);
   ("deleted", JDict [("type", JStr "null")]);
   ("owner", JDict [("type", JStr "object");
                    ("properties",
                     JDict [("E-Mail", JDict [("type", JStr "string")])])])].

Definition account_entries : list (string * json) :=
  [("type", JStr "object"); ("required", JList [JStr "id"]);
   ("properties", JDict account_fields)].

Definition account_schema : json := JDict account_entries.

Definition account_instance : list (string * json) :=
  [("id", JStr "test-id-123"); ("Title", JStr "Test Title");
   ("nickname", JStr "test_nickname"); ("age", JInt 42);
   ("score", JFloat 42%float); ("active", JBool true);
   ("labels", JList [JStr "item1"; JStr "item2"]);
   ("owner", JDict [("E-Mail", JStr "test@example.com")])].

(** An output directory with one artifact at its top. *)
Definition one_artifact : Executor.fsnode :=
  Executor.Dir [("basic_default.bats", Executor.File)].


(** The outside during a run that passes, and during one that exceeds the
    timeout. *)
Definition passing_run : Executor.run_env :=
  {| Executor.bats_version := Executor.Completed 0 "Bats 1.10.0" "";
     Executor.bats_run := Executor.Completed 0 "ok 1 GET /pets" "";
     Executor.time_start := 10%float;
     Executor.time_end := 12%float;
     Executor.print_fault := None |}.

Definition slow_run : Executor.run_env :=
  {| Executor.bats_version := Executor.Completed 0 "Bats 1.10.0" "";
     Executor.bats_run :=
       Executor.Failed (Executor.TimeoutExpired "Command timed out after 300 seconds");
     Executor.time_start := 10%float;
     Executor.time_end := 310%float;
     Executor.print_fault := None |}.

(** A console whose encoding has neither the check mark nor the cross:
    printing a result ends in the [UnicodeEncodeError] of the mark. *)
Definition refused (mark : string) : Executor.exc :=
  Executor.OtherException
    ("'ascii' codec can't encode character '\u" +:+ mark
     +:+ "' in position 0: ordinal not in range(128)").

Definition ascii_console : Executor.worker_env :=
  {| Executor.run :=
       {| Executor.bats_version := Executor.Completed 0 "Bats 1.10.0" "";
          Executor.bats_run := Executor.Completed 0 "ok 1 GET /pets" "";
          Executor.time_start := 10%float;
          Executor.time_end := 12%float;
          Executor.print_fault := Some (refused "2713") |};
     Executor.fault := None |}.

(** The first of two runs exceeds the timeout, on such a console. *)
Definition slow_on_ascii_console (i : nat) : Executor.run_env :=
  match i with
  | O =>
      {| Executor.bats_version := Executor.Completed 0 "Bats 1.10.0" "";
         Executor.bats_run :=
           Executor.Failed (Executor.TimeoutExpired "Command timed out after 300 seconds");
         Executor.time_start := 10%float;
         Executor.time_end := 310%float;
         Executor.print_fault := Some (refused "2717") |}
  | _ => Executor.run ascii_console
  end.

(** The second of three runs is the slow one. *)
Definition one_slow (i : nat) : Executor.run_env :=
  match i with
  | 1%nat => slow_run
  | _ => passing_run
  end.

(** Workers of which the second ends outside the handlers of the run. *)
Definition one_faulty (i : nat) : Executor.worker_env :=
  {| Executor.run := one_slow i;
     Executor.fault :=
       match i with
       | 1%nat => Some (Executor.OtherException "cannot schedule new futures")
       | _ => None
       end |}.

Definition three_artifacts : list (list string) :=
  [["out"; "a.bats"]; ["out"; "b.bats"]; ["out"; "c.bats"]].










Definition endpoint_at (p : string) : Parser.Endpoint :=
  {| Parser.path := p; Parser.method := "GET"; Parser.operation_id := None;
     Parser.summary := None; Parser.description := None; Parser.parameters := [];
     Parser.request_body := None; Parser.responses := [];
     Parser.tags := []; Parser.security := [] |}.

(** A minimal valid document, and one whose version is a number. *)
Definition minimal_spec : list (string * json) :=
  [("openapi", JStr "3.0.3");
   ("info", JDict [("title", JStr "Pet store"); ("version", JStr "1.0")]);
   ("paths", JDict [])].

Definition old_spec : list (string * json) :=
  [("openapi", JStr "2.0"); ("info", JDict []); ("paths", JDict [])].

(** Three endpoints: two tagged, one of them twice, and one without tags. *)
Definition tagged_endpoint (p : string) (ts : list string) : Parser.Endpoint :=
  {| Parser.path := p; Parser.method := "GET"; Parser.operation_id := None;
     Parser.summary := None; Parser.description := None; Parser.parameters := [];
     Parser.request_body := None; Parser.responses := [];
     Parser.tags := ts; Parser.security := [] |}.

Definition tagged_endpoints : list Parser.Endpoint :=
  [tagged_endpoint "/pets" ["pets"];
   tagged_endpoint "/health" [];
   tagged_endpoint "/pets/{id}/owner" ["pets"; "owners"]].

(** A document with one path item: two operations, one of them with its
    verb in mixed case, beside the path item's shared [parameters]. *)
Definition two_operations : list (string * json) :=
  [("openapi", JStr "3.0.3");
   ("paths",
    JDict [("/pets",
            JDict [("get", JDict [("operationId", JStr "listPets")]);
                   ("parameters", JList []);
                   ("Post", JDict [("operationId", JStr "addPet")])])])].

(** A machine without the runner: [bats --version] cannot be started. *)
Definition no_bats : Executor.run_env :=
  {| Executor.bats_version :=
       Executor.Failed
         (Executor.FileNotFound "[Errno 2] No such file or directory: 'bats'");
     Executor.bats_run := Executor.Completed 0 "ok 1 health" "";
     Executor.time_start := 10%float;
     Executor.time_end := 10.5%float;
     Executor.print_fault := None |}.

(** A machine on which the runner is there but may not be started. *)
Definition locked_bats : Executor.run_env :=
  {| Executor.bats_version :=
       Executor.Failed (Executor.OtherException "[Errno 13] Permission denied: 'bats'");
     Executor.bats_run := Executor.Completed 0 "ok 1 health" "";
     Executor.time_start := 10%float;
     Executor.time_end := 10.5%float;
     Executor.print_fault := None |}.

(** Workers that all run to their end. *)
Definition sound_workers (i : nat) : Executor.worker_env :=
  {| Executor.run := one_slow i; Executor.fault := None |}.

(** A configuration with Docker enabled, containers whose tests fail, and a
    world that has the three artifacts on disk. *)
Definition docker_on : Executor.docker_config :=
  {| Executor.enabled := Some true; Executor.compose_file := None |}.

Definition failing_containers : Executor.docker_env :=
  {| Executor.compose_exists := true;
     Executor.generate_compose := Ok tt;
     Executor.compose_run := Executor.Completed 1 "not ok 1 GET /pets" "exit 1" |}.

Definition plain_target : Executor.TargetApi.t :=
  {| Executor.TargetApi.base_url := Some "https://api.example.com";
     Executor.TargetApi.auth := None;
     Executor.TargetApi.timeout := None;
     Executor.TargetApi.retries := None |}.


Definition default_config : Executor.run_config :=
  {| Executor.output_dir := None;
     Executor.max_parallel := None;
     Executor.execution_timeout := None;
     Executor.target_api := plain_target;
     Executor.docker := docker_on |}.

Definition world_with (tree : option Executor.fsnode) : Executor.world :=
  {| Executor.tree := tree;
     Executor.environ := [("PATH", "/usr/bin")];
     Executor.runs := one_slow;
     Executor.faults := λ _, None;
     Executor.completion := [];
     Executor.containers := failing_containers;
     Executor.clock_start := 10%float;
     Executor.clock_end := 12%float |}.

(** A base configuration and the overrides of one environment. *)
Definition base_settings : list (string * json) :=
  [("api", JDict [("name", JStr "Pets"); ("version", JStr "1.0.0")]);
   ("target_api",
    JDict [("base_url", JStr "http://localhost:3000"); ("timeout", JInt 30)]);
   ("execution", JDict [("parallel", JBool true)])].

Definition staging_settings : list (string * json) :=
  [("target_api", JDict [("base_url", JStr "${STAGING_URL}")]);
   ("execution", JStr "default");
   ("reporting", JDict [("format", JList [JStr "json"])])].

End Examples.

(** * Properties *)

Import Py.

(** ** Python primitives *)
Section Primitives.










End Primitives.

(** ** Test-case derivation *)
Section Derivation.
Import Parser Spec.




Lemma find_success_first (rs : dict (dict json)) : find_success rs = first_2xx rs.
Proof.
  unfold first_2xx. induction rs as [|[k d] rs IH]; [done |].
  cbn [find_success]. rewrite filter_cons. cbn [fst].
  destruct (startswith k "2") eqn:E.
  - by rewrite decide_True by exact E.
  - rewrite decide_False; [exact IH |]. unfold is_success_code. congruence.
Qed.

(** The cases the second loop adds are bound, one to one and in order, to
    the entries whose key starts with "4" or "5". *)
Lemma error_loop_ok (ep : Endpoint) (items : dict (dict json))
    (acc cases : list TestCase.t) :
  error_loop ep items acc = Ok cases ->
  ∃ new, cases = (acc ++ new)%list
    /\ Forall2 (λ c entry, error_case ep entry.1 entry.2 = Ok c) new (error_entries items).
Proof.
  unfold error_entries. revert acc.
  induction items as [|[k d] items IH]; intros acc H; cbn [error_loop] in H.
  - exists []. split; [by rewrite app_nil_r; congruence | constructor].
  - rewrite filter_cons. cbn [fst]. destruct (is_error_code k) eqn:Ek.
    + rewrite decide_True by done.
      destruct (error_case ep k d) as [c|e] eqn:Ec; cbn [bind] in H; [| done].
      apply IH in H as (new & -> & Hnew). exists (c :: new).
      split; [by rewrite <- app_assoc | by constructor].
    + rewrite decide_False by done. by apply IH.
Qed.



Lemma error_case_inv (ep : Endpoint) (k : string) (d : dict json) (c : TestCase.t) :
  error_case ep k d = Ok c ->
  int k = Ok (TestCase.expected_status c)
  /\ response_schema_of d = Ok (TestCase.response_schema c)
  /\ TestCase.test_type c = "error".
Proof.
  unfold error_case. destruct (int k) as [n|]; cbn [bind]; [| done].
  destruct (response_schema_of d) as [s|]; cbn [bind]; [| done].
  intros [= <-]. done.
Qed.

Lemma success_case_inv (ep : Endpoint) (k : string) (d : dict json) (c : TestCase.t) :
  success_case ep k d = Ok c ->
  int k = Ok (TestCase.expected_status c)
  /\ response_schema_of d = Ok (TestCase.response_schema c)
  /\ TestCase.test_type c = "success".
Proof.
  unfold success_case. destruct (int k) as [n|]; cbn [bind]; [| done].
  destruct (response_schema_of d) as [s|]; cbn [bind]; [| done].
  intros [= <-]. done.
Qed.



Lemma first_2xx_elem (rs : dict (dict json)) (k : string) (d : dict json) :
  first_2xx rs = Some (k, d) -> (k, d) ∈ rs /\ is_success_code k = true.
Proof.
  unfold first_2xx. intros H. apply head_Some_elem_of in H.
  apply list_elem_of_filter in H as [H1 H2]. done.
Qed.


End Derivation.

Section DerivationCases.
Import Parser Spec.

(** The shape of every result of the derivation: what the first loop found,
    then the cases of the second loop. *)
Lemma derivation_inv (ep : Endpoint) (cases : list TestCase.t) :
  get_endpoint_test_cases ep = Ok cases ->
  ∃ init new,
    cases = (init ++ new)%list
    /\ Forall2 (λ c entry, error_case ep entry.1 entry.2 = Ok c) new
         (error_entries (responses ep))
    /\ ((init = []
         /\ (first_2xx (responses ep) = None
             \/ ∃ k, first_2xx (responses ep) = Some (k, [])))
        \/ ∃ k d c0, first_2xx (responses ep) = Some (k, d) /\ d ≠ []
             /\ success_case ep k d = Ok c0 /\ init = [c0]).
Proof.
  unfold get_endpoint_test_cases. rewrite find_success_first.
  destruct (first_2xx (responses ep)) as [[k d]|] eqn:E.
  - destruct d as [|x d].
    + cbn [truthy bind]. intros H. apply error_loop_ok in H as (new & -> & Hnew).
      exists [], new. split; [done |]. split; [done |]. left. split; [done |].
      right. by exists k.
    + cbn [truthy]. destruct (success_case ep k (x :: d)) as [c0|e] eqn:Ec;
        cbn [bind]; [| done].
      intros H. apply error_loop_ok in H as (new & -> & Hnew).
      exists [c0], new. split; [done |]. split; [done |]. right.
      exists k, (x :: d), c0. done.
  - cbn [bind]. intros H. apply error_loop_ok in H as (new & -> & Hnew).
    exists [], new. split; [done |]. split; [done |]. left. split; [done |]. by left.
Qed.


Lemma new_cases_error (ep : Endpoint) (new : list TestCase.t)
    (entries : dict (dict json)) :
  Forall2 (λ c entry, error_case ep entry.1 entry.2 = Ok c) new entries ->
  success_cases new = [] /\ error_cases new = new.
Proof.
  unfold success_cases, error_cases.
  induction 1 as [|c entry new entries Hc _ [IH1 IH2]]; [done |].
  apply error_case_inv in Hc as (_ & _ & Ht).
  rewrite !filter_cons, Ht, decide_False, decide_True by done. by rewrite IH1, IH2.
Qed.





End DerivationCases.

Section DerivationExamples.
Import Parser Spec Examples.




(** The derivation on an empty 2xx definition: no success case. *)
Lemma derivation_on_empty_definition :
  get_endpoint_test_cases pets_empty_definition = Ok [].
Proof. reflexivity. Qed.





End DerivationExamples.

(** ** Reference resolution *)
Section Resolution.
Import Parser Spec.

Lemma walk_found (segments : list string) (at_ v : json) :
  pointer_lookup segments at_ = Some v -> walk segments at_ = Ok v.
Proof.
  revert at_. induction segments as [|s segments IH]; intros at_ H; cbn in *.
  - congruence.
  - destruct at_ as [| | | | | |entries]; try done. cbn [getitem].
    destruct (dict_lookup s entries) as [next|]; [| done]. cbn [bind]. by apply IH.
Qed.

Lemma walk_absent (segments : list string) (at_ : json) :
  pointer_lookup segments at_ = None ->
  ∃ e, walk segments at_ = Raise e
       /\ (e = TypeError \/ ∃ segment, segment ∈ segments /\ e = KeyError segment).
Proof.
  revert at_. induction segments as [|s segments IH]; intros at_ H; cbn in *.
  - done.
  - destruct at_ as [| | | | | |entries];
      try (exists TypeError; split; [reflexivity | by left]).
    cbn [getitem]. destruct (dict_lookup s entries) as [next|]; cbn [bind].
    + destruct (IH next H) as (e & He & [-> | (s' & Hin & ->)]).
      * exists TypeError. split; [done | by left].
      * exists (KeyError s'). split; [done |]. right. exists s'.
        split; [by apply list_elem_of_further | done].
    + exists (KeyError s). split; [done |]. right. exists s.
      split; [apply list_elem_of_here | done].
Qed.

Lemma map_result_raise {A B : Type} (f : A -> result B) (l : list A) (x : A) (e : exn) :
  x ∈ l -> f x = Raise e -> ∃ e', map_result f l = Raise e'.
Proof.
  intros Hin Hx. induction l as [|y l IH]; [by apply elem_of_nil in Hin |].
  cbn [map_result]. apply elem_of_cons in Hin as [<- | Hin].
  - rewrite Hx. by eexists.
  - destruct (f y); [| by eexists].
    destruct (IH Hin) as [e' He']. fold (map_result f) in *. rewrite He'. by eexists.
Qed.

(** A failure at an object that the traversal reaches is a failure of the
    whole traversal. *)
Lemma reached_raise (doc root obj : json) :
  reached doc obj ->
  (∃ e, resolve_ref obj root = Raise e) -> ∃ e, resolve_ref doc root = Raise e.
Proof.
  induction 1 as [|entries k v _ IH Href Hin|items v _ IH Hin]; [done | |];
    intros [e He]; apply IH.
  - cbn [resolve_ref]. rewrite Href. unfold map_values.
    destruct (map_result_raise
                (λ entry : string * json,
                   match resolve_ref entry.2 root with
                   | Ok w => Ok (entry.1, w)
                   | Raise e => Raise e
                   end) entries (k, v) e Hin) as [e' He'].
    { cbn [snd]. by rewrite He. }
    rewrite He'. by eexists.
  - cbn [resolve_ref].
    destruct (map_result_raise (λ item, resolve_ref item root) items v e Hin He)
      as [e' He'].
    rewrite He'. by eexists.
Qed.

(** C6: a reference "#/a/b/c" is resolved by following its segments from the
    document root: the value found there is the result, and when a segment is
    absent the resolution ends in an exception (the lookup's [KeyError] for a
    segment missing from a mapping, [TypeError] for a segment looked up in
    something that is not a mapping), never in a value; a reference that
    does not start with "#" is returned as it is; and a failure at any
    object the traversal reaches is a failure of the whole document. *)
Theorem resolve_refs_pointer (root : json) :
  (∀ entries pointer,
     dict_lookup "$ref" entries = Some (JStr ("#/" +:+ pointer)) ->
     (∀ v, pointer_lookup (split pointer "/") root = Some v ->
        resolve_ref (JDict entries) root = Ok v)
     /\ (pointer_lookup (split pointer "/") root = None ->
         ∃ e, resolve_ref (JDict entries) root = Raise e
              /\ (e = TypeError
                  \/ ∃ segment, segment ∈ split pointer "/" /\ e = KeyError segment)))
  /\ (∀ entries ref,
        dict_lookup "$ref" entries = Some (JStr ref) -> startswith ref "#" = false ->
        resolve_ref (JDict entries) root = Ok (JDict entries))
  /\ (∀ obj e, reached root obj -> resolve_ref obj root = Raise e ->
        ∃ e', resolve_refs root = Raise e').
Proof.
  split_and!.
  - intros entries pointer Href. cbn [resolve_ref]. rewrite Href.
    unfold follow_ref.
    replace (startswith ("#/" +:+ pointer) "#") with true by reflexivity.
    replace (drop_chars 2 ("#/" +:+ pointer)) with pointer by reflexivity.
    split; [apply walk_found | apply walk_absent].
  - intros entries ref Href Hext. cbn [resolve_ref]. rewrite Href.
    unfold follow_ref. by rewrite Hext.
  - intros obj e Hreach He. apply (reached_raise root root obj Hreach). by exists e.
Qed.

End Resolution.

Section ResolutionExamples.
Import Parser Spec Examples.

Lemma resolve_refs_pointer_witness :
  resolve_ref (JDict (ref_to "#/components/schemas/Pet")) petstore
  = Ok (JDict [("type", JStr "object")])
  /\ (∃ e, resolve_ref (JDict (ref_to "#/components/schemas/Missing")) petstore = Raise e)
  /\ resolve_ref (JDict (ref_to "common.yaml#/Pet")) petstore
     = Ok (JDict (ref_to "common.yaml#/Pet"))
  /\ (∃ e, resolve_refs petstore_dangling = Raise e).
Proof.
  split_and!.
  - apply (proj1 (proj1 (resolve_refs_pointer petstore)
                    (ref_to "#/components/schemas/Pet") "components/schemas/Pet"
                    eq_refl)).
    reflexivity.
  - destruct (proj2 (proj1 (resolve_refs_pointer petstore)
                       (ref_to "#/components/schemas/Missing")
                       "components/schemas/Missing" eq_refl))
      as (e & He & _); [reflexivity |].
    by exists e.
  - apply (proj1 (proj2 (resolve_refs_pointer petstore))
             (ref_to "common.yaml#/Pet") "common.yaml#/Pet"); reflexivity.
  - apply (proj2 (proj2 (resolve_refs_pointer petstore_dangling))
             (JDict (ref_to "#/components/schemas/Missing")) (KeyError "Missing")).
    + eapply (reached_item _ [JDict (ref_to "#/components/schemas/Missing")]).
      * eapply (reached_value _ _ "paths"); [apply reached_here | reflexivity |].
        apply list_elem_of_here.
      * apply list_elem_of_here.
    + reflexivity.
Defined.

End ResolutionExamples.

(** ** Test-data synthesis *)
Section Synthesis.
Import Templates Spec.

Lemma dict_lookup_set_eq {V : Type} (k : string) (v : V) (d : dict V) :
  dict_lookup k (dict_set k v d) = Some v.
Proof.
  induction d as [|[k' v'] d IH]; cbn.
  - by rewrite String.eqb_refl.
  - destruct (String.eqb k' k) eqn:E; cbn; rewrite ?String.eqb_refl, ?E; done.
Qed.

Lemma dict_lookup_set_ne {V : Type} (k k' : string) (v : V) (d : dict V) :
  k ≠ k' -> dict_lookup k' (dict_set k v d) = dict_lookup k' d.
Proof.
  intros Hne. induction d as [|[k0 v0] d IH]; cbn.
  - by apply String.eqb_neq in Hne as ->.
  - destruct (String.eqb k0 k) eqn:E; cbn.
    + apply String.eqb_eq in E as ->. by apply String.eqb_neq in Hne as ->.
    + by rewrite IH.
Qed.

Lemma generate_unfold (entries : list (string * json)) :
  entries ≠ [] ->
  _generate_test_data (JDict entries)
  = match dict_lookup "properties" entries with
    | None => Ok []
    | Some (JDict fields) => fields_loop _generate_test_data fields []
    | Some _ => Raise AttributeError
    end.
Proof.
  intros Hne. destruct entries as [|[k v] entries]; [done |].
  cbn [_generate_test_data truthy negb dict_lookup].
  destruct (String.eqb k "properties"); [done |].
  clear. induction entries as [|[k v] entries IH]; [reflexivity |].
  cbn [dict_lookup]. destruct (String.eqb k "properties"); [done | exact IH].
Qed.

(** One turn of the loop either stores a value under the field's name or
    leaves the data as it is. *)
Lemma fields_loop_step (recurse : json -> result (dict json)) (n : string)
    (fs : json) (rest : list (string * json)) (acc data : dict json) :
  fields_loop recurse ((n, fs) :: rest) acc = Ok data ->
  (∃ v, fields_loop recurse rest (dict_set n v acc) = Ok data)
  \/ fields_loop recurse rest acc = Ok data.
Proof.
  cbn [fields_loop]. destruct (get fs "type" (JStr "string")) as [ty|]; cbn [bind];
    [| done].
  repeat match goal with
         | |- context [if is_str ty ?s then _ else _] => destruct (is_str ty s)
         end;
    first [ by intros H; left; eexists; exact H
          | by right
          | destruct (recurse fs); cbn [bind];
            [by intros H; left; eexists; exact H | done] ].
Qed.

Lemma fields_loop_other (recurse : json -> result (dict json))
    (fields : list (string * json)) (acc data : dict json) (k : string) :
  fields_loop recurse fields acc = Ok data -> k ∉ map fst fields ->
  dict_lookup k data = dict_lookup k acc.
Proof.
  revert acc. induction fields as [|[n fs] fields IH]; intros acc H Hk.
  - cbn in H. congruence.
  - cbn [map fst] in Hk. apply not_elem_of_cons in Hk as [Hne Hk].
    apply fields_loop_step in H as [[v H] | H].
    + rewrite (IH _ H Hk). by apply dict_lookup_set_ne.
    + by apply IH.
Qed.

Lemma lower_in_spec (field_name : string) (names : list string) :
  lower_in field_name names = true <-> lower field_name ∈ names.
Proof.
  unfold lower_in. rewrite existsb_exists, list_elem_of_In. split.
  - intros (x & Hin & Heq). apply String.eqb_eq in Heq. by subst.
  - intros Hin. exists (lower field_name). split; [done | apply String.eqb_refl].
Qed.

Lemma string_default_hint (field_name : string) :
  name_hint field_name (string_default field_name).
Proof.
  unfold name_hint, string_default.
  destruct (lower_in field_name ["email"; "e-mail"]) eqn:E1;
    [apply lower_in_spec in E1 | apply not_true_iff_false in E1;
                                 rewrite lower_in_spec in E1];
  (destruct (lower_in field_name ["name"; "title"]) eqn:E2;
    [apply lower_in_spec in E2 | apply not_true_iff_false in E2;
                                 rewrite lower_in_spec in E2]);
  (destruct (lower_in field_name ["id"; "uuid"]) eqn:E3;
    [apply lower_in_spec in E3 | apply not_true_iff_false in E3;
                                 rewrite lower_in_spec in E3]);
  split_and!; intros H; try done;
    repeat match goal with
           | H : _ ∈ _ :: _ |- _ => apply elem_of_cons in H as [H | H]
           | H : _ ∈ [] |- _ => by apply elem_of_nil in H
           | H : _ ∉ _ :: _ |- _ => apply not_elem_of_cons in H as [? H]
           end; congruence.
Qed.

Lemma fields_loop_field (recurse : json -> result (dict json))
    (fields : list (string * json)) (acc data : dict json)
    (n : string) (fs ty : json) :
  fields_loop recurse fields acc = Ok data -> dict_wf fields ->
  (n, fs) ∈ fields -> get fs "type" (JStr "string") = Ok ty ->
  literal_for recurse n fs ty (dict_lookup n data).
Proof.
  unfold dict_wf. revert acc.
  induction fields as [|[n0 fs0] fields IH]; intros acc H Hwf Hin Hty.
  - by apply elem_of_nil in Hin.
  - cbn [map fst] in Hwf. apply NoDup_cons in Hwf as [Hfresh Hwf].
    apply elem_of_cons in Hin as [[= <- <-] | Hin].
    + cbn [fields_loop] in H. rewrite Hty in H. cbn [bind] in H.
      unfold literal_for. split_and!; intros ->; cbn in H.
      * exists (string_default n). split; [| apply string_default_hint].
        rewrite (fields_loop_other _ _ _ _ n H Hfresh). apply dict_lookup_set_eq.
      * rewrite (fields_loop_other _ _ _ _ n H Hfresh). apply dict_lookup_set_eq.
      * rewrite (fields_loop_other _ _ _ _ n H Hfresh). apply dict_lookup_set_eq.
      * rewrite (fields_loop_other _ _ _ _ n H Hfresh). apply dict_lookup_set_eq.
      * rewrite (fields_loop_other _ _ _ _ n H Hfresh). apply dict_lookup_set_eq.
      * destruct (recurse fs) as [nested|]; [| done]. exists nested. split; [done |].
        rewrite (fields_loop_other _ _ _ _ n H Hfresh). apply dict_lookup_set_eq.
    + apply fields_loop_step in H as [[v H] | H]; eauto.
Qed.

Lemma fields_loop_total (recurse : json -> result (dict json))
    (fields : list (string * json)) (acc : dict json) :
  (∀ n fs, (n, fs) ∈ fields -> ∃ field_entries, fs = JDict field_entries) ->
  (∀ n fs, (n, fs) ∈ fields ->
     get fs "type" (JStr "string") = Ok (JStr "object") ->
     ∃ nested, recurse fs = Ok nested) ->
  ∃ data, fields_loop recurse fields acc = Ok data.
Proof.
  revert acc. induction fields as [|[n fs] fields IH]; intros acc Hdict Hobj.
  - by eexists.
  - assert (Hrest : ∀ acc', ∃ data, fields_loop recurse fields acc' = Ok data).
    { intros acc'. apply IH.
      - intros n' fs' Hin. apply (Hdict n'). by apply list_elem_of_further.
      - intros n' fs' Hin. apply (Hobj n'). by apply list_elem_of_further. }
    destruct (Hdict n fs) as [field_entries ->]; [apply list_elem_of_here |].
    specialize (Hobj n (JDict field_entries) (list_elem_of_here _ _)).
    cbn [fields_loop get bind] in *.
    destruct (dict_lookup "type" field_entries) as [ty|]; [| apply Hrest].
    destruct ty as [| | | |s| |]; try apply Hrest. cbn [is_str].
    repeat match goal with
           | |- context [if String.eqb s ?t then _ else _] =>
               destruct (String.eqb_spec s t) as [->|]; [apply Hrest |]
           end.
    destruct (String.eqb_spec s "object") as [->|]; [| apply Hrest].
    destruct Hobj as [nested ->]; [done |]. cbn [bind]. apply Hrest.
Qed.

Lemma synthesis_total (schema : json) :
  well_formed schema -> ∃ data, _generate_test_data schema = Ok data.
Proof.
  induction 1 as [schema Hfalsy | entries Hne Hnone | entries fields Hprops Hdict _ IH].
  - exists []. destruct schema; cbn [_generate_test_data]; by rewrite Hfalsy.
  - exists []. by rewrite generate_unfold, Hnone.
  - rewrite generate_unfold, Hprops by (by destruct entries).
    by apply fields_loop_total.
Qed.

(** C5: the synthesis returns an instance for every well-formed schema, and
    in the instance synthesized for a schema every declared property has the
    literal of its type (a property without a type counts as a string): a
    string property the default that goes by its name (the literal email
    address for "email" and "e-mail", "Test " and the titled name for "name"
    and "title", "test-id-123" for "id" and "uuid", in any letter case, and
    "test_" and the name otherwise), an integer 42, a number 42.0, a boolean
    true, an array the two placeholders, and an object the instance
    synthesized for its own schema; and the schema with the one string
    property "email" yields exactly the literal email address under
    "email". *)
Theorem synthesis_by_type :
  (∀ schema, well_formed schema -> ∃ data, _generate_test_data schema = Ok data)
  /\ (∀ entries fields data,
        dict_lookup "properties" entries = Some (JDict fields) -> dict_wf fields ->
        _generate_test_data (JDict entries) = Ok data ->
        ∀ field_name field_schema field_type,
          (field_name, field_schema) ∈ fields ->
          get field_schema "type" (JStr "string") = Ok field_type ->
          literal_for _generate_test_data field_name field_schema field_type
            (dict_lookup field_name data))
  /\ _generate_test_data Examples.email_schema = Ok [("email", JStr "test@example.com")].
Proof.
  split_and!; [apply synthesis_total | | reflexivity].
  intros entries fields data Hprops Hwf Hdata n fs ty Hin Hty.
  rewrite generate_unfold, Hprops in Hdata by (by destruct entries).
  by apply (fields_loop_field _ fields [] data).
Qed.

End Synthesis.

Section SynthesisExamples.
Import Templates Spec Examples.

Ltac each_field H :=
  repeat (apply elem_of_cons in H as [[= -> ->] | H]);
  [.. | by apply elem_of_nil in H].

Lemma account_schema_well_formed : well_formed account_schema.
Proof.
  apply (well_formed_properties account_entries account_fields); [reflexivity | |].
  - intros n fs Hin. unfold account_fields in Hin. each_field Hin; by eexists.
  - intros n fs Hin Hty. unfold account_fields in Hin.
    each_field Hin; try discriminate Hty.
    eapply well_formed_properties; [reflexivity | |].
    + intros n fs Hin. each_field Hin. by eexists.
    + intros n fs Hin Hty'. each_field Hin. discriminate Hty'.
Qed.

Lemma synthesis_by_type_witness :
  (∃ data, _generate_test_data account_schema = Ok data)
  /\ _generate_test_data account_schema = Ok account_instance
  /\ literal_for _generate_test_data "age" (JDict [("type", JStr "integer")])
       (JStr "integer") (dict_lookup "age" account_instance).
Proof.
  split; [apply (proj1 synthesis_by_type), account_schema_well_formed |].
  split; [reflexivity |].
  apply (proj1 (proj2 synthesis_by_type) account_entries account_fields
           account_instance).
  - reflexivity.
  - unfold dict_wf. apply (bool_decide_unpack _). vm_compute. exact I.
  - reflexivity.
  - do 3 apply list_elem_of_further. apply list_elem_of_here.
  - reflexivity.
Defined.

End SynthesisExamples.

(** ** Repository fetch *)
Section Fetch.
Import Parser Spec.

Lemma append_assoc_r (a b c : string) : a +:+ (b +:+ c) = (a +:+ b) +:+ c.
Proof.
  induction a as [|x a IH]; [reflexivity |].
  change (String x (a +:+ (b +:+ c)) = String x ((a +:+ b) +:+ c)). by f_equal.
Qed.



End Fetch.

Section FetchExamples.
Import Parser Spec Examples.



End FetchExamples.

(** ** Endpoint filtering *)
Section Filtering.
Import Parser Generator.

Lemma path_in_spec (paths : list string) (ep : Endpoint) :
  path_in paths ep = true <-> path ep ∈ paths.
Proof.
  unfold path_in. rewrite existsb_exists, list_elem_of_In. split.
  - intros (p & Hin & Heq). apply String.eqb_eq in Heq. by subst.
  - intros Hin. exists (path ep). split; [done | apply String.eqb_refl].
Qed.

(** C4: a non-empty inclusion list keeps exactly the endpoints whose path it
    lists, whatever the exclusion list holds; an empty inclusion list keeps
    exactly the endpoints whose path the exclusion list does not hold.  The
    endpoints kept stay in their order. *)
Theorem filter_endpoints_precedence (endpoints : list Endpoint)
    (exclude include_only : list string) :
  (include_only ≠ [] ->
     _filter_endpoints endpoints exclude include_only
     = filter (λ ep, path ep ∈ include_only) endpoints)
  /\ (include_only = [] ->
     _filter_endpoints endpoints exclude include_only
     = filter (λ ep, path ep ∉ exclude) endpoints).
Proof.
  split.
  - intros Hne. destruct include_only as [|p ps]; [done |].
    unfold _filter_endpoints.
    induction endpoints as [|ep eps IH]; [done |].
    cbn [List.filter]. rewrite filter_cons.
    destruct (path_in (p :: ps) ep) eqn:E.
    + apply path_in_spec in E. rewrite decide_True by done. by f_equal.
    + rewrite decide_False; [done |].
      intros Hin. apply path_in_spec in Hin. congruence.
  - intros ->. unfold _filter_endpoints.
    destruct exclude as [|x xs].
    + induction endpoints as [|ep eps IH]; [done |].
      rewrite filter_cons, decide_True by apply not_elem_of_nil.
      by f_equal.
    + induction endpoints as [|ep eps IH]; [done |].
      cbn [List.filter]. rewrite filter_cons.
      destruct (path_in (x :: xs) ep) eqn:E; cbn [negb].
      * apply path_in_spec in E. by rewrite decide_False by (intros H; by apply H).
      * rewrite decide_True; [by f_equal |].
        intros Hin. apply path_in_spec in Hin. congruence.
Qed.

Lemma filter_endpoints_precedence_witness :
  _filter_endpoints [Examples.endpoint_at "/a"; Examples.endpoint_at "/b"] ["/b"] ["/b"]
  = [Examples.endpoint_at "/b"]
  /\ _filter_endpoints [Examples.endpoint_at "/a"; Examples.endpoint_at "/b"] ["/a"] []
     = [Examples.endpoint_at "/b"].
Proof.
  split.
  - rewrite (proj1 (filter_endpoints_precedence
                      [Examples.endpoint_at "/a"; Examples.endpoint_at "/b"]
                      ["/b"] ["/b"])) by discriminate.
    vm_compute. reflexivity.
  - rewrite (proj2 (filter_endpoints_precedence
                      [Examples.endpoint_at "/a"; Examples.endpoint_at "/b"]
                      ["/a"] [])) by reflexivity.
    vm_compute. reflexivity.
Defined.

End Filtering.

(** ** Aggregation *)
Section Aggregation.
Import Executor.

Lemma count_passed_spec (results : list TestResult.t) :
  count_passed results
  = Z.of_nat (length (filter (λ r, TestResult.success r = true) results)).
Proof.
  induction results as [|r rs IH]; [done |].
  cbn [count_passed]. rewrite filter_cons.
  destruct (TestResult.success r).
  - rewrite decide_True by done. cbn [length]. lia.
  - rewrite decide_False by done. exact IH.
Qed.

(** C9: for every list of results the summary has [total] the length of the
    list, [passed] the number of results whose [success] is true, [failed]
    the difference of the two, and an overall [success] flag that is true
    exactly when [failed] is 0; the results are handed on unchanged. *)
Theorem aggregation_counts (results : list TestResult.t) (elapsed : float) :
  let summary := run_tests_summary results elapsed in
  ExecutionResults.total_tests summary = Z.of_nat (length results)
  /\ ExecutionResults.passed_tests summary
     = Z.of_nat (length (filter (λ r, TestResult.success r = true) results))
  /\ ExecutionResults.failed_tests summary
     = ExecutionResults.total_tests summary - ExecutionResults.passed_tests summary
  /\ (ExecutionResults.success summary = true
      <-> ExecutionResults.failed_tests summary = 0)
  /\ ExecutionResults.results summary = results.
Proof.
  cbn. split_and!; try done.
  - apply count_passed_spec.
  - apply Z.eqb_eq.
Qed.

End Aggregation.

(** ** Execution *)
Section Execution.
Import Executor Spec.

Lemma spawns_app (a b : list event) : spawns (a ++ b) = (spawns a ++ spawns b)%list.
Proof. unfold spawns. apply omap_app. Qed.

(** The sequential loop runs each file once, in order, against the outside
    of its own position, as long as every result that is printed is
    written. *)
Lemma sequential_loop_spec (envs : nat -> run_env) (test_files : list Path)
    (timeout : Z) (verbose : bool) (i : nat) (results : list TestResult.t)
    (events : list event) :
  (verbose = true ->
   ∀ j, (j < length test_files)%nat -> print_fault (envs (i + j)%nat) = None) ->
  sequential_loop envs i test_files timeout verbose results events
  = inr ((results
          ++ imap (λ j f, (_run_single_test f timeout verbose (envs (i + j)%nat)).1)
               test_files)%list,
         (events
          ++ concat
               (imap (λ j f,
                        let ran :=
                          _run_single_test f timeout verbose (envs (i + j)%nat) in
                        (ran.2 ++ (if verbose then [PrintResult ran.1] else []))%list)
                  test_files))%list).
Proof.
  revert i results events.
  induction test_files as [|f fs IH]; intros i results events Hprint.
  - cbn. by rewrite !app_nil_r.
  - cbn [sequential_loop].
    destruct (_run_single_test f timeout verbose (envs i)) as [r ran] eqn:E.
    assert (Hrest : verbose = true ->
                    ∀ j, (j < length fs)%nat -> print_fault (envs (S i + j)%nat) = None).
    { intros Hv j Hj. replace (S i + j)%nat with (i + S j)%nat by lia.
      apply Hprint; [done | cbn; lia]. }
    assert (Hshape :
      inr ((((results ++ [r]) ++
             imap (λ j f0, (_run_single_test f0 timeout verbose (envs (S i + j)%nat)).1)
               fs)%list,
            ((events ++ ran ++ (if verbose then [PrintResult r] else [])) ++
             concat
               (imap (λ j f0,
                        let ran0 :=
                          _run_single_test f0 timeout verbose (envs (S i + j)%nat) in
                        (ran0.2 ++ (if verbose then [PrintResult ran0.1] else []))%list)
                  fs))%list) : list TestResult.t * list event)
      = (inr ((results
               ++ imap (λ j f0,
                          (_run_single_test f0 timeout verbose (envs (i + j)%nat)).1)
                    (f :: fs))%list,
              (events
               ++ concat
                    (imap (λ j f0,
                             let ran0 :=
                               _run_single_test f0 timeout verbose (envs (i + j)%nat) in
                             (ran0.2
                              ++ (if verbose then [PrintResult ran0.1] else []))%list)
                       (f :: fs)))%list) : exc + _)).
    { rewrite !imap_cons. cbn [concat]. rewrite !Nat.add_0_r, E.
      cbn [fst snd]. rewrite <- !app_assoc. cbn [app].
      f_equal. f_equal; [f_equal; f_equal | f_equal; f_equal; f_equal; f_equal];
        apply imap_ext; intros j g _; cbn; by rewrite Nat.add_succ_r. }
    destruct verbose.
    + assert (Hi : print_fault (envs i) = None).
      { rewrite <- (Nat.add_0_r i). apply Hprint; [done | cbn; lia]. }
      rewrite Hi, (IH (S i)) by done. exact Hshape.
    + rewrite (IH (S i)) by done. etrans; [| exact Hshape]. by rewrite app_nil_r.
Qed.

Lemma sequential_results (envs : nat -> run_env) (test_files : list Path)
    (timeout : Z) (verbose : bool) :
  prints_succeed verbose envs (length test_files) ->
  ∃ events,
    _run_sequential_tests envs test_files timeout verbose
    = inr (imap (λ i f, (_run_single_test f timeout verbose (envs i)).1) test_files,
           events)
    /\ spawns events
       = concat (imap (λ i f, spawns (_run_single_test f timeout verbose (envs i)).2)
                   test_files).
Proof.
  intros Hprint. unfold _run_sequential_tests.
  rewrite sequential_loop_spec by (intros Hv j Hj; by apply Hprint).
  eexists. split; [reflexivity |]. cbn [app].
  change (λ i f, spawns (_run_single_test f timeout verbose (envs i)).2)
    with (λ i f, spawns (_run_single_test f timeout verbose (envs (0 + i)%nat)).2).
  clear Hprint. generalize 0%nat.
  induction test_files as [|f fs IH]; intros i; [done |].
  rewrite !imap_cons. cbn [concat]. rewrite !spawns_app, Nat.add_0_r.
  rewrite <- app_assoc. f_equal.
  replace (spawns (if verbose
                   then [PrintResult (_run_single_test f timeout verbose (envs i)).1]
                   else [])) with (@nil (list string)) by (by destruct verbose).
  cbn [app]. etrans; [| etrans; [apply (IH (S i)) |]].
  - f_equal. f_equal. apply imap_ext. intros j g _. cbn. by rewrite Nat.add_succ_r.
  - f_equal. apply imap_ext. intros j g _. cbn. by rewrite Nat.add_succ_r.
Qed.

(** A print that raises ends the sequential mode at that artifact. *)
Lemma sequential_loop_stops (envs : nat -> run_env) (test_files : list Path)
    (timeout : Z) (k : nat) (e : exc) (i : nat) (results : list TestResult.t)
    (events : list event) :
  (k < length test_files)%nat ->
  print_fault (envs (i + k)%nat) = Some e ->
  (∀ j, (j < k)%nat -> print_fault (envs (i + j)%nat) = None) ->
  sequential_loop envs i test_files timeout true results events = inl e.
Proof.
  revert k i results events.
  induction test_files as [|f fs IH]; intros k i results events Hk He Hbefore.
  - cbn in Hk. lia.
  - cbn [sequential_loop].
    destruct (_run_single_test f timeout true (envs i)) as [r ran].
    destruct k as [|k].
    + rewrite Nat.add_0_r in He. by rewrite He.
    + assert (Hi : print_fault (envs i) = None).
      { rewrite <- (Nat.add_0_r i). apply Hbefore. lia. }
      rewrite Hi. apply (IH k (S i)).
      * cbn in Hk. lia.
      * by replace (S i + k)%nat with (i + S k)%nat by lia.
      * intros j Hj. replace (S i + j)%nat with (i + S j)%nat by lia.
        apply Hbefore. lia.
Qed.

Lemma sequential_stops (envs : nat -> run_env) (test_files : list Path)
    (timeout : Z) (k : nat) (e : exc) :
  (k < length test_files)%nat ->
  print_fault (envs k) = Some e ->
  (∀ j, (j < k)%nat -> print_fault (envs j) = None) ->
  _run_sequential_tests envs test_files timeout true = inl e.
Proof.
  intros Hk He Hbefore. unfold _run_sequential_tests.
  by apply (sequential_loop_stops envs test_files timeout k e 0).
Qed.

End Execution.

Section Discovery.
Import Executor Spec.

Lemma insert_path_perm (p : Path) (l : list Path) : insert_path p l ≡ₚ p :: l.
Proof.
  induction l as [|q l IH]; [done |]. cbn [insert_path].
  destruct (path_leb p q); [done |]. rewrite IH. apply Permutation_swap.
Qed.

Lemma sorted_perm (l : list Path) : sorted l ≡ₚ l.
Proof.
  unfold sorted. induction l as [|p l IH]; [done |].
  cbn [foldr]. by rewrite insert_path_perm, IH.
Qed.

Lemma run_single_test_file (test_file : Path) (timeout : Z) (verbose : bool)
    (env : run_env) :
  TestResult.test_file (_run_single_test test_file timeout verbose env).1
  = path_str test_file.
Proof.
  unfold _run_single_test, run_body, _check_bats_available.
  destruct (bats_version env) as [rc ? ?|[]]; cbn; try done.
  destruct (rc =? 0)%Z; cbn; [| done].
  destruct (bats_run env) as [? ? ?|[]]; done.
Qed.

Lemma occurrences_ge_1 (p : Path) (l : list Path) :
  p ∈ l -> (1 <= length (filter (λ q, q = p) l))%nat.
Proof.
  intros Hin. assert (Hp : p ∈ filter (λ q, q = p) l) by (by apply list_elem_of_filter).
  destruct (filter (λ q, q = p) l); [by apply elem_of_nil in Hp | cbn; lia].
Qed.

(** C3 fails on the code: a file matching "*.bats" at the top of the output
    directory is matched by both patterns, so discovery lists it (at least)
    twice and the sequential mode runs it once per listing: the directory
    with the single artifact [basic_default.bats] yields two results for that
    one file (in verbose mode, when the console takes the lines that are
    printed). *)
Theorem top_level_artifact_listed_twice :
  (∀ (output_dir : Path) children n,
     n ∈ bats_names children ->
     (2 <= length (filter (λ q, q = (output_dir ++ [n])%list)
                     (_find_test_files output_dir (Some (Dir children)))))%nat)
  /\ _find_test_files ["generated"; "tests"] (Some Examples.one_artifact)
     = [["generated"; "tests"; "basic_default.bats"];
        ["generated"; "tests"; "basic_default.bats"]]
  /\ (∀ envs timeout verbose,
        prints_succeed verbose envs 2 ->
        ∃ results events,
          _run_sequential_tests envs
            (_find_test_files ["generated"; "tests"] (Some Examples.one_artifact))
            timeout verbose
          = inr (results, events)
          /\ map TestResult.test_file results
             = ["generated/tests/basic_default.bats";
                "generated/tests/basic_default.bats"]).
Proof.
  split_and!.
  - intros output_dir children n Hn. unfold _find_test_files.
    rewrite (sorted_perm _). cbn [app glob_star glob_rec].
    rewrite !filter_app, !length_app.
    assert (Hin : (output_dir ++ [n])%list
                  ∈ map (λ n0, (output_dir ++ [n0])%list) (bats_names children)).
    { apply list_elem_of_fmap. by exists n. }
    pose proof (occurrences_ge_1 _ _ Hin). lia.
  - reflexivity.
  - intros envs timeout verbose Hprint.
    change (_find_test_files ["generated"; "tests"] (Some Examples.one_artifact))
      with [["generated"; "tests"; "basic_default.bats"];
            ["generated"; "tests"; "basic_default.bats"]].
    destruct (sequential_results envs
                [["generated"; "tests"; "basic_default.bats"];
                 ["generated"; "tests"; "basic_default.bats"]] timeout verbose Hprint)
      as (events & Hrun & _).
    eexists _, events. split; [exact Hrun |].
    rewrite !imap_cons. cbn [imap map compose]. by rewrite !run_single_test_file.
Qed.

End Discovery.

Section Parallel.
Import Executor Spec.

Lemma collect_contribution (future : future_outcome * Path) (printed : option exc)
    (verbose : bool) (results : list TestResult.t) (events : list event) :
  (collect future printed verbose results events).1
  = (results ++ contribution verbose printed future)%list.
Proof.
  unfold collect, contribution, outcome_result, errored_result, error_result.
  destruct future as [[r|e] f]; cbn [fst snd]; [| done].
  destruct verbose; [| done]. by destruct printed.
Qed.

Lemma collect_loop_results (workers : nat -> worker_env)
    (futures : list (future_outcome * Path))
    (completion : list nat) (verbose : bool) (results : list TestResult.t)
    (events : list event) :
  (collect_loop workers futures completion verbose results events).1
  = (results
     ++ concat (omap (λ i, contribution verbose (print_fault (run (workers i)))
                             <$> futures !! i) completion))%list.
Proof.
  revert results events.
  induction completion as [|i completion IH]; intros results events.
  - cbn. by rewrite app_nil_r.
  - cbn [collect_loop omap list_omap].
    destruct (futures !! i) as [future|];
      cbn [fmap option_fmap option_map]; [| apply IH].
    pose proof (collect_contribution future (print_fault (run (workers i))) verbose
                  results events) as Hc.
    destruct (collect future (print_fault (run (workers i))) verbose results events)
      as [results' events'].
    cbn [fst] in Hc. subst results'. rewrite IH. cbn [concat]. by rewrite <- app_assoc.
Qed.

Lemma omap_ext_elem {A B : Type} (f g : A -> option B) (l : list A) :
  (∀ x, x ∈ l -> f x = g x) -> omap f l = omap g l.
Proof.
  induction l as [|x l IH]; intros H; [done |]. cbn [omap list_omap].
  rewrite (H x) by apply list_elem_of_here.
  assert (Hl : omap f l = omap g l).
  { apply IH. intros y Hy. apply H. by apply list_elem_of_further. }
  destruct (g x); [f_equal |]; exact Hl.
Qed.

Lemma omap_lookup_imap {A B : Type} (g : nat -> A -> B) (l : list A) :
  omap (λ i, g i <$> l !! i) (seq 0 (length l)) = imap g l.
Proof.
  induction l as [|x l IH] using rev_ind; [done |].
  rewrite length_app, Nat.add_comm. cbn [length Nat.add]. rewrite seq_S, omap_app.
  cbn [Nat.add omap list_omap]. rewrite list_lookup_middle by done.
  cbn [fmap option_fmap option_map]. rewrite imap_app. cbn [imap].
  rewrite Nat.add_0_r. f_equal.
  rewrite <- IH. apply omap_ext_elem.
  intros i Hi. apply elem_of_seq in Hi. by rewrite lookup_app_l by lia.
Qed.

Lemma omap_lookup_all {A B : Type} (g : A -> B) (l : list A) :
  omap (λ i, g <$> l !! i) (seq 0 (length l)) = g <$> l.
Proof.
  rewrite (omap_lookup_imap (λ _, g)). induction l as [|x l IH]; [done |].
  rewrite imap_cons. cbn [fmap list_fmap]. f_equal. exact IH.
Qed.

Lemma concat_perm {A : Type} (l1 l2 : list (list A)) :
  l1 ≡ₚ l2 -> concat l1 ≡ₚ concat l2.
Proof.
  induction 1 as [| x l1 l2 _ IH | x y l | l1 l2 l3 _ IH1 _ IH2]; cbn [concat].
  - done.
  - by rewrite IH.
  - rewrite !app_assoc. f_equiv. apply Permutation_app_comm.
  - by rewrite IH1.
Qed.

(** What the parallel mode returns: the contribution of every future, in
    the order of completion. *)
Lemma parallel_contributions (workers : nat -> worker_env) (completion : list nat)
    (test_files : list Path) (max_parallel timeout : Z) (verbose : bool) :
  0 < max_parallel -> completion ≡ₚ seq 0 (length test_files) ->
  ∃ results events,
    _run_parallel_tests workers completion test_files max_parallel timeout verbose
    = Ok (results, events)
    /\ results
       = concat (omap (λ i, contribution verbose (print_fault (run (workers i)))
                              <$> submit_all workers test_files timeout verbose !! i)
                   completion)
    /\ results
       ≡ₚ concat (imap (λ i, contribution verbose (print_fault (run (workers i))))
                    (submit_all workers test_files timeout verbose)).
Proof.
  intros Hmax Hperm. unfold _run_parallel_tests.
  destruct (Z.leb_spec max_parallel 0); [lia |].
  destruct (collect_loop workers (submit_all workers test_files timeout verbose)
              completion verbose [] []) as [results events] eqn:E.
  exists results, events. split; [done |].
  pose proof (collect_loop_results workers (submit_all workers test_files timeout verbose)
                completion verbose [] []) as Hres.
  rewrite E in Hres. cbn [fst app] in Hres. split; [exact Hres |].
  rewrite Hres. etrans.
  - apply concat_perm. rewrite Hperm. reflexivity.
  - replace (length test_files)
      with (length (submit_all workers test_files timeout verbose))
      by (unfold submit_all; apply length_imap).
    by rewrite omap_lookup_imap.
Qed.

Lemma contributions_printed (workers : nat -> worker_env) (verbose : bool)
    (futures : list (future_outcome * Path)) :
  prints_succeed verbose (λ i, run (workers i)) (length futures) ->
  concat (imap (λ i, contribution verbose (print_fault (run (workers i)))) futures)
  = outcome_result <$> futures.
Proof.
  unfold prints_succeed.
  induction futures as [|future futures IH] using rev_ind; intros Hprint; [done |].
  rewrite imap_app, concat_app, fmap_app, IH.
  - cbn [imap concat fmap list_fmap]. rewrite app_nil_r, Nat.add_0_r. f_equal.
    unfold contribution. destruct (future.1) as [r|e]; [| done].
    destruct verbose; [| done].
    rewrite Hprint; [done.. |]. rewrite length_app. cbn. lia.
  - intros Hv i Hi. apply Hprint; [done |]. rewrite length_app. lia.
Qed.

Lemma parallel_results (workers : nat -> worker_env) (completion : list nat)
    (test_files : list Path) (max_parallel timeout : Z) (verbose : bool) :
  0 < max_parallel -> completion ≡ₚ seq 0 (length test_files) ->
  prints_succeed verbose (λ i, run (workers i)) (length test_files) ->
  ∃ results events,
    _run_parallel_tests workers completion test_files max_parallel timeout verbose
    = Ok (results, events)
    /\ results ≡ₚ outcome_result <$> submit_all workers test_files timeout verbose.
Proof.
  intros Hmax Hperm Hprint.
  destruct (parallel_contributions workers completion test_files max_parallel timeout
              verbose Hmax Hperm) as (results & events & Hrun & _ & Hres).
  exists results, events. split; [done |]. rewrite Hres, contributions_printed; [done |].
  unfold submit_all. by rewrite length_imap.
Qed.

(** Every unit's own result is among the results, whatever the console
    does. *)
Lemma parallel_holds_outcomes (workers : nat -> worker_env) (completion : list nat)
    (test_files : list Path) (max_parallel timeout : Z) (verbose : bool)
    (results : list TestResult.t) (events : list event) (j : nat) (g : Path) :
  completion ≡ₚ seq 0 (length test_files) ->
  _run_parallel_tests workers completion test_files max_parallel timeout verbose
  = Ok (results, events) ->
  test_files !! j = Some g ->
  outcome_result (submit g timeout verbose (workers j), g) ∈ results.
Proof.
  intros Hperm Hrun Hg.
  assert (Hmax : 0 < max_parallel).
  { unfold _run_parallel_tests in Hrun.
    by destruct (Z.leb_spec max_parallel 0). }
  destruct (parallel_contributions workers completion test_files max_parallel timeout
              verbose Hmax Hperm) as (results' & events' & Hrun' & _ & Hres).
  rewrite Hrun in Hrun'. injection Hrun' as <- <-. rewrite Hres.
  apply list_elem_of_In, in_concat.
  exists (contribution verbose (print_fault (run (workers j)))
            (submit g timeout verbose (workers j), g)).
  split.
  - apply list_elem_of_In, list_elem_of_lookup. exists j.
    rewrite list_lookup_imap. unfold submit_all. by rewrite list_lookup_imap, Hg.
  - apply list_elem_of_In. unfold contribution, outcome_result. cbn [fst snd].
    destruct (submit g timeout verbose (workers j)) as [r|e];
      [| apply list_elem_of_here].
    destruct verbose; [| apply list_elem_of_here].
    destruct (print_fault (run (workers j))); apply list_elem_of_here.
Qed.

(** C7 fails on the code.  With a bound of at least 1 and every submitted
    unit completing once, in any order, the parallel mode returns the
    contributions of the units: a unit whose outcome cannot be retrieved
    contributes one result with [success] false, exit code 1, empty output
    and the text of the exception as error message, and the batch goes on.
    But a unit whose result is printed, in verbose mode, on a console that
    refuses the line contributes its result and an error result: the
    results are as many as the artifacts only when every line that is
    printed is written, and one artifact on a console without the check
    mark gives two results. *)
Theorem parallel_returns_all :
  (∀ (workers : nat -> worker_env) completion (test_files : list Path)
      max_parallel timeout verbose,
     0 < max_parallel -> completion ≡ₚ seq 0 (length test_files) ->
     ∃ results events,
       _run_parallel_tests workers completion test_files max_parallel timeout verbose
       = Ok (results, events)
       /\ results
          ≡ₚ concat (imap (λ i, contribution verbose (print_fault (run (workers i))))
                       (submit_all workers test_files timeout verbose))
       /\ (prints_succeed verbose (λ i, run (workers i)) (length test_files) ->
           length results = length test_files
           /\ results ≡ₚ outcome_result <$> submit_all workers test_files timeout verbose)
       /\ (∀ i f e, test_files !! i = Some f -> fault (workers i) = Some e ->
             errored_result f (exc_text e) ∈ results
             /\ TestResult.success (errored_result f (exc_text e)) = false
             /\ TestResult.exit_code (errored_result f (exc_text e)) = 1
             /\ TestResult.error_message (errored_result f (exc_text e))
                = Some (exc_text e)))
  /\ (∃ events,
        _run_parallel_tests (λ _, Examples.ascii_console) [0%nat] [["out"; "a.bats"]]
          4 300 true
        = Ok ([(_run_single_test ["out"; "a.bats"] 300 true
                  (run Examples.ascii_console)).1;
               errored_result ["out"; "a.bats"]
                 ("'ascii' codec can't encode character '\u2713' in position 0: "
                  +:+ "ordinal not in range(128)")],
              events)).
Proof.
  split.
  - intros workers completion test_files max_parallel timeout verbose Hmax Hperm.
    destruct (parallel_contributions workers completion test_files max_parallel timeout
                verbose Hmax Hperm) as (results & events & Hrun & _ & Hres).
    exists results, events. split_and!; [done | done | |].
    + intros Hprint. rewrite contributions_printed in Hres
        by (unfold submit_all; by rewrite length_imap).
      split; [| done]. rewrite Hres, length_fmap. unfold submit_all. apply length_imap.
    + intros i f e Hf He. split_and!; try done.
      pose proof (parallel_holds_outcomes workers completion test_files max_parallel
                    timeout verbose results events i f Hperm Hrun Hf) as Hin.
      unfold outcome_result, submit in Hin. by rewrite He in Hin.
  - eexists. reflexivity.
Qed.

End Parallel.

Section Timeout.
Import Executor Spec.

Lemma run_single_test_timeout (test_file : Path) (timeout : Z) (verbose : bool)
    (env : run_env) (out err text : string) :
  bats_version env = Completed 0 out err ->
  bats_run env = Failed (TimeoutExpired text) ->
  (_run_single_test test_file timeout verbose env).1
  = timed_out_result test_file timeout (PrimFloat.sub (time_end env) (time_start env))
  /\ spawns (_run_single_test test_file timeout verbose env).2
     = [["bats"; "--version"]; ["bats"; path_str test_file]].
Proof.
  intros Hv Hr. unfold _run_single_test, run_body, _check_bats_available.
  rewrite Hv, Hr. cbn [Z.eqb fst snd]. split; [reflexivity |].
  by destruct verbose.
Qed.

(** C8 fails on the code.  A run that exceeds the timeout is recorded as a
    result with [success] false, exit code 1 and the message "Test timed out
    after N seconds", after one call of the runner and no second one.  When
    every line that is printed is written, the sequential mode has that
    result at the artifact's position, every other artifact has the result
    of its own run and the calls made are those of each run once, in order;
    in the parallel mode the result is among the results together with the
    result of every other unit.  But in the verbose sequential mode a
    console that refuses the line of a result ends the whole run in that
    exception: the result is not returned and the artifacts that remain are
    not run. *)
Theorem timeout_recorded_without_retry :
  (∀ (test_file : Path) timeout verbose env out err text,
     bats_version env = Completed 0 out err ->
     bats_run env = Failed (TimeoutExpired text) ->
     let ran := _run_single_test test_file timeout verbose env in
     ran.1 = timed_out_result test_file timeout
               (PrimFloat.sub (time_end env) (time_start env))
     /\ TestResult.success ran.1 = false
     /\ TestResult.exit_code ran.1 = 1
     /\ TestResult.error_message ran.1
        = Some ("Test timed out after " +:+ str_of_Z timeout +:+ " seconds")
     /\ spawns ran.2 = [["bats"; "--version"]; ["bats"; path_str test_file]])
  /\ (∀ envs (test_files : list Path) timeout verbose i f out err text,
        test_files !! i = Some f ->
        bats_version (envs i) = Completed 0 out err ->
        bats_run (envs i) = Failed (TimeoutExpired text) ->
        prints_succeed verbose envs (length test_files) ->
        ∃ results events,
          _run_sequential_tests envs test_files timeout verbose = inr (results, events)
          /\ results !! i
             = Some (timed_out_result f timeout
                       (PrimFloat.sub (time_end (envs i)) (time_start (envs i))))
          /\ length results = length test_files
          /\ (∀ j g, test_files !! j = Some g ->
                results !! j = Some (_run_single_test g timeout verbose (envs j)).1)
          /\ spawns events
             = concat (imap (λ j g,
                               spawns (_run_single_test g timeout verbose (envs j)).2)
                         test_files))
  /\ (∀ workers completion (test_files : list Path) max_parallel timeout verbose
        i f out err text,
        0 < max_parallel -> completion ≡ₚ seq 0 (length test_files) ->
        test_files !! i = Some f -> fault (workers i) = None ->
        bats_version (run (workers i)) = Completed 0 out err ->
        bats_run (run (workers i)) = Failed (TimeoutExpired text) ->
        ∃ results events,
          _run_parallel_tests workers completion test_files max_parallel timeout verbose
          = Ok (results, events)
          /\ timed_out_result f timeout
               (PrimFloat.sub (time_end (run (workers i))) (time_start (run (workers i))))
             ∈ results
          /\ (prints_succeed verbose (λ j, run (workers j)) (length test_files) ->
              length results = length test_files)
          /\ (∀ j g, test_files !! j = Some g ->
                outcome_result (submit g timeout verbose (workers j), g) ∈ results))
  /\ (∀ envs (test_files : list Path) timeout k e,
        (k < length test_files)%nat ->
        print_fault (envs k) = Some e ->
        (∀ j, (j < k)%nat -> print_fault (envs j) = None) ->
        _run_sequential_tests envs test_files timeout true = inl e)
  /\ _run_sequential_tests Examples.slow_on_ascii_console
       [["out"; "a.bats"]; ["out"; "b.bats"]] 300 true
     = inl (Examples.refused "2717").
Proof.
  split_and!.
  - intros test_file timeout verbose env out err text Hv Hr.
    destruct (run_single_test_timeout test_file timeout verbose env out err text Hv Hr)
      as [Hres Hsp].
    cbn zeta. rewrite Hres. done.
  - intros envs test_files timeout verbose i f out err text Hf Hv Hr Hprint.
    destruct (sequential_results envs test_files timeout verbose Hprint)
      as (events & Hrun & Hspawns).
    eexists _, events. split; [exact Hrun |]. split_and!.
    + rewrite list_lookup_imap, Hf. cbn. f_equal.
      by destruct (run_single_test_timeout f timeout verbose (envs i) out err text Hv Hr).
    + apply length_imap.
    + intros j g Hg. by rewrite list_lookup_imap, Hg.
    + done.
  - intros workers completion test_files max_parallel timeout verbose i f out err text
      Hmax Hperm Hf Hfault Hv Hr.
    destruct (parallel_contributions workers completion test_files max_parallel timeout
                verbose Hmax Hperm) as (results & events & Hrun & _ & Hres).
    exists results, events.
    assert (Hall : ∀ j g, test_files !! j = Some g ->
                     outcome_result (submit g timeout verbose (workers j), g) ∈ results).
    { intros j g Hg.
      by apply (parallel_holds_outcomes workers completion test_files max_parallel
                  timeout verbose results events j g). }
    split_and!; try done.
    + specialize (Hall i f Hf). unfold outcome_result, submit in Hall.
      rewrite Hfault in Hall. cbn [fst] in Hall.
      by destruct (run_single_test_timeout f timeout verbose (run (workers i))
                     out err text Hv Hr) as [<- _].
    + intros Hprint. rewrite contributions_printed in Hres
        by (unfold submit_all; by rewrite length_imap).
      rewrite Hres, length_fmap. unfold submit_all. apply length_imap.
  - intros envs test_files timeout k e. apply sequential_stops.
  - reflexivity.
Qed.

End Timeout.

Section ExecutionExamples.
Import Executor Spec Examples.

Lemma completion_order : [2; 0; 1]%nat ≡ₚ seq 0 (length three_artifacts).
Proof.
  cbn. etrans; [apply Permutation_swap |]. apply Permutation_skip, Permutation_swap.
Qed.

Lemma parallel_returns_all_witness :
  ∃ results events,
    _run_parallel_tests one_faulty [2; 0; 1]%nat three_artifacts 2 300 false
    = Ok (results, events)
    /\ length results = 3%nat
    /\ errored_result ["out"; "b.bats"] "cannot schedule new futures" ∈ results.
Proof.
  destruct (proj1 parallel_returns_all one_faulty [2; 0; 1]%nat three_artifacts 2 300
              false)
    as (results & events & Hrun & _ & Hprinted & Hfault);
    [lia | apply completion_order |].
  exists results, events. split; [exact Hrun |]. split.
  - apply Hprinted. by intros ?.
  - apply (Hfault 1%nat ["out"; "b.bats"] (OtherException "cannot schedule new futures"));
      reflexivity.
Defined.

Lemma timeout_recorded_without_retry_witness :
  (_run_single_test ["out"; "b.bats"] 300 false slow_run).1
  = timed_out_result ["out"; "b.bats"] 300 300%float
  /\ (∃ results events,
        _run_sequential_tests one_slow three_artifacts 300 false = inr (results, events)
        /\ results !! 1%nat = Some (timed_out_result ["out"; "b.bats"] 300 300%float)
        /\ length results = 3%nat)
  /\ ∃ results events,
       _run_parallel_tests
         (λ i, {| run := one_slow i; fault := None |}) [2; 0; 1]%nat three_artifacts
         2 300 false
       = Ok (results, events)
       /\ timed_out_result ["out"; "b.bats"] 300 300%float ∈ results
       /\ length results = 3%nat.
Proof.
  destruct timeout_recorded_without_retry as (Hone & Hseq & Hpar & _).
  split_and!.
  - apply (Hone ["out"; "b.bats"] 300 false slow_run "Bats 1.10.0" ""
             "Command timed out after 300 seconds"); reflexivity.
  - destruct (Hseq one_slow three_artifacts 300 false 1%nat ["out"; "b.bats"]
                "Bats 1.10.0" "" "Command timed out after 300 seconds")
      as (results & events & Hrun & Hat & Hlen & _);
      [reflexivity | reflexivity | reflexivity | by intros ? |].
    by exists results, events.
  - destruct (Hpar (λ i, {| run := one_slow i; fault := None |}) [2; 0; 1]%nat
                three_artifacts 2 300 false 1%nat ["out"; "b.bats"]
                "Bats 1.10.0" "" "Command timed out after 300 seconds")
      as (results & events & Hrun & Hin & Hlen & _);
      [lia | apply completion_order | reflexivity..|].
    exists results, events. split_and!; [done | done |]. apply Hlen. by intros ?.
Defined.

End ExecutionExamples.

(** * Further properties of the code *)

(** ** Validation of a document *)
Section Validation.
Import Parser.

Lemma check_required_ok (fields : list string) (spec : dict json) :
  check_required fields spec = Ok tt
  <-> ∀ field, field ∈ fields -> dict_lookup field spec ≠ None.
Proof.
  induction fields as [|f fields IH]; cbn [check_required].
  - split; [intros _ field H; by apply elem_of_nil in H | done].
  - destruct (dict_lookup f spec) as [v|] eqn:E.
    + rewrite IH. split.
      * intros H field [-> | Hin]%elem_of_cons; [by rewrite E | by apply H].
      * intros H field Hin. apply H. by apply list_elem_of_further.
    + split; [done |]. intros H. by destruct (H f (list_elem_of_here _ _)).
Qed.

Lemma check_required_first (before after : list string) (field : string)
    (spec : dict json) :
  (∀ f, f ∈ before -> dict_lookup f spec ≠ None) ->
  dict_lookup field spec = None ->
  check_required (before ++ field :: after) spec
  = Raise (ValueError ("Missing required field: " +:+ field)).
Proof.
  intros Hbefore Hfield. induction before as [|f before IH]; cbn [app check_required].
  - by rewrite Hfield.
  - destruct (dict_lookup f spec) eqn:E.
    + apply IH. intros f' Hin. apply Hbefore. by apply list_elem_of_further.
    + by destruct (Hbefore f (list_elem_of_here _ _)).
Qed.

(** X1: [validate_spec] returns [True] exactly when the document has the
    keys [openapi], [info] and [paths], its [openapi] is a string that starts
    with "3." and "title" is in its [info]; it never returns [False]. *)
Theorem validate_spec_accepts (spec : dict json) :
  (validate_spec spec = Ok true
   <-> ∃ version info,
         dict_lookup "openapi" spec = Some (JStr version)
         /\ startswith version "3." = true
         /\ dict_lookup "info" spec = Some info
         /\ contains info "title" = Ok true
         /\ dict_lookup "paths" spec ≠ None)
  /\ validate_spec spec ≠ Ok false.
Proof.
  unfold validate_spec. cbn [get].
  destruct (check_required ["openapi"; "info"; "paths"] spec) as [[]|e] eqn:Hreq;
    cbn [bind].
  - pose proof (proj1 (check_required_ok _ _) Hreq) as Hall. clear Hreq.
    rename Hall into Hreq.
    assert (Ho : dict_lookup "openapi" spec ≠ None)
      by (apply Hreq; apply list_elem_of_here).
    assert (Hi : dict_lookup "info" spec ≠ None)
      by (apply Hreq; do 1 apply list_elem_of_further; apply list_elem_of_here).
    assert (Hp : dict_lookup "paths" spec ≠ None)
      by (apply Hreq; do 2 apply list_elem_of_further; apply list_elem_of_here).
    destruct (dict_lookup "openapi" spec) as [version|]; [| done].
    destruct (dict_lookup "info" spec) as [info|]; [| done].
    destruct version as [| | | |version| |];
      try (split; [split; [done | by intros (? & ? & [=] & _)] | done]).
    destruct (startswith version "3.") eqn:Hv; cbn [negb].
    + destruct (contains info "title") as [[]|e] eqn:Ht; cbn [bind negb].
      * split; [| done]. split; [| done]. intros _. by exists version, info.
      * split; [| done]. split; [done |]. intros (? & ? & _ & _ & [= <-] & Ht' & _).
        congruence.
      * split; [| done]. split; [done |]. intros (? & ? & _ & _ & [= <-] & Ht' & _).
        congruence.
    + split; [| done]. split; [done |]. intros (? & ? & [= <-] & Hv' & _). congruence.
  - split; [| done]. split; [done |].
    intros (version & info & Ho & _ & Hi & _ & Hp).
    assert (Hok : check_required ["openapi"; "info"; "paths"] spec = Ok tt).
    { apply check_required_ok. intros field Hin.
      repeat (apply elem_of_cons in Hin as [-> | Hin]); try congruence.
      by apply elem_of_nil in Hin. }
    congruence.
Qed.

(** X2: the checks of [validate_spec] go in a fixed order.  The first of
    [openapi], [info], [paths] that the document lacks is the one the error
    names; with the three present, a version string that does not start with
    "3." is refused whatever [info] holds; and a version that is not a string
    ends the call in an [AttributeError] instead of a [ValueError]. *)
Theorem validate_spec_error_order (spec : dict json) :
  (∀ before field after,
     ["openapi"; "info"; "paths"] = (before ++ field :: after)%list ->
     (∀ f, f ∈ before -> dict_lookup f spec ≠ None) ->
     dict_lookup field spec = None ->
     validate_spec spec = Raise (ValueError ("Missing required field: " +:+ field)))
  /\ (∀ version,
        dict_lookup "openapi" spec = Some version ->
        dict_lookup "info" spec ≠ None -> dict_lookup "paths" spec ≠ None ->
        match version with
        | JStr v =>
            startswith v "3." = false ->
            validate_spec spec
            = Raise (ValueError ("Unsupported OpenAPI version: " +:+ v))
        | _ => validate_spec spec = Raise AttributeError
        end).
Proof.
  split.
  - intros before field after Hsplit Hbefore Hfield. unfold validate_spec.
    rewrite Hsplit. by rewrite (check_required_first before after field spec).
  - intros version Ho Hi Hp. unfold validate_spec.
    assert (Hok : check_required ["openapi"; "info"; "paths"] spec = Ok tt).
    { apply check_required_ok. intros field Hin.
      repeat (apply elem_of_cons in Hin as [-> | Hin]); try congruence.
      by apply elem_of_nil in Hin. }
    rewrite Hok. cbn [bind get]. rewrite Ho.
    destruct version; try done. by intros ->.
Qed.

Lemma validate_spec_error_order_witness :
  validate_spec [("info", JDict []); ("paths", JDict [])]
  = Raise (ValueError "Missing required field: openapi")
  /\ validate_spec [("openapi", JStr "3.0.3"); ("info", JDict [])]
     = Raise (ValueError "Missing required field: paths")
  /\ validate_spec Examples.old_spec
     = Raise (ValueError "Unsupported OpenAPI version: 2.0")
  /\ validate_spec [("openapi", JFloat 3%float); ("info", JDict []); ("paths", JDict [])]
     = Raise AttributeError.
Proof.
  split_and!.
  - apply (proj1 (validate_spec_error_order _) [] "openapi" ["info"; "paths"]);
      [reflexivity | by intros f H%elem_of_nil | reflexivity].
  - apply (proj1 (validate_spec_error_order _) ["openapi"; "info"] "paths" []);
      [reflexivity | | reflexivity].
    intros f Hin. repeat (apply elem_of_cons in Hin as [-> | Hin]); try discriminate.
    by apply elem_of_nil in Hin.
  - apply (proj2 (validate_spec_error_order Examples.old_spec) (JStr "2.0"));
      [reflexivity | discriminate | discriminate | reflexivity].
  - apply (proj2 (validate_spec_error_order
                    [("openapi", JFloat 3%float); ("info", JDict []); ("paths", JDict [])])
             (JFloat 3%float)); [reflexivity | discriminate | discriminate].
Defined.

End Validation.

(** ** Endpoint extraction *)
Section Extraction.
Import Parsing Spec.

Lemma make_endpoint_dict (path method : string) (fields : list (string * json)) :
  ∃ ep, make_endpoint path method (JDict fields) = Ok ep
        /\ RawEndpoint.path ep = path /\ RawEndpoint.method ep = upper method.
Proof. unfold make_endpoint. cbn [get bind]. by eexists. Qed.

Lemma make_endpoint_inv (path method : string) (operation : json)
    (ep : RawEndpoint.t) :
  make_endpoint path method operation = Ok ep ->
  (∃ fields, operation = JDict fields)
  /\ RawEndpoint.path ep = path /\ RawEndpoint.method ep = upper method.
Proof.
  destruct operation as [| | | | | |fields]; [done.. |].
  destruct (make_endpoint_dict path method fields) as (ep' & -> & ? & ?).
  intros [= <-]. split; [by eexists | done].
Qed.

Lemma make_endpoint_raise (path method : string) (operation : json) (e : exn) :
  make_endpoint path method operation = Raise e -> e = AttributeError.
Proof.
  destruct operation as [| | | | | |fields]; by intros [= <-].
Qed.

Lemma operations_loop_ok (path : string) (operations : list (string * json))
    (acc eps : list RawEndpoint.t) :
  operations_loop path operations acc = Ok eps ->
  ∃ new, eps = (acc ++ new)%list
    /\ map keyed new
       = map (λ operation : string * json, (path, upper operation.1))
           (filter (λ operation : string * json, is_http_verb operation.1 = true)
              operations)
    /\ ∀ method operation, (method, operation) ∈ operations ->
         is_http_verb method = true -> ∃ fields, operation = JDict fields.
Proof.
  revert acc. induction operations as [|[m op] ops IH]; intros acc H;
    cbn [operations_loop] in H.
  - exists []. rewrite app_nil_r. split; [congruence |]. split; [done |].
    intros ? ? Hin. by apply elem_of_nil in Hin.
  - rewrite filter_cons. cbn [fst]. destruct (is_http_verb m) eqn:Ev.
    + rewrite decide_True by done.
      destruct (make_endpoint path m op) as [ep|] eqn:Ep; cbn [bind] in H; [| done].
      apply make_endpoint_inv in Ep as (Hop & Hp & Hm).
      apply IH in H as (new & -> & Hnew & Hshape).
      exists (ep :: new). split; [by rewrite <- app_assoc |]. split.
      * cbn [map]. unfold keyed at 1. by rewrite Hp, Hm, Hnew.
      * intros m' op' [[= -> ->] | Hin]%elem_of_cons Hv; [done | by eapply Hshape].
    + rewrite decide_False by congruence.
      apply IH in H as (new & -> & Hnew & Hshape).
      exists new. split; [done |]. split; [done |].
      intros m' op' [[= -> ->] | Hin]%elem_of_cons Hv; [congruence | by eapply Hshape].
Qed.

Lemma operations_loop_total (path : string) (operations : list (string * json))
    (acc : list RawEndpoint.t) :
  (∀ method operation, (method, operation) ∈ operations ->
     is_http_verb method = true -> ∃ fields, operation = JDict fields) ->
  ∃ eps, operations_loop path operations acc = Ok eps.
Proof.
  revert acc. induction operations as [|[m op] ops IH]; intros acc H;
    cbn [operations_loop].
  - by eexists.
  - assert (Hrest : ∀ acc', ∃ eps, operations_loop path ops acc' = Ok eps).
    { intros acc'. apply IH. intros m' op' Hin. apply H. by apply list_elem_of_further. }
    destruct (is_http_verb m) eqn:Ev; [| apply Hrest].
    destruct (H m op (list_elem_of_here _ _) Ev) as [fields ->].
    destruct (make_endpoint_dict path m fields) as (ep & -> & _). cbn [bind].
    apply Hrest.
Qed.

Lemma operations_loop_raise (path : string) (operations : list (string * json))
    (acc : list RawEndpoint.t) (e : exn) :
  operations_loop path operations acc = Raise e -> e = AttributeError.
Proof.
  revert acc. induction operations as [|[m op] ops IH]; intros acc H;
    cbn [operations_loop] in H; [done |].
  destruct (is_http_verb m); [| by eapply IH].
  destruct (make_endpoint path m op) as [ep|e'] eqn:Ep; cbn [bind] in H.
  - by eapply IH.
  - apply make_endpoint_raise in Ep. congruence.
Qed.

Lemma paths_loop_ok (paths : list (string * json)) (acc eps : list RawEndpoint.t) :
  paths_loop paths acc = Ok eps ->
  ∃ new, eps = (acc ++ new)%list /\ map keyed new = operations_of paths
         /\ readable_paths paths.
Proof.
  unfold operations_of, readable_paths. revert acc.
  induction paths as [|[p item] paths IH]; intros acc H; cbn [paths_loop] in H.
  - exists []. rewrite app_nil_r. split; [congruence |]. split; [done |].
    intros ? ? Hin. by apply elem_of_nil in Hin.
  - destruct item as [| | | | | |ops]; try done. cbn [items bind] in H.
    destruct (operations_loop p ops acc) as [eps'|] eqn:Eops; cbn [bind] in H; [| done].
    apply operations_loop_ok in Eops as (new1 & -> & Hnew1 & Hshape1).
    apply IH in H as (new2 & -> & Hnew2 & Hshape2).
    exists (new1 ++ new2)%list. split; [by rewrite app_assoc |]. split.
    + cbn [map concat fst snd]. by rewrite map_app, Hnew1, Hnew2.
    + intros p' item' [[= -> ->] | Hin]%elem_of_cons; [by exists ops | by eapply Hshape2].
Qed.

Lemma paths_loop_total (paths : list (string * json)) (acc : list RawEndpoint.t) :
  readable_paths paths -> ∃ eps, paths_loop paths acc = Ok eps.
Proof.
  unfold readable_paths. revert acc.
  induction paths as [|[p item] paths IH]; intros acc H; cbn [paths_loop].
  - by eexists.
  - destruct (H p item (list_elem_of_here _ _)) as (ops & -> & Hops).
    cbn [items bind].
    destruct (operations_loop_total p ops acc Hops) as [eps' ->]. cbn [bind].
    apply IH. intros p' item' Hin. apply (H p'). by apply list_elem_of_further.
Qed.

Lemma paths_loop_raise (paths : list (string * json)) (acc : list RawEndpoint.t)
    (e : exn) :
  paths_loop paths acc = Raise e -> e = AttributeError.
Proof.
  revert acc. induction paths as [|[p item] paths IH]; intros acc H;
    cbn [paths_loop] in H; [done |].
  destruct item as [| | | | | |ops]; try (by injection H as <-). cbn [items bind] in H.
  destruct (operations_loop p ops acc) as [eps'|e'] eqn:Eops; cbn [bind] in H.
  - by eapply IH.
  - apply operations_loop_raise in Eops. congruence.
Qed.

Lemma to_upper_lower (c : ascii) : to_upper (to_lower c) = to_upper c.
Proof.
  destruct c as [[] [] [] [] [] [] [] []]; reflexivity.
Qed.

Lemma upper_lower (s : string) : upper (lower s) = upper s.
Proof.
  induction s as [|c s IH]; [done |]. cbn. by rewrite to_upper_lower, IH.
Qed.

Lemma verb_upper (method : string) :
  is_http_verb method = true -> upper method ∈ map upper http_verbs.
Proof.
  unfold is_http_verb. intros H. apply existsb_exists in H as (v & Hin & Heq).
  apply String.eqb_eq in Heq. rewrite <- upper_lower, Heq.
  apply list_elem_of_fmap. exists v. split; [done | by apply list_elem_of_In].
Qed.

(** X3: the endpoints [parse_endpoints] returns are, by path and method, the
    operations the [paths] mapping declares: for every path in document
    order, every key of the path item that is one of the seven HTTP verbs in
    any letter case, in order, with the method in capitals; every other key
    of a path item is passed over. *)
Theorem parse_endpoints_operations (spec : dict json) (eps : list RawEndpoint.t) :
  parse_endpoints spec = Ok eps ->
  ∃ paths,
    paths_of spec = JDict paths
    /\ map (λ ep, (RawEndpoint.path ep, RawEndpoint.method ep)) eps = operations_of paths
    /\ Forall (λ ep, RawEndpoint.method ep
                     ∈ ["GET"; "POST"; "PUT"; "PATCH"; "DELETE"; "HEAD"; "OPTIONS"])
         eps.
Proof.
  unfold parse_endpoints, paths_of. cbn [get bind].
  destruct (dict_lookup "paths" spec) as [paths|].
  - destruct paths as [| | | | | |paths]; try done. cbn [items bind]. intros H.
    apply paths_loop_ok in H as (new & -> & Hnew & _). cbn [app].
    exists paths. split; [done |]. split; [exact Hnew |].
    apply Forall_forall. intros ep Hin.
    assert (Hk : keyed ep ∈ operations_of paths).
    { rewrite <- Hnew. apply list_elem_of_fmap. by exists ep. }
    unfold operations_of in Hk. apply list_elem_of_In, in_concat in Hk as (l & Hl & Hk).
    apply list_elem_of_In in Hl, Hk.
    apply list_elem_of_fmap in Hl as ([p item] & -> & _). cbn [fst snd] in Hk.
    destruct item as [| | | | | |ops]; try by apply elem_of_nil in Hk.
    apply list_elem_of_fmap in Hk as ([m op] & Heq & Hm).
    apply list_elem_of_filter in Hm as [Hm _]. cbn [fst] in *.
    injection Heq as _ ->. by apply (verb_upper m).
  - cbn [items bind paths_loop]. intros [= <-]. exists []. done.
Qed.

Lemma parse_endpoints_operations_witness :
  ∃ eps,
    parse_endpoints Examples.two_operations = Ok eps
    /\ map (λ ep, (RawEndpoint.path ep, RawEndpoint.method ep)) eps
       = [("/pets", "GET"); ("/pets", "POST")].
Proof.
  destruct (parse_endpoints Examples.two_operations) as [eps|e] eqn:E;
    [| by vm_compute in E].
  exists eps. split; [done |].
  destruct (parse_endpoints_operations Examples.two_operations eps E)
    as (paths & Hpaths & -> & _).
  vm_compute in Hpaths. injection Hpaths as <-. reflexivity.
Defined.

(** X4: [parse_endpoints] returns exactly when [paths], if the document has
    it, is a mapping whose path items are mappings that hold a mapping under
    every key that is an HTTP verb; in every other case it ends in an
    [AttributeError].  What a path item holds under another key is not
    looked at. *)
Theorem parse_endpoints_readable (spec : dict json) :
  ((∃ eps, parse_endpoints spec = Ok eps)
   <-> ∃ paths, paths_of spec = JDict paths /\ readable_paths paths)
  /\ (∀ e, parse_endpoints spec = Raise e -> e = AttributeError).
Proof.
  unfold parse_endpoints, paths_of. cbn [get bind].
  destruct (dict_lookup "paths" spec) as [paths|].
  - destruct paths as [| | | | | |paths]; cbn [items bind];
      try (split; [split; [by intros [? ?] | by intros (? & ? & _)]
                  | by intros e [= <-]]).
    split; [split |].
    + intros [eps H]. apply paths_loop_ok in H as (_ & _ & _ & Hshape). by exists paths.
    + intros (paths' & [= <-] & Hshape). by apply paths_loop_total.
    + intros e. apply paths_loop_raise.
  - cbn [items bind paths_loop]. split; [| done]. split; [| by eexists].
    intros _. exists []. split; [done |]. intros ? ? Hin. by apply elem_of_nil in Hin.
Qed.

End Extraction.

(** ** Values *)
Section Values.

(** Induction on a value, with the property at hand for the items of a
    sequence and the values of a mapping. *)
Lemma json_nested_ind (P : json -> Prop) :
  P JNone -> (∀ b, P (JBool b)) -> (∀ n, P (JInt n)) -> (∀ f, P (JFloat f)) ->
  (∀ s, P (JStr s)) ->
  (∀ items, Forall P items -> P (JList items)) ->
  (∀ entries, Forall (λ entry, P entry.2) entries -> P (JDict entries)) ->
  ∀ v, P v.
Proof.
  intros HNone HBool HInt HFloat HStr HList HDict.
  fix IH 1.
  intros [| b | n | f | s | items | entries];
    [exact HNone | apply HBool | apply HInt | apply HFloat | apply HStr | |].
  - apply HList. induction items as [|item items IHitems]; constructor.
    + apply IH.
    + exact IHitems.
  - apply HDict. induction entries as [|entry entries IHentries]; constructor.
    + apply IH.
    + exact IHentries.
Qed.

Lemma map_result_id {A : Type} (f : A -> result A) (l : list A) :
  Forall (λ x, f x = Ok x) l -> map_result f l = Ok l.
Proof.
  induction 1 as [|x l Hx _ IH]; [done |]. cbn [map_result].
  fold (map_result f). by rewrite Hx, IH.
Qed.

End Values.

(** ** Resolution of a document without references *)
Section ResolutionIdentity.
Import Parser Spec.

Lemma resolve_ref_free (root v : json) :
  has_ref v = false -> resolve_ref v root = Ok v.
Proof.
  induction v as [| | | | | items IH | entries IH] using json_nested_ind;
    try done; cbn [has_ref resolve_ref]; intros Hfree.
  - rewrite map_result_id; [done |].
    apply Forall_forall. intros item Hin.
    apply (proj1 (Forall_forall _ _) IH item Hin).
    destruct (has_ref item) eqn:E; [| done].
    assert (existsb has_ref items = true); [| congruence].
    apply existsb_exists. exists item. split; [by apply list_elem_of_In | done].
  - destruct (dict_lookup "$ref" entries); [done |].
    unfold map_values. rewrite map_result_id; [done |].
    apply Forall_forall. intros [k v] Hin. cbn [fst snd].
    pose proof (proj1 (Forall_forall _ _) IH (k, v) Hin) as Hv. cbn [snd] in Hv.
    rewrite Hv; [done |]. destruct (has_ref v) eqn:E; [| done].
    assert (existsb (λ entry, has_ref entry.2) entries = true); [| congruence].
    apply existsb_exists. exists (k, v). split; [by apply list_elem_of_In | done].
Qed.

(** X5: a document in which no mapping has a ["$ref"] key is resolved to
    itself: [resolve_refs] returns it unchanged and raises nothing. *)
Theorem resolve_refs_without_references (spec : json) :
  has_ref spec = false -> resolve_refs spec = Ok spec.
Proof. apply resolve_ref_free. Qed.

Lemma resolve_refs_without_references_witness :
  resolve_refs Examples.petstore = Ok Examples.petstore.
Proof. apply resolve_refs_without_references. reflexivity. Defined.

End ResolutionIdentity.

(** ** Shape of the derived cases *)
Section DerivedCases.
Import Parser Spec.

Lemma case_of_endpoint (ep : Endpoint) (k : string) (d : dict json) (c : TestCase.t) :
  success_case ep k d = Ok c \/ error_case ep k d = Ok c ->
  TestCase.method c = method ep /\ TestCase.path c = path ep.
Proof.
  unfold success_case, error_case.
  destruct (int k) as [n|]; cbn [bind]; [| by intros [|]].
  destruct (response_schema_of d) as [s|]; cbn [bind]; [| by intros [|]].
  by intros [[= <-] | [= <-]].
Qed.

(** X6: every case derived for an endpoint carries the method and the path of
    that endpoint; a success case can only be the first case of the list; and
    there are at most as many cases as error responses plus one. *)
Theorem derived_cases_shape (ep : Endpoint) (cases : list TestCase.t) :
  get_endpoint_test_cases ep = Ok cases ->
  Forall (λ c, TestCase.method c = method ep /\ TestCase.path c = path ep) cases
  /\ (∀ i c, cases !! i = Some c -> TestCase.test_type c = "success" -> i = 0%nat)
  /\ (length cases <= 1 + length (error_entries (responses ep)))%nat.
Proof.
  intros H. destruct (derivation_inv ep cases H) as (init & new & -> & Hnew & Hinit).
  assert (Hnew_ep : Forall (λ c, TestCase.method c = method ep
                                 /\ TestCase.path c = path ep) new).
  { clear Hinit H. induction Hnew as [|c entry new entries Hc _ IH]; constructor; [| done].
    eapply case_of_endpoint. by right. }
  assert (Hnew_err : Forall (λ c, TestCase.test_type c = "error") new).
  { clear Hinit H Hnew_ep.
    induction Hnew as [|c entry new entries Hc _ IH]; constructor; [| done].
    by apply error_case_inv in Hc as (_ & _ & ?). }
  pose proof (Forall2_length _ _ _ Hnew) as Hlen.
  destruct Hinit as [[-> _] | (k & d & c0 & _ & _ & Hc0 & ->)]; cbn [app].
  - split_and!; [done | | lia].
    intros i c Hi Ht.
    pose proof (proj1 (Forall_forall _ _) Hnew_err c) as Herr.
    rewrite Herr in Ht by (by eapply list_elem_of_lookup_2). done.
  - split_and!.
    + constructor; [| done]. eapply case_of_endpoint. by left.
    + intros [|i] c Hi Ht; [done |]. cbn in Hi.
      pose proof (proj1 (Forall_forall _ _) Hnew_err c) as Herr.
      rewrite Herr in Ht by (by eapply list_elem_of_lookup_2). done.
    + cbn [length]. lia.
Qed.

Lemma derived_cases_shape_witness :
  ∃ cases,
    get_endpoint_test_cases Examples.pets_ok = Ok cases
    /\ Forall (λ c, TestCase.method c = "GET" /\ TestCase.path c = "/pets") cases
    /\ (length cases <= 2)%nat.
Proof.
  eexists. split; [reflexivity |].
  destruct (derived_cases_shape Examples.pets_ok _ eq_refl) as (Hep & _ & Hlen).
  split; [exact Hep | exact Hlen].
Defined.

End DerivedCases.

(** ** Names and path parameters *)
Section Names.
Import Templates Spec.

Lemma append_cons (c : ascii) (s t : string) : String c s +:+ t = String c (s +:+ t).
Proof. reflexivity. Qed.

Lemma append_empty_r (s : string) : s +:+ "" = s.
Proof. induction s as [|c s IH]; [done |]. by rewrite append_cons, IH. Qed.

Lemma has_char_append (c : ascii) (s t : string) :
  has_char c (s +:+ t) = has_char c s || has_char c t.
Proof.
  induction s as [|d s IH]; [done |].
  rewrite append_cons. cbn [has_char]. by rewrite IH, orb_assoc.
Qed.

Lemma split_aux_parts (sep : ascii) (cur s : string) :
  has_char sep cur = false ->
  Forall (λ part, has_char sep part = false) (split_aux sep cur s).
Proof.
  revert cur. induction s as [|c s IH]; intros cur Hcur; cbn [split_aux].
  - by constructor.
  - destruct (Ascii.eqb c sep) eqn:E.
    + constructor; [done |]. by apply IH.
    + apply IH. rewrite has_char_append, Hcur. cbn. by rewrite E.
Qed.

Lemma split_aux_whole (sep : ascii) (cur s : string) :
  has_char sep s = false -> split_aux sep cur s = [cur +:+ s].
Proof.
  revert cur. induction s as [|c s IH]; intros cur Hs; cbn [split_aux].
  - by rewrite append_empty_r.
  - cbn [has_char] in Hs. apply orb_false_iff in Hs as [-> Hs].
    rewrite IH by done. by rewrite <- append_assoc_r.
Qed.

Lemma case_keeps_underscore (c : ascii) :
  Ascii.eqb (to_upper c) "_" = Ascii.eqb c "_"
  /\ Ascii.eqb (to_lower c) "_" = Ascii.eqb c "_".
Proof. destruct c as [[] [] [] [] [] [] [] []]; split; reflexivity. Qed.

Lemma title_aux_underscore (prev : bool) (s : string) :
  has_char "_" (title_aux prev s) = has_char "_" s.
Proof.
  revert prev. induction s as [|c s IH]; intros prev; [done |].
  cbn [title_aux has_char]. rewrite IH.
  destruct (case_keeps_underscore c) as [Hu Hl]. destruct prev; by rewrite ?Hu, ?Hl.
Qed.

Lemma concat_titles_underscore (parts : list string) :
  Forall (λ part, has_char "_" part = false) parts ->
  has_char "_" (String.concat "" (map title parts)) = false.
Proof.
  induction 1 as [|part parts Hpart _ IH]; [done |].
  cbn [map String.concat]. destruct (map title parts) as [|next others] eqn:E.
  - unfold title. by rewrite title_aux_underscore.
  - change ("" +:+ ?x) with x. rewrite has_char_append, IH.
    unfold title. by rewrite title_aux_underscore, Hpart.
Qed.

(** X7: the result of [_to_camel_case] has no underscore in it, and a text
    without underscores is returned as it is. *)
Theorem camel_case_underscores (text : string) :
  has_char "_" (_to_camel_case text) = false
  /\ (has_char "_" text = false -> _to_camel_case text = text).
Proof.
  unfold _to_camel_case, split. split.
  - pose proof (split_aux_parts "_" "" text eq_refl) as Hparts.
    destruct (split_aux "_" "" text) as [|first others]; [done |].
    apply Forall_cons in Hparts as [Hfirst Hothers].
    by rewrite has_char_append, Hfirst, concat_titles_underscore.
  - intros Hnone. rewrite split_aux_whole by done. cbn [map String.concat].
    change ("" +:+ text) with text. apply append_empty_r.
Qed.

Lemma camel_case_underscores_witness :
  _to_camel_case "operationId" = "operationId"
  /\ has_char "_" (_to_camel_case "list_all_PETS") = false.
Proof.
  split.
  - apply (proj2 (camel_case_underscores "operationId")). reflexivity.
  - apply (proj1 (camel_case_underscores "list_all_PETS")).
Defined.

Lemma scan_params_names (inside : option string) (path : string) :
  (∀ name, inside = Some name -> has_char "}" name = false) ->
  Forall (λ param, param ≠ "" /\ has_char "}" param = false) (scan_params inside path).
Proof.
  revert inside. induction path as [|c path IH]; intros inside Hin; [constructor |].
  cbn [scan_params]. destruct inside as [name|].
  - destruct (Ascii.eqb c "}") eqn:Ec.
    + destruct (String.eqb_spec name ""); [apply IH; by intros name' [= <-] |].
      constructor; [split; [done | by apply Hin] | apply IH; by intros name' [= <-]].
    + apply IH. intros name' [= <-]. rewrite has_char_append, (Hin name eq_refl).
      cbn. by rewrite Ec.
  - destruct (Ascii.eqb c "{"); apply IH; by intros name [= <-].
Qed.

Lemma scan_params_outside (pre rest : string) :
  has_char "{" pre = false ->
  scan_params None (pre +:+ rest) = scan_params None rest.
Proof.
  induction pre as [|c pre IH]; [done |]. cbn [has_char].
  intros [Hc Hpre]%orb_false_iff. rewrite append_cons. cbn [scan_params].
  rewrite Hc. by apply IH.
Qed.

Lemma scan_params_inside (acc name rest : string) :
  has_char "}" name = false ->
  scan_params (Some acc) (name +:+ rest) = scan_params (Some (acc +:+ name)) rest.
Proof.
  revert acc. induction name as [|c name IH]; intros acc.
  - intros _. by rewrite append_empty_r.
  - cbn [has_char]. intros [Hc Hname]%orb_false_iff. rewrite append_cons.
    cbn [scan_params]. rewrite Hc, IH by done. by rewrite <- append_assoc_r.
Qed.

(** X8: every parameter [_extract_path_params] returns is a non-empty name
    without a closing brace; and a path that goes on, after a part without an
    opening brace, with such a name between braces gives that name followed
    by the parameters of what comes after it. *)
Theorem path_params_names :
  (∀ path,
     Forall (λ param, param ≠ "" /\ has_char "}" param = false)
       (_extract_path_params path))
  /\ (∀ before name after,
        has_char "{" before = false -> name ≠ "" -> has_char "}" name = false ->
        _extract_path_params (before +:+ "{" +:+ name +:+ "}" +:+ after)
        = name :: _extract_path_params after).
Proof.
  unfold _extract_path_params. split.
  - intros path. by apply scan_params_names.
  - intros before name after Hbefore Hname Hclose.
    rewrite scan_params_outside by done.
    rewrite append_cons. cbn [scan_params]. change ("" +:+ ?x) with x.
    rewrite scan_params_inside by done. change ("" +:+ name) with name.
    rewrite append_cons. cbn [scan_params]. change ("" +:+ after) with after.
    by destruct (String.eqb_spec name "").
Qed.

Lemma path_params_names_witness :
  _extract_path_params "/users/{user_id}/posts/{post_id}"
  = "user_id" :: _extract_path_params "/posts/{post_id}".
Proof.
  exact (proj2 path_params_names "/users/" "user_id" "/posts/{post_id}"
           eq_refl ltac:(discriminate) eq_refl).
Defined.

Lemma to_lower_not_upper (c : ascii) : is_upper (to_lower c) = false.
Proof. destruct c as [[] [] [] [] [] [] [] []]; reflexivity. Qed.

Lemma lower_no_upper (s : string) : has_upper (lower s) = false.
Proof.
  induction s as [|c s IH]; [done |]. cbn. by rewrite to_lower_not_upper, IH.
Qed.

Lemma lower_fixed (s : string) : has_upper s = false -> lower s = s.
Proof.
  induction s as [|c s IH]; [done |]. cbn [has_upper lower].
  intros [Hc Hs]%orb_false_iff. unfold to_lower. by rewrite Hc, IH.
Qed.

Lemma sub_word_start_fixed (in_run : bool) (s : string) :
  has_upper s = false -> sub_word_start in_run s = s.
Proof.
  revert in_run. induction s as [|c s IH]; intros in_run; [done |].
  cbn [has_upper]. intros [Hc Hs]%orb_false_iff. cbn [sub_word_start].
  destruct (in_run && is_lower c); [by rewrite IH |].
  destruct s as [|u [|l s']]; try by rewrite IH.
  cbn [has_upper] in Hs. apply orb_false_iff in Hs as [Hu Hs'].
  rewrite Hu, andb_false_r. cbn [andb]. rewrite IH; [done |].
  cbn [has_upper]. by rewrite Hu.
Qed.

Lemma sub_case_change_fixed (s : string) :
  has_upper s = false -> sub_case_change s = s.
Proof.
  induction s as [|c s IH]; [done |].
  cbn [has_upper]. intros [Hc Hs]%orb_false_iff. cbn [sub_case_change].
  destruct s as [|u s']; [done |].
  pose proof Hs as Hs'. cbn [has_upper] in Hs'. apply orb_false_iff in Hs' as [Hu _].
  rewrite Hu, andb_false_r. by rewrite IH.
Qed.

(** X9: the result of [_to_snake_case] has none of the capital letters A
    to Z in it; an ASCII text without capital letters is returned as it is;
    and converting twice gives what converting once gives. *)
Theorem snake_case_fixed_point (text : string) :
  has_upper (_to_snake_case text) = false
  /\ (is_ascii text = true -> has_upper text = false -> _to_snake_case text = text)
  /\ _to_snake_case (_to_snake_case text) = _to_snake_case text.
Proof.
  assert (Hfixed : ∀ t, has_upper t = false -> _to_snake_case t = t).
  { intros t Ht. unfold _to_snake_case.
    by rewrite sub_word_start_fixed, sub_case_change_fixed, lower_fixed. }
  split_and!.
  - apply lower_no_upper.
  - intros _. apply Hfixed.
  - apply Hfixed, lower_no_upper.
Qed.

End Names.

(** ** What the synthesis leaves out *)
Section SynthesisKeys.
Import Templates Spec.

Lemma dict_lookup_set {V : Type} (k k' : string) (v : V) (d : dict V) :
  dict_lookup k' (dict_set k v d) ≠ None -> k' = k \/ dict_lookup k' d ≠ None.
Proof.
  destruct (String.eqb_spec k k') as [-> | Hne]; [by left |].
  rewrite dict_lookup_set_ne by done. by right.
Qed.

Lemma fields_loop_keys (recurse : json -> result (dict json))
    (fields : list (string * json)) (acc data : dict json) (k : string) :
  fields_loop recurse fields acc = Ok data -> dict_lookup k data ≠ None ->
  dict_lookup k acc ≠ None \/ k ∈ map fst fields.
Proof.
  revert acc. induction fields as [|[n fs] fields IH]; intros acc H Hk.
  - cbn in H. injection H as <-. by left.
  - cbn [map fst]. apply fields_loop_step in H as [[v H] | H].
    + destruct (IH _ H Hk) as [Hset | Hin]; [| right; by apply list_elem_of_further].
      apply dict_lookup_set in Hset as [-> | Hacc]; [right; apply list_elem_of_here |].
      by left.
    + destruct (IH _ H Hk) as [Hacc | Hin]; [by left |].
      right. by apply list_elem_of_further.
Qed.

Lemma fields_loop_skips (recurse : json -> result (dict json))
    (fields : list (string * json)) (acc data : dict json)
    (n : string) (fs ty : json) :
  fields_loop recurse fields acc = Ok data -> dict_wf fields ->
  (n, fs) ∈ fields -> get fs "type" (JStr "string") = Ok ty ->
  has_literal ty = false ->
  dict_lookup n data = dict_lookup n acc.
Proof.
  unfold dict_wf, has_literal. revert acc.
  induction fields as [|[n0 fs0] fields IH]; intros acc H Hwf Hin Hty Hnone.
  - by apply elem_of_nil in Hin.
  - cbn [map fst] in Hwf. apply NoDup_cons in Hwf as [Hfresh Hwf].
    apply elem_of_cons in Hin as [[= <- <-] | Hin].
    + cbn [fields_loop] in H. rewrite Hty in H. cbn [bind] in H.
      repeat (apply orb_false_iff in Hnone as [Hnone ?]).
      repeat match goal with E : is_str ty _ = false |- _ => rewrite E in H; clear E end.
      by apply (fields_loop_other _ _ _ _ n H).
    + assert (Hne : n0 ≠ n).
      { intros ->. apply Hfresh. apply list_elem_of_fmap. by exists (n, fs). }
      apply fields_loop_step in H as [[v H] | H].
      * rewrite (IH _ H Hwf Hin Hty Hnone). by apply dict_lookup_set_ne.
      * by apply (IH _ H Hwf Hin Hty Hnone).
Qed.

(** X10: the instance synthesized for a schema has no field that the
    schema's [properties] do not declare, and none for a declared property
    whose type is not one of string, integer, number, boolean, array and
    object; and it is the same for two schemas with the same [properties],
    whatever else they hold ([required], [enum], [format], ...). *)
Theorem synthesis_declared_only :
  (∀ entries fields data,
     dict_lookup "properties" entries = Some (JDict fields) ->
     _generate_test_data (JDict entries) = Ok data ->
     (∀ name, dict_lookup name data ≠ None -> name ∈ map fst fields)
     /\ (dict_wf fields ->
         ∀ name field_schema field_type,
           (name, field_schema) ∈ fields ->
           get field_schema "type" (JStr "string") = Ok field_type ->
           has_literal field_type = false ->
           dict_lookup name data = None))
  /\ (∀ entries entries',
        entries ≠ [] -> entries' ≠ [] ->
        dict_lookup "properties" entries = dict_lookup "properties" entries' ->
        _generate_test_data (JDict entries) = _generate_test_data (JDict entries')).
Proof.
  split.
  - intros entries fields data Hprops Hdata.
    rewrite generate_unfold, Hprops in Hdata by (by destruct entries). split.
    + intros name Hname.
      by destruct (fields_loop_keys _ _ _ _ name Hdata Hname) as [Hacc | Hin].
    + intros Hwf name fs ty Hin Hty Hnone.
      by rewrite (fields_loop_skips _ _ _ _ name fs ty Hdata Hwf Hin Hty Hnone).
  - intros entries entries' Hne Hne' Hsame. by rewrite !generate_unfold, Hsame.
Qed.

Lemma synthesis_declared_only_witness :
  dict_lookup "deleted" Examples.account_instance = None
  /\ (∀ name, dict_lookup name Examples.account_instance ≠ None ->
        name ∈ map fst Examples.account_fields).
Proof.
  destruct (proj1 synthesis_declared_only Examples.account_entries
              Examples.account_fields Examples.account_instance eq_refl eq_refl)
    as [Hdeclared Hskipped].
  split; [| exact Hdeclared].
  apply (Hskipped) with (field_schema := JDict [("type", JStr "null")])
                        (field_type := JStr "null"); [| | reflexivity | reflexivity].
  - unfold dict_wf. apply (bool_decide_unpack _). vm_compute. exact I.
  - do 7 apply list_elem_of_further. apply list_elem_of_here.
Defined.

End SynthesisKeys.

(** ** The template context and the derived cases *)
Section Context.
Import Parser Templates Spec.

Lemma list_filter_stdpp {A : Type} (f : A -> bool) (l : list A) :
  List.filter f l = filter (λ x, f x = true) l.
Proof.
  induction l as [|x l IH]; [done |]. cbn [List.filter]. rewrite filter_cons.
  destruct (f x) eqn:E; [rewrite decide_True by done | rewrite decide_False by done];
    by rewrite IH.
Qed.

(** X11: the context built for the templates and the cases derived for the
    same endpoint agree: there are as many error cases as entries in the
    context's [error_responses], and a success case only when its
    [success_responses] are not empty. *)
Theorem context_agrees_with_cases (ep : Endpoint) (api_config : dict json)
    (cases : list TestCase.t) :
  get_endpoint_test_cases ep = Ok cases ->
  let context := create_endpoint_context ep api_config in
  length (error_cases cases) = length (error_responses context)
  /\ (length (success_cases cases) <= 1)%nat
  /\ (success_responses context = [] -> success_cases cases = []).
Proof.
  intros H. cbn zeta. cbn [create_endpoint_context error_responses success_responses].
  destruct (derivation_inv ep cases H) as (init & new & -> & Hnew & Hinit).
  destruct (new_cases_error ep new _ Hnew) as [Hs He].
  pose proof (Forall2_length _ _ _ Hnew) as Hlen.
  unfold success_cases, error_cases, error_entries, is_error_code in *.
  rewrite !list_filter_stdpp, !filter_app, Hs, He, app_nil_r.
  destruct Hinit as [[-> _] | (k & d & c0 & Hfirst & _ & Hc0 & ->)].
  - rewrite !filter_nil. cbn [app length]. split_and!; [exact Hlen | lia | done].
  - apply success_case_inv in Hc0 as (_ & _ & Ht).
    assert (Hf1 : filter (λ c, TestCase.test_type c = "error") [c0] = []).
    { rewrite filter_cons, Ht, filter_nil. by rewrite decide_False. }
    assert (Hf2 : filter (λ c, TestCase.test_type c = "success") [c0] = [c0]).
    { rewrite filter_cons, Ht, filter_nil. by rewrite decide_True. }
    rewrite Hf1, Hf2. cbn [app length]. split_and!; [exact Hlen | lia |].
    intros Hempty. apply first_2xx_elem in Hfirst as [Hin H2].
    assert (Hk : (k, d) ∈ filter (λ x : string * list (string * json),
                                    startswith x.1 "2" = true) (responses ep))
      by (by apply list_elem_of_filter).
    rewrite Hempty in Hk. by apply elem_of_nil in Hk.
Qed.

Lemma context_agrees_with_cases_witness :
  ∃ cases,
    get_endpoint_test_cases Examples.pets_ok = Ok cases
    /\ length (error_cases cases)
       = length (error_responses (create_endpoint_context Examples.pets_ok [])).
Proof.
  eexists. split; [reflexivity |].
  apply (context_agrees_with_cases Examples.pets_ok [] _ eq_refl).
Defined.

End Context.

(** ** Grouping of the endpoints by tag *)
Section Grouping.
Import Parser Generator Spec.

Lemma dict_lookup_None {V : Type} (k : string) (d : dict V) :
  dict_lookup k d = None <-> k ∉ map fst d.
Proof.
  induction d as [|[k' v] d IH]; cbn [dict_lookup map fst].
  - split; [intros _; apply not_elem_of_nil | done].
  - rewrite not_elem_of_cons. destruct (String.eqb_spec k' k) as [-> | Hne].
    + split; [done | by intros [? _]].
    + rewrite IH. split; [by intros ? | by intros [_ ?]]. 
Qed.

Lemma dict_set_wf {V : Type} (k : string) (v : V) (d : dict V) :
  dict_wf d -> dict_wf (dict_set k v d).
Proof.
  unfold dict_wf. induction d as [|[k' v'] d IH]; cbn [dict_set map fst].
  - intros _. apply NoDup_singleton.
  - intros [Hfresh Hd]%NoDup_cons. destruct (String.eqb_spec k' k) as [-> | Hne].
    + cbn [map fst]. by apply NoDup_cons.
    + cbn [map fst]. apply NoDup_cons. split; [| by apply IH].
      intros Hin. apply Hfresh. clear IH Hd Hfresh.
      induction d as [|[k0 v0] d IH]; cbn [dict_set map fst] in *.
      * apply elem_of_cons in Hin as [-> | Hin]; [done | by apply elem_of_nil in Hin].
      * destruct (String.eqb k0 k); cbn [map fst] in Hin;
          apply elem_of_cons in Hin as [-> | Hin].
        -- done.
        -- by apply list_elem_of_further.
        -- apply list_elem_of_here.
        -- apply list_elem_of_further. by apply IH.
Qed.

Lemma extended_app (group : option (list Endpoint)) (l1 l2 : list Endpoint) :
  extended (extended group l1) l2 = extended group (l1 ++ l2).
Proof.
  destruct l1 as [|x l1]; [done |]. destruct l2 as [|y l2].
  - by rewrite app_nil_r.
  - cbn [extended app]. by rewrite <- app_assoc.
Qed.

Lemma add_to_group_lookup (tag t : string) (ep : Endpoint)
    (groups : dict (list Endpoint)) :
  dict_lookup t (add_to_group tag ep groups)
  = extended (dict_lookup t groups) (if decide (tag = t) then [ep] else []).
Proof.
  unfold add_to_group. destruct (decide (tag = t)) as [-> | Hne].
  - destruct (dict_lookup t groups); by rewrite dict_lookup_set_eq.
  - destruct (dict_lookup tag groups); by rewrite dict_lookup_set_ne.
Qed.

Lemma add_to_group_wf (tag : string) (ep : Endpoint) (groups : dict (list Endpoint)) :
  dict_wf groups -> dict_wf (add_to_group tag ep groups).
Proof. unfold add_to_group. destruct (dict_lookup tag groups); apply dict_set_wf. Qed.

Lemma tags_loop_lookup (ep : Endpoint) (ts : list string) (t : string)
    (groups : dict (list Endpoint)) :
  dict_lookup t (tags_loop ep ts groups)
  = extended (dict_lookup t groups)
      (replicate (length (filter (λ t', t' = t) ts)) ep).
Proof.
  revert groups. induction ts as [|tag ts IH]; intros groups; [done |].
  cbn [tags_loop]. rewrite IH, add_to_group_lookup, extended_app, filter_cons.
  by destruct (decide (tag = t)).
Qed.

Lemma tags_loop_wf (ep : Endpoint) (ts : list string) (groups : dict (list Endpoint)) :
  dict_wf groups -> dict_wf (tags_loop ep ts groups).
Proof.
  revert groups. induction ts as [|tag ts IH]; intros groups Hwf; [done |].
  cbn [tags_loop]. by apply IH, add_to_group_wf.
Qed.

Lemma group_loop_lookup (endpoints : list Endpoint) (t : string)
    (groups : dict (list Endpoint)) :
  dict_lookup t (group_loop endpoints groups)
  = extended (dict_lookup t groups) (tagged t endpoints).
Proof.
  unfold tagged. revert groups.
  induction endpoints as [|ep endpoints IH]; intros groups; [done |].
  cbn [group_loop map concat]. by rewrite IH, tags_loop_lookup, extended_app.
Qed.

Lemma group_loop_wf (endpoints : list Endpoint) (groups : dict (list Endpoint)) :
  dict_wf groups -> dict_wf (group_loop endpoints groups).
Proof.
  revert groups. induction endpoints as [|ep endpoints IH]; intros groups Hwf; [done |].
  cbn [group_loop]. by apply IH, tags_loop_wf.
Qed.

Lemma occurrences_once (t : string) (ts : list string) (ep : Endpoint) :
  NoDup ts ->
  replicate (length (filter (λ t', t' = t) ts)) ep = if decide (t ∈ ts) then [ep] else [].
Proof.
  induction 1 as [|tag ts Hfresh _ IH]; [done |]. rewrite filter_cons.
  destruct (decide (tag = t)) as [-> | Hne].
  - rewrite decide_True by apply list_elem_of_here. cbn [length replicate].
    rewrite IH, decide_False; done.
  - rewrite IH. destruct (decide (t ∈ ts)) as [Hin | Hout].
    + rewrite decide_True; [done | by apply list_elem_of_further].
    + rewrite decide_False; [done |]. by intros [-> | ?]%elem_of_cons.
Qed.

(** X12: in the grouping of [_generate_template_tests] every tag has one
    group; the group of a tag holds, in their order, the endpoints that
    carry the tag ("default" for an endpoint without tags), once per
    occurrence of the tag in the endpoint's tags; a tag that no endpoint
    carries has no group, so no group is empty.  When no endpoint repeats a
    tag, the group of a tag is the list of the endpoints filtered by the
    tag. *)
Theorem grouping_by_tag (endpoints : list Endpoint) :
  dict_wf (group_by_tag endpoints)
  /\ (∀ tag,
        dict_lookup tag (group_by_tag endpoints)
        = match tagged tag endpoints with
          | [] => None
          | group => Some group
          end)
  /\ ((∀ ep, ep ∈ endpoints -> NoDup (tags ep)) ->
      ∀ tag, tagged tag endpoints = filter (λ ep, tag ∈ tags_or_default ep) endpoints).
Proof.
  split_and!.
  - by apply group_loop_wf, NoDup_nil.
  - intros tag. unfold group_by_tag. rewrite group_loop_lookup. cbn [dict_lookup].
    by destruct (tagged tag endpoints).
  - intros Hnodup tag. unfold tagged.
    induction endpoints as [|ep endpoints IH]; [done |].
    cbn [map concat]. rewrite filter_cons, IH.
    + rewrite occurrences_once.
      * by destruct (decide (tag ∈ tags_or_default ep)).
      * unfold tags_or_default. pose proof (Hnodup ep (list_elem_of_here _ _)) as Hep.
        destruct (tags ep); [apply NoDup_singleton | done].
    + intros ep' Hin. apply Hnodup. by apply list_elem_of_further.
Qed.

Lemma grouping_by_tag_witness :
  group_by_tag Examples.tagged_endpoints
  = [("pets", [Examples.tagged_endpoint "/pets" ["pets"];
               Examples.tagged_endpoint "/pets/{id}/owner" ["pets"; "owners"]]);
     ("default", [Examples.tagged_endpoint "/health" []]);
     ("owners", [Examples.tagged_endpoint "/pets/{id}/owner" ["pets"; "owners"]])]
  /\ tagged "pets" Examples.tagged_endpoints
     = filter (λ ep, "pets" ∈ tags_or_default ep) Examples.tagged_endpoints.
Proof.
  split; [reflexivity |].
  apply (proj2 (proj2 (grouping_by_tag Examples.tagged_endpoints))).
  intros ep Hin. unfold Examples.tagged_endpoints in Hin.
  repeat (apply elem_of_cons in Hin as [-> | Hin]);
    [cbn; apply (bool_decide_unpack _); vm_compute; exact I .. |
     by apply elem_of_nil in Hin].
Defined.

End Grouping.

(** ** One run of the runner *)
Section Runs.
Import Executor Spec.

(** X13: whatever the outside does, [_run_single_test] returns a result for
    the file it was given, in which [success] holds exactly when the exit
    code is 0; a successful result carries no error message and comes from a
    run of the runner that ended with return code 0 after a version check
    that did; a failed result always carries an error message. *)
Theorem run_single_test_outcome (test_file : Path) (timeout : Z) (verbose : bool)
    (env : run_env) :
  let result := (_run_single_test test_file timeout verbose env).1 in
  TestResult.test_file result = path_str test_file
  /\ (TestResult.success result = true <-> TestResult.exit_code result = 0)
  /\ (TestResult.success result = true ->
      TestResult.error_message result = None
      /\ (∃ out err, bats_version env = Completed 0 out err)
      /\ ∃ out err, bats_run env = Completed 0 out err
                    /\ TestResult.output result = out)
  /\ (TestResult.success result = false ->
      ∃ message, TestResult.error_message result = Some message).
Proof.
  unfold _run_single_test, run_body, _check_bats_available.
  destruct (bats_version env) as [rc out err|e] eqn:Hv; cbn [fst snd].
  - destruct (Z.eqb_spec rc 0) as [-> | Hrc]; cbn [fst snd].
    + destruct (bats_run env) as [rc' out' err'|e] eqn:Hr; cbn [fst snd].
      * cbn [TestResult.test_file TestResult.success TestResult.exit_code
               TestResult.error_message TestResult.output].
        destruct (Z.eqb_spec rc' 0) as [-> | Hrc'].
        -- split_and!; [done | done | | done]. intros _. split_and!; by eauto.
        -- split_and!; [done | split; [done | by intros ?] | done | by eauto].
      * destruct e; cbn; split_and!; try done; by eauto.
    + cbn. split_and!; try done; by eauto.
  - destruct e; cbn; split_and!; try done; by eauto.
Qed.

(** X14: when the version check of the runner ends with a return code other
    than 0, or ends in a [FileNotFoundError] or a [CalledProcessError],
    [_run_single_test] returns a failed result with exit code 1 and the
    message that BATS is not installed; when the check ends in another
    exception (a start refused for lack of permission, say), the failed
    result has the text of that exception, or the timeout message for a
    [TimeoutExpired].  Either way the version check is the only sub-process
    of the run and nothing is printed, also in verbose mode: the runner is
    never started on the file. *)
Theorem runner_unavailable (test_file : Path) (timeout : Z) (verbose : bool)
    (env : run_env) :
  ((_check_bats_available env).1 = inr false
   <-> (∃ returncode out err,
          bats_version env = Completed returncode out err /\ returncode ≠ 0)
       \/ (∃ text, bats_version env = Failed (FileNotFound text))
       \/ (∃ text, bats_version env = Failed (CalledProcessError text)))
  /\ ((_check_bats_available env).1 = inr false ->
      _run_single_test test_file timeout verbose env
      = ({| TestResult.test_file := path_str test_file;
            TestResult.success := false;
            TestResult.output := "";
            TestResult.duration := PrimFloat.sub (time_end env) (time_start env);
            TestResult.exit_code := 1;
            TestResult.error_message :=
              Some "BATS is not installed or not available in PATH" |},
         [Spawn ["bats"; "--version"] None None]))
  /\ (∀ e, (_check_bats_available env).1 = inl e ->
           _run_single_test test_file timeout verbose env
           = ({| TestResult.test_file := path_str test_file;
                 TestResult.success := false;
                 TestResult.output := "";
                 TestResult.duration := PrimFloat.sub (time_end env) (time_start env);
                 TestResult.exit_code := 1;
                 TestResult.error_message :=
                   Some (match e with
                         | TimeoutExpired _ =>
                             "Test timed out after " +:+ str_of_Z timeout +:+ " seconds"
                         | _ => exc_text e
                         end) |},
              [Spawn ["bats"; "--version"] None None])).
Proof.
  split_and!.
  - unfold _check_bats_available. cbn [fst].
    destruct (bats_version env) as [rc out err|e].
    + destruct (Z.eqb_spec rc 0) as [-> | Hrc].
      * split; [done |].
        intros [(? & ? & ? & [= <- _ _] & ?) | [[? ?] | [? ?]]]; done.
      * split; [| done]. intros _. left. by exists rc, out, err.
    + destruct e as [t|t|t|t|t];
        try (split; [done | by intros [(? & ? & ? & ? & _) | [[? ?] | [? ?]]]]).
      * split; [| done]. intros _. right. left. by exists t.
      * split; [| done]. intros _. right. right. by exists t.
  - unfold _run_single_test, run_body.
    destruct (_check_bats_available env) as [available checked] eqn:E.
    cbn [fst]. intros ->. unfold _check_bats_available in E.
    by injection E as _ <-.
  - intros e. unfold _run_single_test, run_body.
    destruct (_check_bats_available env) as [available checked] eqn:E.
    cbn [fst]. intros ->. unfold _check_bats_available in E.
    injection E as _ <-. by destruct e.
Qed.

Lemma runner_unavailable_witness :
  (_check_bats_available Examples.no_bats).1 = inr false
  /\ TestResult.error_message
       (_run_single_test ["out"; "a.bats"] 300 true Examples.no_bats).1
     = Some "BATS is not installed or not available in PATH"
  /\ spawns (_run_single_test ["out"; "a.bats"] 300 true Examples.no_bats).2
     = [["bats"; "--version"]]
  /\ TestResult.error_message
       (_run_single_test ["out"; "a.bats"] 300 true Examples.locked_bats).1
     = Some "[Errno 13] Permission denied: 'bats'".
Proof.
  destruct (runner_unavailable ["out"; "a.bats"] 300 true Examples.no_bats)
    as (_ & Hmissing & _).
  destruct (runner_unavailable ["out"; "a.bats"] 300 true Examples.locked_bats)
    as (_ & _ & Hother).
  split; [reflexivity |].
  rewrite (Hmissing eq_refl).
  by rewrite (Hother (OtherException "[Errno 13] Permission denied: 'bats'") eq_refl).
Defined.

(** X15: when no unit of work ends outside the handlers of
    [_run_single_test] and every line that is printed is written, the
    sequential mode returns and the bounded-parallel mode returns the same
    results in the order of completion: the same results up to order, and
    the same list when the units complete in the order of submission. *)
Theorem parallel_agrees_with_sequential (workers : nat -> worker_env)
    (completion : list nat) (test_files : list Path) (max_parallel timeout : Z)
    (verbose : bool) :
  0 < max_parallel ->
  completion ≡ₚ seq 0 (length test_files) ->
  (∀ i, fault (workers i) = None) ->
  prints_succeed verbose (λ i, run (workers i)) (length test_files) ->
  ∃ results events in_order events',
    _run_parallel_tests workers completion test_files max_parallel timeout verbose
    = Ok (results, events)
    /\ _run_sequential_tests (λ i, run (workers i)) test_files timeout verbose
       = inr (in_order, events')
    /\ results ≡ₚ in_order
    /\ (completion = seq 0 (length test_files) -> results = in_order).
Proof.
  intros Hmax Hperm Hsound Hprint.
  destruct (sequential_results (λ i, run (workers i)) test_files timeout verbose Hprint)
    as (events' & Hseq & _).
  assert (Hsame :
    outcome_result <$> submit_all workers test_files timeout verbose
    = imap (λ i f, (_run_single_test f timeout verbose (run (workers i))).1) test_files).
  { unfold submit_all. rewrite fmap_imap.
    apply imap_ext. intros i f _. unfold outcome_result, submit. cbn [fst snd compose].
    by rewrite Hsound. }
  destruct (parallel_contributions workers completion test_files max_parallel timeout
              verbose Hmax Hperm) as (results & events & Hrun & Hres & Hperm').
  assert (Hlen : length (submit_all workers test_files timeout verbose)
                 = length test_files).
  { unfold submit_all. apply length_imap. }
  exists results, events,
    (imap (λ i f, (_run_single_test f timeout verbose (run (workers i))).1) test_files),
    events'.
  split; [done |]. split; [exact Hseq |].
  rewrite contributions_printed in Hperm' by (by rewrite Hlen).
  split.
  - by rewrite Hperm', Hsame.
  - intros ->. rewrite Hres, <- Hlen, omap_lookup_imap, contributions_printed
      by (by rewrite Hlen). exact Hsame.
Qed.

Lemma parallel_agrees_with_sequential_witness :
  ∃ results events in_order events',
    _run_parallel_tests Examples.sound_workers [2; 0; 1]%nat Examples.three_artifacts
      2 300 false
    = Ok (results, events)
    /\ _run_sequential_tests Examples.one_slow Examples.three_artifacts 300 false
       = inr (in_order, events')
    /\ results ≡ₚ in_order.
Proof.
  destruct (parallel_agrees_with_sequential Examples.sound_workers [2; 0; 1]%nat
              Examples.three_artifacts 2 300 false)
    as (results & events & in_order & events' & Hrun & Hseq & Hperm & _);
    [lia | apply completion_order | done | by intros ? |].
  by exists results, events, in_order, events'.
Defined.

End Runs.

(** ** Discovery of the artifacts *)
Section Listing.
Import Executor Spec.

Lemma fsnode_nested_ind (P : fsnode -> Prop) :
  P File ->
  (∀ children, Forall (λ entry, P entry.2) children -> P (Dir children)) ->
  ∀ node, P node.
Proof.
  intros HFile HDir. fix IH 1. intros [|children]; [exact HFile |].
  apply HDir. induction children as [|[n sub] children IHc]; constructor.
  - apply IH.
  - exact IHc.
Qed.

Lemma bats_names_elem (n : string) (children : list (string * fsnode)) :
  n ∈ bats_names children
  <-> ∃ sub, (n, sub) ∈ children /\ endswith n ".bats" = true.
Proof.
  unfold bats_names. rewrite list_elem_of_In, in_map_iff. split.
  - intros ([n' sub] & <- & Hin). apply filter_In in Hin as [Hin He].
    exists sub. by rewrite list_elem_of_In.
  - intros (sub & Hin & He). exists (n, sub). split; [done |].
    apply filter_In. by rewrite <- list_elem_of_In.
Qed.

Lemma glob_rec_unfold (dir : Path) (children : list (string * fsnode)) :
  glob_rec dir (Dir children)
  = (map (λ n, (dir ++ [n])%list) (bats_names children)
     ++ concat (map (λ entry, glob_rec (dir ++ [entry.1]) entry.2) children))%list.
Proof.
  cbn [glob_rec]. f_equal.
  induction children as [|[n sub] children IH]; [done |].
  cbn [map concat fst snd]. by rewrite <- IH.
Qed.

Lemma glob_rec_elem (node : fsnode) (dir p : Path) :
  p ∈ glob_rec dir node <-> ∃ rel, p = (dir ++ rel)%list /\ holds_bats node rel.
Proof.
  revert dir p. induction node as [|children IH] using fsnode_nested_ind;
    intros dir p.
  - split; [by intros ?%elem_of_nil | intros (rel & _ & H); inversion H].
  - rewrite glob_rec_unfold, elem_of_app. split.
    + intros [H | H].
      * apply list_elem_of_fmap in H as (n & -> & Hn).
        apply bats_names_elem in Hn as (sub & Hin & He).
        exists [n]. split; [done |]. by apply (holds_here _ _ sub).
      * apply list_elem_of_In, in_concat in H as (l & Hl & Hp).
        apply in_map_iff in Hl as ([n sub] & <- & Hin). cbn [fst snd] in Hp.
        apply list_elem_of_In in Hin, Hp.
        rewrite Forall_forall in IH. apply (IH _ Hin) in Hp as (rel & -> & Hrel).
        exists (n :: rel). split; [by rewrite <- app_assoc |].
        by apply (holds_below _ _ sub).
    + intros (rel & -> & Hrel). inversion Hrel as [? n sub Hin He | ? d sub rel' Hin Hsub];
        subst.
      * left. apply list_elem_of_fmap. exists n. split; [done |].
        apply bats_names_elem. by exists sub.
      * right. apply list_elem_of_In, in_concat.
        exists (glob_rec (dir ++ [d]) sub). split.
        -- apply in_map_iff. exists (d, sub). split; [done |].
           by apply list_elem_of_In.
        -- apply list_elem_of_In. rewrite Forall_forall in IH.
           apply (IH _ Hin). exists rel'. split; [by rewrite <- app_assoc | done].
Qed.

Lemma glob_star_elem (dir p : Path) (node : fsnode) :
  p ∈ glob_star dir node -> p ∈ glob_rec dir node.
Proof.
  destruct node as [|children]; [done |]. rewrite glob_rec_unfold, elem_of_app.
  by left.
Qed.

(** The order of paths is a total preorder. *)
Lemma ascii_compare_lt_trans (a b c : ascii) :
  Ascii.compare a b = Lt -> Ascii.compare b c = Lt -> Ascii.compare a c = Lt.
Proof. unfold Ascii.compare. rewrite !N.compare_lt_iff. lia. Qed.

Lemma string_compare_lt_trans (s1 s2 s3 : string) :
  String.compare s1 s2 = Lt -> String.compare s2 s3 = Lt -> String.compare s1 s3 = Lt.
Proof.
  revert s2 s3. induction s1 as [|a s1 IH]; intros [|b s2] [|c s3]; cbn; try done.
  destruct (Ascii.compare a b) eqn:Eab; try done;
    destruct (Ascii.compare b c) eqn:Ebc; try done.
  - apply Ascii.compare_eq_iff in Eab as ->. rewrite Ebc. apply IH.
  - apply Ascii.compare_eq_iff in Eab as ->. by rewrite Ebc.
  - apply Ascii.compare_eq_iff in Ebc as <-. by rewrite Eab.
  - by rewrite (ascii_compare_lt_trans a b c).
Qed.

Lemma path_compare_eq (p q : Path) : path_compare p q = Eq -> p = q.
Proof.
  revert q. induction p as [|a p IH]; intros [|b q]; cbn; try done.
  destruct (String.compare a b) eqn:E; try done.
  apply String.compare_eq_iff in E as ->. by intros ->%IH.
Qed.

Lemma path_compare_lt_trans (p q r : Path) :
  path_compare p q = Lt -> path_compare q r = Lt -> path_compare p r = Lt.
Proof.
  revert q r. induction p as [|a p IH]; intros [|b q] [|c r]; cbn; try done.
  destruct (String.compare a b) eqn:Eab; try done;
    destruct (String.compare b c) eqn:Ebc; try done.
  - apply String.compare_eq_iff in Eab as ->. rewrite Ebc. apply IH.
  - apply String.compare_eq_iff in Eab as ->. by rewrite Ebc.
  - apply String.compare_eq_iff in Ebc as <-. by rewrite Eab.
  - by rewrite (string_compare_lt_trans a b c).
Qed.

Lemma path_compare_antisym (p q : Path) :
  path_compare p q = CompOpp (path_compare q p).
Proof.
  revert q. induction p as [|a p IH]; intros [|b q]; cbn; try done.
  rewrite String.compare_antisym. destruct (String.compare b a); cbn; [apply IH | done..].
Qed.

Lemma path_leb_trans (p q r : Path) :
  path_leb p q = true -> path_leb q r = true -> path_leb p r = true.
Proof.
  unfold path_leb.
  destruct (path_compare p q) eqn:Epq; try done;
    destruct (path_compare q r) eqn:Eqr; try done; intros _ _.
  - apply path_compare_eq in Epq as ->. by rewrite Eqr.
  - apply path_compare_eq in Epq as ->. by rewrite Eqr.
  - apply path_compare_eq in Eqr as <-. by rewrite Epq.
  - by rewrite (path_compare_lt_trans p q r).
Qed.

Lemma path_leb_total (p q : Path) : path_leb p q = false -> path_leb q p = true.
Proof.
  unfold path_leb. rewrite (path_compare_antisym q p).
  by destruct (path_compare p q).
Qed.

Lemma insert_path_sorted (p : Path) (l : list Path) :
  StronglySorted (λ a b, path_leb a b = true) l ->
  StronglySorted (λ a b, path_leb a b = true) (insert_path p l).
Proof.
  induction 1 as [|q l Hl IH Hq]; cbn [insert_path].
  - by repeat constructor.
  - destruct (path_leb p q) eqn:E.
    + constructor; [by constructor |]. constructor; [done |].
      eapply Forall_impl; [exact Hq |]. intros r Hr. by apply (path_leb_trans p q r).
    + constructor; [exact IH |]. rewrite insert_path_perm.
      constructor; [by apply path_leb_total | done].
Qed.

Lemma sorted_sorted (l : list Path) :
  StronglySorted (λ a b, path_leb a b = true) (sorted l).
Proof.
  unfold sorted. induction l as [|p l IH]; cbn [foldr]; [constructor |].
  by apply insert_path_sorted.
Qed.

(** X16: [_find_test_files] lists exactly the paths of the entries, at any
    depth of the output directory, whose name ends in ".bats" (nothing when
    the directory does not exist), and the list is in ascending order of
    paths: no path in it is greater than a later one. *)
Theorem discovery_lists_sorted (output_dir : Path) (tree : option fsnode) :
  (∀ p, p ∈ _find_test_files output_dir tree
        <-> ∃ node rel, tree = Some node
                        /\ p = (output_dir ++ rel)%list
                        /\ holds_bats node rel)
  /\ StronglySorted (λ p q, path_leb p q = true) (_find_test_files output_dir tree).
Proof.
  split; [| apply sorted_sorted].
  intros p. unfold _find_test_files. rewrite sorted_perm.
  destruct tree as [node|].
  - cbn [app]. rewrite elem_of_app, glob_rec_elem. split.
    + intros [H | H].
      * apply glob_star_elem, glob_rec_elem in H as (rel & -> & Hrel).
        by exists node, rel.
      * destruct H as (rel & -> & Hrel). by exists node, rel.
    + intros (node' & rel & [= <-] & -> & Hrel). right. by exists rel.
  - split; [by intros ?%elem_of_nil | by intros (? & ? & ? & _)].
Qed.

End Listing.

(** ** The environment of the runs *)
Section Environment.
Import Executor Spec.


























End Environment.

(** ** Docker mode and the run as a whole *)
Section Whole.
Import Executor Spec.




Lemma find_nothing (output_dir : Path) (tree : option fsnode) :
  (∀ node rel, tree = Some node -> ¬ holds_bats node rel) ->
  _find_test_files output_dir tree = [].
Proof.
  intros Hnone. destruct (_find_test_files output_dir tree) as [|p l] eqn:E; [done |].
  assert (Hp : p ∈ _find_test_files output_dir tree).
  { rewrite E. apply list_elem_of_here. }
  unfold _find_test_files in Hp. rewrite sorted_perm in Hp.
  destruct tree as [node|]; [| by apply elem_of_nil in Hp].
  cbn [app] in Hp. apply elem_of_app in Hp as [Hp%glob_star_elem | Hp];
    apply glob_rec_elem in Hp as (rel & _ & Hrel); by destruct (Hnone node rel).
Qed.





(** X20: when the output directory does not exist, or has no entry at any
    depth whose name ends in ".bats", [run_tests] ends in the [ValueError]
    that names the directory, in every mode. *)
Theorem run_tests_without_artifacts (w : world) (config : run_config)
    (docker_mode parallel verbose : bool) :
  (∀ node rel, tree w = Some node -> ¬ holds_bats node rel) ->
  run_tests w config docker_mode parallel verbose
  = Raise (ValueError ("No test files found in " +:+ path_str (configured_dir config))).
Proof.
  intros Hnone. unfold run_tests. fold (configured_dir config).
  by rewrite (find_nothing _ _ Hnone).
Qed.

Lemma run_tests_without_artifacts_witness :
  run_tests (Examples.world_with None) Examples.default_config true false false
  = Raise (ValueError "No test files found in generated/tests").
Proof.
  by apply (run_tests_without_artifacts (Examples.world_with None)
              Examples.default_config true false false).
Defined.



End Whole.

(** ** Configuration: merging and environment variables *)
Section Settings.
Import Config Spec.

Lemma merge_step (base_config : dict json) (key : string) (value : json)
    (rest : list (string * json)) :
  merge_into base_config (JDict ((key, value) :: rest))
  = merge_into
      (match dict_lookup key base_config, value with
       | Some (JDict under), JDict _ =>
           dict_set key (JDict (merge_into under value)) base_config
       | _, _ => dict_set key value base_config
       end)
      (JDict rest).
Proof.
  destruct (dict_lookup key base_config) as [[| | | | | |under]|] eqn:E;
    cbn [merge_into]; rewrite E; try reflexivity.
  by destruct value.
Qed.

Lemma merge_lookup (entries : list (string * json)) (base_config : dict json)
    (key : string) :
  dict_wf entries ->
  dict_lookup key (merge_into base_config (JDict entries))
  = match dict_lookup key entries with
    | None => dict_lookup key base_config
    | Some value =>
        match dict_lookup key base_config, value with
        | Some (JDict under), JDict _ => Some (JDict (merge_into under value))
        | _, _ => Some value
        end
    end.
Proof.
  unfold dict_wf. revert base_config.
  induction entries as [|[k v] rest IH]; intros base_config Hwf; [done |].
  cbn [map fst] in Hwf. apply NoDup_cons in Hwf as [Hfresh Hwf].
  rewrite merge_step, IH by done. cbn [dict_lookup].
  destruct (String.eqb_spec k key) as [-> | Hne].
  - rewrite (proj2 (dict_lookup_None key rest) Hfresh).
    destruct (dict_lookup key base_config) as [[| | | | | |under]|];
      try (by rewrite dict_lookup_set_eq).
    destruct v; by rewrite dict_lookup_set_eq.
  - assert (Hbase : ∀ x, dict_lookup key (dict_set k x base_config)
                         = dict_lookup key base_config).
    { intros x. by apply dict_lookup_set_ne. }
    destruct (dict_lookup k base_config) as [[| | | | | |under]|];
      rewrite ?Hbase; try done.
    destruct v; by rewrite Hbase.
Qed.

Lemma merge_wf (entries : list (string * json)) (base_config : dict json) :
  dict_wf base_config -> dict_wf (merge_into base_config (JDict entries)).
Proof.
  revert base_config. induction entries as [|[k v] rest IH]; intros base_config Hwf;
    [done |].
  rewrite merge_step. apply IH.
  destruct (dict_lookup k base_config) as [[| | | | | |under]|];
    try (by apply dict_set_wf).
  destruct v; by apply dict_set_wf.
Qed.

(** X22: in the configuration [_merge_configs] returns, a key the
    environment configuration does not have keeps the value of the base; a
    key it has takes the environment's value, except that two mappings
    under the same key are merged in the same way; no key of the base is
    lost and none appears twice. *)
Theorem merge_configs_lookup (base_config env_config : dict json) (key : string) :
  dict_wf base_config -> dict_wf env_config ->
  dict_lookup key (_merge_configs base_config env_config)
  = match dict_lookup key env_config with
    | None => dict_lookup key base_config
    | Some value =>
        match dict_lookup key base_config, value with
        | Some (JDict under), JDict over => Some (JDict (_merge_configs under over))
        | _, _ => Some value
        end
    end
  /\ (is_Some (dict_lookup key base_config) ->
      is_Some (dict_lookup key (_merge_configs base_config env_config)))
  /\ dict_wf (_merge_configs base_config env_config).
Proof.
  intros Hbase Henv. unfold _merge_configs.
  assert (Hlookup := merge_lookup env_config base_config key Henv).
  split_and!.
  - rewrite Hlookup. destruct (dict_lookup key env_config) as [value|]; [| done].
    destruct (dict_lookup key base_config) as [[| | | | | |under]|]; try done.
    by destruct value.
  - rewrite Hlookup. intros [x Hx]. rewrite Hx.
    destruct (dict_lookup key env_config) as [value|]; [| done].
    destruct x; try done. by destruct value.
  - by apply merge_wf.
Qed.

Lemma merge_configs_lookup_witness :
  dict_lookup "target_api"
    (_merge_configs Examples.base_settings Examples.staging_settings)
  = Some (JDict [("base_url", JStr "${STAGING_URL}"); ("timeout", JInt 30)])
  /\ dict_lookup "execution"
       (_merge_configs Examples.base_settings Examples.staging_settings)
     = Some (JStr "default").
Proof.
  assert (Hbase : dict_wf Examples.base_settings).
  { unfold dict_wf. apply (bool_decide_unpack _). vm_compute. exact I. }
  assert (Henv : dict_wf Examples.staging_settings).
  { unfold dict_wf. apply (bool_decide_unpack _). vm_compute. exact I. }
  split.
  - by rewrite (proj1 (merge_configs_lookup Examples.base_settings
                         Examples.staging_settings "target_api" Hbase Henv)).
  - by rewrite (proj1 (merge_configs_lookup Examples.base_settings
                         Examples.staging_settings "execution" Hbase Henv)).
Defined.

Lemma list_ascii_append (a b : string) :
  list_ascii_of_string (a +:+ b)
  = (list_ascii_of_string a ++ list_ascii_of_string b)%list.
Proof.
  induction a as [|c a IH]; [done |].
  change (String c a +:+ b) with (String c (a +:+ b)).
  cbn [list_ascii_of_string app]. by rewrite IH.
Qed.

Lemma placeholder_parts (name : string) :
  startswith ("${" +:+ name +:+ "}") "${" = true
  /\ endswith ("${" +:+ name +:+ "}") "}" = true
  /\ drop_last_chars 1 (drop_chars 2 ("${" +:+ name +:+ "}")) = name.
Proof.
  split_and!.
  - unfold startswith.
    change ("${" +:+ name +:+ "}") with (String "$" (String "{" (name +:+ "}"))).
    generalize (name +:+ "}"). intros rest. cbn. by destruct rest.
  - unfold endswith. rewrite !list_ascii_append, !rev_app_distr, <- app_assoc.
    generalize (rev (list_ascii_of_string name) ++ rev (list_ascii_of_string "${"))%list.
    intros rest. cbn. by destruct rest.
  - change (drop_chars 2 ("${" +:+ name +:+ "}")) with (name +:+ "}").
    unfold drop_last_chars. rewrite list_ascii_append, rev_app_distr.
    cbn [list_ascii_of_string rev app skipn]. rewrite drop_0, rev_involutive.
    apply string_of_list_ascii_of_string.
Qed.

Lemma process_value_unset (getenv : string -> option string) (value : json) :
  (∀ name, getenv name = None) -> process_value getenv value = value.
Proof.
  intros Hunset.
  induction value as [| | | | s | items IH | entries IH] using json_nested_ind;
    try done.
  - cbn [process_value]. rewrite Hunset. by destruct (_ && _).
  - cbn [process_value]. f_equal. induction IH as [|item items Hitem _ IHitems]; [done |].
    cbn [map]. by rewrite Hitem, IHitems.
  - cbn [process_value]. f_equal.
    induction IH as [|[k v] entries Hentry _ IHentries]; [done |].
    cbn [map fst snd] in *. by rewrite Hentry, IHentries.
Qed.

(** X23: [_process_env_variables] replaces a string that is, as a whole,
    "${NAME}" by the value of the variable NAME when it is set and leaves it
    as it is when it is not; any other string is left as it is, also one
    that has a placeholder inside; the result is a mapping with the keys of
    the configuration in their order; and when no variable is set the
    configuration comes back unchanged. *)
Theorem env_substitution (getenv : string -> option string) :
  (∀ name,
     process_value getenv (JStr ("${" +:+ name +:+ "}"))
     = match getenv name with
       | Some value => JStr value
       | None => JStr ("${" +:+ name +:+ "}")
       end)
  /\ (∀ s, startswith s "${" && endswith s "}" = false ->
           process_value getenv (JStr s) = JStr s)
  /\ (∀ config,
        ∃ entries,
          _process_env_variables getenv config = JDict entries
          /\ map fst entries = map fst config
          /\ ∀ key, dict_lookup key entries
                    = process_value getenv <$> dict_lookup key config)
  /\ ((∀ name, getenv name = None) ->
      ∀ config, _process_env_variables getenv config = JDict config).
Proof.
  split_and!.
  - intros name. destruct (placeholder_parts name) as (Hs & He & Hname).
    cbn [process_value]. by rewrite Hs, He, Hname.
  - intros s Hs. cbn [process_value]. by rewrite Hs.
  - intros config. unfold _process_env_variables. cbn [process_value].
    eexists. split; [reflexivity |]. split.
    + rewrite map_map. by apply map_ext.
    + intros key. induction config as [|[k v] config IH]; [done |].
      cbn [map dict_lookup fst snd]. by destruct (String.eqb k key).
  - intros Hunset config. by apply process_value_unset.
Qed.

End Settings.

(** ** From the generator's files to the executor's list *)
Section Artifacts.
Import Parser Templates Generator Executor Spec.

Lemma endswith_aux_app (rp rest : list ascii) : endswith_aux (rp ++ rest) rp = true.
Proof.
  induction rp as [|c rp IH]; [by destruct rest |].
  cbn [app endswith_aux]. by rewrite Ascii.eqb_refl.
Qed.

Lemma endswith_append (s suffix : string) : endswith (s +:+ suffix) suffix = true.
Proof.
  unfold endswith. rewrite list_ascii_append, rev_app_distr. apply endswith_aux_app.
Qed.

Lemma test_file_name_bats (template_name tag : string) :
  endswith (test_file_name template_name tag) ".bats" = true.
Proof.
  unfold test_file_name. rewrite !append_assoc_r. apply endswith_append.
Qed.

Lemma to_snake_case_fixed (text : string) :
  has_upper text = false -> _to_snake_case text = text.
Proof.
  intros H. unfold _to_snake_case.
  by rewrite sub_word_start_fixed, sub_case_change_fixed, lower_fixed.
Qed.

(** X24: every file name [_generate_template_tests] writes ends in ".bats",
    so a file of that name in the output directory is in the list
    [_find_test_files] returns.  The name depends on the tag through its
    snake case only: a tag with a capital letter shares its file with
    another tag, its snake-case form, and the file written later replaces
    the earlier one. *)
Theorem generated_artifacts_discovered (template_name : string) :
  (∀ tag, endswith (test_file_name template_name tag) ".bats" = true)
  /\ (∀ endpoints output_dir children name node,
        name ∈ template_test_files template_name endpoints ->
        (name, node) ∈ children ->
        (output_dir ++ [name])%list
        ∈ _find_test_files output_dir (Some (Dir children)))
  /\ (∀ tag, has_upper tag = true ->
             _to_snake_case tag ≠ tag
             /\ test_file_name template_name (_to_snake_case tag)
                = test_file_name template_name tag).
Proof.
  split_and!.
  - intros tag. apply test_file_name_bats.
  - intros endpoints output_dir children name node Hname Hin.
    unfold _find_test_files. rewrite sorted_perm. cbn [app].
    apply elem_of_app. right. apply glob_rec_elem. exists [name]. split; [done |].
    apply (holds_here _ _ node); [done |].
    unfold template_test_files in Hname.
    apply list_elem_of_fmap in Hname as ([tag group] & -> & _).
    apply test_file_name_bats.
  - intros tag Hupper. split.
    + intros Heq. pose proof (lower_no_upper (sub_case_change (sub_word_start false tag)))
        as Hlow. fold (_to_snake_case tag) in Hlow. rewrite Heq in Hlow. congruence.
    + unfold test_file_name. f_equal. f_equal. f_equal.
      apply to_snake_case_fixed, lower_no_upper.
Qed.

End Artifacts.

(** ** The validator against the parser *)
Section Contract.
Import Parser Parsing Validation Spec.

Lemma navigate_found (schema_ref : string) (path_parts : list string)
    (schema v : json) :
  navigate schema_ref path_parts schema = Ok v
  <-> pointer_lookup path_parts schema = Some v.
Proof.
  revert schema. induction path_parts as [|part rest IH]; intros schema.
  - cbn. split; by intros [= ->].
  - cbn [navigate pointer_lookup].
    destruct schema as [| | | | s | items | entries]; cbn [contains bind]; try done.
    + by destruct (is_substring part s).
    + by destruct (existsb _ items).
    + cbn [getitem]. destruct (dict_lookup part entries) as [next|]; cbn [negb bind];
        [apply IH | done].
Qed.

Lemma navigate_raise (schema_ref : string) (path_parts : list string)
    (schema : json) (e : exn) :
  navigate schema_ref path_parts schema = Raise e ->
  e = ValueError ("Schema reference not found: " +:+ schema_ref) \/ e = TypeError.
Proof.
  revert schema. induction path_parts as [|part rest IH]; intros schema; [done |].
  cbn [navigate].
  destruct schema as [| | | | s | items | entries]; cbn [contains bind];
    try (intros [= <-]; by right).
  - destruct (is_substring part s); cbn; intros [= <-]; by auto.
  - destruct (existsb _ items); cbn; intros [= <-]; by auto.
  - cbn [getitem]. destruct (dict_lookup part entries) as [next|]; cbn [negb bind].
    + apply IH.
    + intros [= <-]. by left.
Qed.

Lemma walk_pointer (segments : list string) (at_ v : json) :
  walk segments at_ = Ok v <-> pointer_lookup segments at_ = Some v.
Proof.
  split; [| apply walk_found].
  destruct (pointer_lookup segments at_) as [v'|] eqn:E.
  - apply walk_found in E. rewrite E. by intros [= ->].
  - apply walk_absent in E as (e & -> & _). done.
Qed.

(** X25: for a reference "#/a/b/c" the validator's [_resolve_schema_ref]
    returns a value exactly when following the segments from the document
    root through mappings finds it, and then it is the value the parser's
    [resolve_refs] puts in place of the reference; when the lookup fails it
    ends in the [ValueError] "Schema reference not found" or in a
    [TypeError], never in the parser's [KeyError]; a reference that does
    not start with "#/" is refused as invalid. *)
Theorem schema_ref_agrees_with_parser (root : json) :
  (∀ pointer v,
     _resolve_schema_ref ("#/" +:+ pointer) root = Ok v
     <-> pointer_lookup (split pointer "/") root = Some v)
  /\ (∀ pointer entries v,
        dict_lookup "$ref" entries = Some (JStr ("#/" +:+ pointer)) ->
        (_resolve_schema_ref ("#/" +:+ pointer) root = Ok v
         <-> resolve_ref (JDict entries) root = Ok v))
  /\ (∀ pointer e,
        _resolve_schema_ref ("#/" +:+ pointer) root = Raise e ->
        e = ValueError ("Schema reference not found: #/" +:+ pointer)
        \/ e = TypeError)
  /\ (∀ schema_ref,
        startswith schema_ref "#/" = false ->
        _resolve_schema_ref schema_ref root
        = Raise (ValueError ("Invalid schema reference: " +:+ schema_ref))).
Proof.
  assert (Hunfold : ∀ pointer,
            _resolve_schema_ref ("#/" +:+ pointer) root
            = navigate ("#/" +:+ pointer) (split pointer "/") root).
  { intros pointer. unfold _resolve_schema_ref.
    replace (startswith ("#/" +:+ pointer) "#/") with true; [done |].
    unfold startswith.
    change ("#/" +:+ pointer) with (String "#" (String "/" pointer)).
    cbn. by destruct pointer. }
  split_and!.
  - intros pointer v. rewrite Hunfold. apply navigate_found.
  - intros pointer entries v Href. rewrite Hunfold, navigate_found.
    cbn [resolve_ref]. rewrite Href. unfold follow_ref.
    replace (startswith ("#/" +:+ pointer) "#") with true by reflexivity.
    replace (drop_chars 2 ("#/" +:+ pointer)) with pointer by reflexivity.
    by rewrite walk_pointer.
  - intros pointer e. rewrite Hunfold. intros H.
    apply navigate_raise in H as [-> | ->]; [left; reflexivity | by right].
  - intros schema_ref Hno. unfold _resolve_schema_ref. by rewrite Hno.
Qed.

Lemma to_lower_upper (c : ascii) : to_lower (to_upper c) = to_lower c.
Proof.
  destruct c as [[] [] [] [] [] [] [] []]; reflexivity.
Qed.

Lemma lower_upper (s : string) : lower (upper s) = lower s.
Proof.
  induction s as [|c s IH]; [done |]. cbn. by rewrite to_lower_upper, IH.
Qed.

Lemma dict_lookup_elem {V : Type} (k : string) (v : V) (d : dict V) :
  dict_wf d -> (k, v) ∈ d -> dict_lookup k d = Some v.
Proof.
  unfold dict_wf. induction d as [|[k' v'] d IH]; [by intros _ ?%elem_of_nil |].
  cbn [map fst dict_lookup]. intros [Hfresh Hwf]%NoDup_cons [[= -> ->] | Hin]%elem_of_cons.
  - by rewrite String.eqb_refl.
  - destruct (String.eqb_spec k' k) as [-> | Hne]; [| by apply IH].
    destruct Hfresh. apply list_elem_of_fmap. by exists (k, v).
Qed.

Lemma dict_lookup_key {V : Type} (k : string) (v : V) (d : dict V) :
  (k, v) ∈ d -> dict_lookup k d ≠ None.
Proof.
  intros Hin Hnone. apply dict_lookup_None in Hnone. apply Hnone.
  apply list_elem_of_fmap. by exists (k, v).
Qed.

(** X26: for every endpoint [parse_endpoints] returns, the validator's
    [_endpoint_exists_in_spec] returns, without an exception, whether the
    method in small letters is a key of the endpoint's path item; so it
    finds every parsed endpoint of a document whose verbs are written in
    small letters, and misses one whose verb is written otherwise and has
    no small-letter twin. *)
Theorem parsed_endpoint_exists (spec : dict json) (paths : dict json)
    (eps : list RawEndpoint.t) (ep : RawEndpoint.t) :
  parse_endpoints spec = Ok eps ->
  paths_of spec = JDict paths ->
  dict_wf paths ->
  ep ∈ eps ->
  ∃ operations,
    dict_lookup (RawEndpoint.path ep) paths = Some (JDict operations)
    /\ _endpoint_exists_in_spec (RawEndpoint.path ep) (RawEndpoint.method ep)
         (JDict spec)
       = Ok (match dict_lookup (lower (RawEndpoint.method ep)) operations with
             | Some _ => true
             | None => false
             end)
    /\ ((∀ method operation,
           (method, operation) ∈ operations -> is_http_verb method = true ->
           lower method = method) ->
        _endpoint_exists_in_spec (RawEndpoint.path ep) (RawEndpoint.method ep)
          (JDict spec)
        = Ok true).
Proof.
  intros Hparse Hpaths Hwf Hep.
  assert (Hget : get (JDict spec) "paths" (JDict []) = Ok (JDict paths)).
  { cbn [get]. unfold paths_of in Hpaths. by rewrite Hpaths. }
  unfold parse_endpoints in Hparse. rewrite Hget in Hparse. cbn [bind items] in Hparse.
  apply paths_loop_ok in Hparse as (new & -> & Hnew & _). cbn [app] in Hep.
  assert (Hkey : keyed ep ∈ operations_of paths).
  { rewrite <- Hnew. apply list_elem_of_fmap. by exists ep. }
  unfold operations_of in Hkey.
  apply list_elem_of_In, in_concat in Hkey as (l & Hl & Hkey).
  apply in_map_iff in Hl as ([p item] & <- & Hin). cbn [fst snd] in Hkey.
  destruct item as [| | | | | |operations]; try done.
  apply list_elem_of_In, list_elem_of_fmap in Hkey as ([m op] & Heq & Hm).
  apply list_elem_of_filter in Hm as [Hverb Hm]. cbn [fst snd] in *.
  unfold keyed in Heq. injection Heq as Hp Hmethod.
  apply list_elem_of_In in Hin. pose proof (dict_lookup_elem _ _ _ Hwf Hin) as Hitem.
  exists operations. rewrite Hp, Hmethod, lower_upper.
  assert (Hexists : _endpoint_exists_in_spec p (upper m) (JDict spec)
                    = Ok (match dict_lookup (lower m) operations with
                          | Some _ => true
                          | None => false
                          end)).
  { unfold _endpoint_exists_in_spec. rewrite Hget. cbn [bind contains getitem].
    rewrite Hitem. cbn [negb bind contains]. by rewrite lower_upper. }
  split_and!; [done | done |].
  intros Hlower. rewrite Hexists, (Hlower m op Hm Hverb).
  by destruct (dict_lookup m operations) eqn:E; [| destruct (dict_lookup_key _ _ _ Hm E)].
Qed.

Lemma parsed_endpoint_exists_witness :
  ∃ eps get_pets add_pet,
    parse_endpoints Examples.two_operations = Ok eps
    /\ eps = [get_pets; add_pet]
    /\ _endpoint_exists_in_spec (RawEndpoint.path get_pets)
         (RawEndpoint.method get_pets) (JDict Examples.two_operations)
       = Ok true
    /\ _endpoint_exists_in_spec (RawEndpoint.path add_pet)
         (RawEndpoint.method add_pet) (JDict Examples.two_operations)
       = Ok false.
Proof.
  destruct (parse_endpoints Examples.two_operations) as [eps|e] eqn:E;
    [| by vm_compute in E].
  assert (Hwf : dict_wf
                  [("/pets",
                    JDict [("get", JDict [("operationId", JStr "listPets")]);
                           ("parameters", JList []);
                           ("Post", JDict [("operationId", JStr "addPet")])])]).
  { unfold dict_wf. apply (bool_decide_unpack _). vm_compute. exact I. }
  pose proof (λ ep, parsed_endpoint_exists Examples.two_operations _ eps ep E eq_refl Hwf)
    as Hexists.
  vm_compute in E. injection E as <-.
  eexists _, _, _. split; [done |]. split; [reflexivity |]. split.
  - destruct (Hexists _ (list_elem_of_here _ _)) as (operations & Hitem & -> & _).
    vm_compute in Hitem. by injection Hitem as <-.
  - destruct (Hexists _ (list_elem_of_further _ _ _ (list_elem_of_here _ _)))
      as (operations & Hitem & -> & _).
    vm_compute in Hitem. by injection Hitem as <-.
Defined.

End Contract.

(** ** From the filter to the groups *)
Section Pipeline.
Import Parser Generator Spec.

Lemma tagged_elem (tag : string) (endpoints : list Endpoint) (ep : Endpoint) :
  ep ∈ tagged tag endpoints <-> ep ∈ endpoints /\ tag ∈ tags_or_default ep.
Proof.
  unfold tagged. rewrite list_elem_of_In, in_concat. split.
  - intros (l & Hl & Hep). apply in_map_iff in Hl as (ep' & <- & Hin).
    apply list_elem_of_In, elem_of_replicate in Hep as [-> Hcount].
    split; [by apply list_elem_of_In |].
    destruct (filter (λ t, t = tag) (tags_or_default ep')) as [|t ts] eqn:E; [done |].
    assert (Ht : t ∈ filter (λ t, t = tag) (tags_or_default ep')).
    { rewrite E. apply list_elem_of_here. }
    by apply list_elem_of_filter in Ht as [-> ?].
  - intros [Hin Htag]. exists (replicate (length (filter (λ t, t = tag)
                                                 (tags_or_default ep))) ep).
    split.
    + apply in_map_iff. exists ep. split; [done | by apply list_elem_of_In].
    + apply list_elem_of_In, elem_of_replicate. split; [done |].
      assert (Ht : tag ∈ filter (λ t, t = tag) (tags_or_default ep)).
      { by apply list_elem_of_filter. }
      by destruct (filter (λ t, t = tag) (tags_or_default ep));
        [apply elem_of_nil in Ht |].
Qed.

Lemma grouped_elem (endpoints : list Endpoint) (ep : Endpoint) :
  (∃ tag group, dict_lookup tag (group_by_tag endpoints) = Some group /\ ep ∈ group)
  <-> ep ∈ endpoints.
Proof.
  unfold group_by_tag. split.
  - intros (tag & group & Hgroup & Hep). rewrite group_loop_lookup in Hgroup.
    cbn [dict_lookup] in Hgroup.
    destruct (tagged tag endpoints) as [|x l] eqn:E; [done |].
    cbn [extended app] in Hgroup. injection Hgroup as <-. rewrite <- E in Hep.
    by apply tagged_elem in Hep as [? _].
  - intros Hin.
    assert (Htag : ∃ tag, tag ∈ tags_or_default ep).
    { unfold tags_or_default. destruct (tags ep) as [|t ts].
      - exists "default". apply list_elem_of_here.
      - exists t. apply list_elem_of_here. }
    destruct Htag as [tag Htag].
    assert (Hep : ep ∈ tagged tag endpoints) by (by apply tagged_elem).
    exists tag, (tagged tag endpoints). split; [| done].
    rewrite group_loop_lookup. cbn [dict_lookup].
    destruct (tagged tag endpoints); [by apply elem_of_nil in Hep | done].
Qed.

(** X27: the groups [_generate_template_tests] makes from the endpoints
    [_filter_endpoints] kept hold exactly those endpoints: an endpoint is in
    some group if and only if it was kept, so no kept endpoint goes without
    a test file and no endpoint that the inclusion list does not name, or
    the exclusion list names when there is no inclusion list, gets into
    one. *)
Theorem groups_cover_filtered (endpoints : list Endpoint)
    (exclude include_only : list string) (ep : Endpoint) :
  let kept := _filter_endpoints endpoints exclude include_only in
  ((∃ tag group, dict_lookup tag (group_by_tag kept) = Some group /\ ep ∈ group)
   <-> ep ∈ kept)
  /\ (ep ∈ kept
      <-> ep ∈ endpoints
          /\ match include_only with
             | [] => path ep ∉ exclude
             | _ :: _ => path ep ∈ include_only
             end).
Proof.
  cbv zeta. split; [apply grouped_elem |].
  unfold _filter_endpoints. destruct include_only as [|p ps].
  - destruct exclude as [|x xs].
    + split; [intros H; split; [done | apply not_elem_of_nil] | by intros [? _]].
    + rewrite list_elem_of_In, filter_In, <- list_elem_of_In, negb_true_iff.
      rewrite <- not_true_iff_false, path_in_spec. done.
  - rewrite list_elem_of_In, filter_In, <- list_elem_of_In, path_in_spec. done.
Qed.

End Pipeline.
